(** * cliscale: the worker entrypoint, the controller's database handle and
      the Store schema, embedded and checked against the specification.

    Three parts of the repository are modelled, each in its own module:

    - [Runner]: [runner/entrypoint.sh], the bash script that validates the
      job's environment, fetches the code, installs, starts the command in
      tmux and supervises it. The script is a program in a small monad
      (shell state, [exit] as the exception); what the commands it starts
      do is left to a [world], so that a statement about the script holds
      however curl, tar, git, tmux and ttyd behave, and so is the locale
      that bash runs in (the C locale or a UTF-8 one). Signals, and with
      them the [trap] of the script, are outside the model;
    - [Db]: [controller/src/db.ts], the Knex handle with its pool-health
      flag, the health check and the guarded pool shutdown, one turn of
      the event loop per step;
    - [Store]: the two Knex migrations that create [sessions] and
      [token_jti], with the constraint checking of the SQL engine they run
      on.

    The definitions come first; the facts about them follow, in
    [RunnerFacts], [DbFacts] and [StoreFacts]. *)

From Stdlib Require Import ZArith NArith Ascii String DecimalString DecimalN.
From stdpp Require Import gmap strings list.

Local Open Scope string_scope.
Local Open Scope list_scope.
Local Open Scope nat_scope.

(** ** Strings as the shell sees them

    A shell string is a sequence of bytes: [string] is a list of 8-bit
    [ascii], and [String.length] is the length in bytes.  What a
    character is depends on the locale bash runs in: every byte in the C
    locale, a UTF-8 sequence in a UTF-8 locale.  [${#cmd}] counts
    characters, and so do the [.] and the [[^/]] of a regular expression;
    the literal patterns of the script ([case] globs, [=~] on a fixed
    text) are made of ASCII characters and match the same bytes in both. *)

Module Str.

(** The character [DQUOTE], which the string notation cannot spell
    inline, and the line feed. *)
Definition dq : string := String "034"%char EmptyString.
Definition nl : string := String "010"%char EmptyString.

(** [has_prefix p s]: [s] starts with [p]. *)
Fixpoint has_prefix (p s : string) : bool :=
  match p, s with
  | EmptyString, _ => true
  | String a p', String b s' => bool_decide (a = b) && has_prefix p' s'
  | String _ _, EmptyString => false
  end.

(** [contains needle hay]: [needle] occurs somewhere in [hay]; this is what
    an unanchored [[[ "$hay" =~ needle ]]] decides when [needle] is a
    literal. *)
Fixpoint contains (needle hay : string) : bool :=
  has_prefix needle hay ||
  match hay with
  | EmptyString => false
  | String _ hay' => contains needle hay'
  end.

(** Glob patterns of [case]: [*] matches any run of characters, every
    other character of the patterns the script uses matches itself. *)
Inductive gpat := GStar | GChr (a : ascii).

Fixpoint glob_of_string (p : string) : list gpat :=
  match p with
  | EmptyString => []
  | String a p' =>
      (if bool_decide (a = "*"%char) then GStar else GChr a) :: glob_of_string p'
  end.

Fixpoint glob_match (p : list gpat) (s : string) {struct p} : bool :=
  match p with
  | [] => match s with EmptyString => true | String _ _ => false end
  | GChr c :: p' =>
      match s with
      | String a s' => bool_decide (a = c) && glob_match p' s'
      | EmptyString => false
      end
  | GStar :: p' =>
      (fix star (s : string) : bool :=
         glob_match p' s ||
         match s with String _ s' => star s' | EmptyString => false end) s
  end.

Definition glob (p s : string) : bool := glob_match (glob_of_string p) s.

(** *** Characters

    The character sets of the locales of the runner: single bytes (C,
    POSIX, and what bash falls back to when the locale named in the
    environment is missing), or UTF-8 as the C library decodes it. *)
Inductive charset := Bytes | Utf8.

#[global] Instance charset_eq_dec : EqDecision charset.
Proof. solve_decision. Defined.

Definition byte (a : ascii) : N := N_of_ascii a.

(** A continuation byte of UTF-8, [10xxxxxx]. *)
Definition continuation (a : ascii) : bool :=
  (128 <=? byte a)%N && (byte a <=? 191)%N.

(** [continuations n s]: [s] starts with [n] continuation bytes. *)
Fixpoint continuations (n : nat) (s : string) : bool :=
  match n with
  | O => true
  | S k =>
      match s with
      | String a s' => continuation a && continuations k s'
      | EmptyString => false
      end
  end.

(** The number of continuation bytes that the lead byte [b] announces;
    0 when [b] leads no sequence ([80]-[C1], [FE], [FF]).  The decoder of
    the C library takes the sequences of up to six bytes. *)
Definition utf8_tail (b : N) : nat :=
  if (b <? 194)%N then 0
  else if (b <? 224)%N then 1
  else if (b <? 240)%N then 2
  else if (b <? 248)%N then 3
  else if (b <? 252)%N then 4
  else if (b <? 254)%N then 5
  else 0.

(** [utf8_first b d]: [d] may follow the lead byte [b]: the sequence is
    not an overlong form and does not encode a surrogate. *)
Definition utf8_first (b d : N) : bool :=
  negb ((b =? 224)%N && (d <? 160)%N) &&
  negb ((b =? 237)%N && (160 <=? d)%N) &&
  negb ((b =? 240)%N && (d <? 144)%N) &&
  negb ((b =? 248)%N && (d <? 136)%N) &&
  negb ((b =? 252)%N && (d <? 132)%N).

(** The length in bytes of the character at the head of [s]; 0 when [s]
    is empty or when the bytes at its head are no character. *)
Definition char_size (cs : charset) (s : string) : nat :=
  match s with
  | EmptyString => 0
  | String a rest =>
      match cs with
      | Bytes => 1
      | Utf8 =>
          if (byte a <? 128)%N then 1
          else
            match utf8_tail (byte a), rest with
            | S k, String d _ =>
                if continuations (S k) rest && utf8_first (byte a) (byte d)
                then S (S k) else 0
            | _, _ => 0
            end
      end
  end.

(** [${#s}]: the number of characters of [s]; a byte that is not part
    of a character counts for one.  [skip] is the number of bytes still
    to pass of the character under way. *)
Fixpoint count_chars (cs : charset) (skip : nat) (s : string) : nat :=
  match s with
  | EmptyString => 0
  | String _ s' =>
      match skip with
      | S k => count_chars cs k s'
      | O => S (count_chars cs (pred (char_size cs s)) s')
      end
  end.

Definition char_length (cs : charset) (s : string) : nat := count_chars cs 0 s.

Fixpoint drop_bytes (n : nat) (s : string) : string :=
  match n, s with
  | S k, String _ s' => drop_bytes k s'
  | _, _ => s
  end.

(** *** Regular expressions

    The fragment of POSIX extended regular expressions that
    [GITHUB_REGEX] is written in: literal characters, [.], the capturing
    group [([^/]+)] and the capturing group [(.+)]. *)
Inductive ritem := RChr (a : ascii) | RAny | RSeg | RRest.

Fixpoint rlit (s : string) : list ritem :=
  match s with
  | EmptyString => []
  | String a s' => RChr a :: rlit s'
  end.

(** The longest run of characters at the head of [s] none of which
    starts with a byte in [stop], and what follows it; bytes that are no
    character end the run, since neither [.] nor a bracket expression
    matches them. *)
Fixpoint span_chars (cs : charset) (stop : ascii → bool) (skip : nat)
    (s : string) : string * string :=
  match s with
  | EmptyString => (EmptyString, EmptyString)
  | String a s' =>
      match skip with
      | S k => let '(run, rest) := span_chars cs stop k s' in (String a run, rest)
      | O =>
          match char_size cs s with
          | O => (EmptyString, s)
          | S k =>
              if stop a then (EmptyString, s)
              else let '(run, rest) := span_chars cs stop k s' in (String a run, rest)
          end
      end
  end.

(** [[^/]+] and [.+] at the head of [s]. *)
Definition span_seg (cs : charset) (s : string) : string * string :=
  span_chars cs (λ a, bool_decide (a = "/"%char)) 0 s.

Definition span_rest (cs : charset) (s : string) : string * string :=
  span_chars cs (λ _, false) 0 s.

(** A match of the items at the head of [s], with the captured groups.
    In the regular expressions of this shape a [([^/]+)] is always
    followed by a literal [/] and [(.+)] comes last, so each group can
    only be the whole run: the greedy choice is the POSIX one. *)
Fixpoint match_at (cs : charset) (r : list ritem) (s : string) {struct r} :
    option (list string) :=
  match r with
  | [] => Some []
  | RChr c :: r' =>
      match s with
      | String a s' => if bool_decide (a = c) then match_at cs r' s' else None
      | EmptyString => None
      end
  | RAny :: r' =>
      match char_size cs s with
      | O => None
      | S k => match_at cs r' (drop_bytes (S k) s)
      end
  | RSeg :: r' =>
      let '(seg, rest) := span_seg cs s in
      match seg with
      | EmptyString => None
      | String _ _ => cons seg <$> match_at cs r' rest
      end
  | RRest :: r' =>
      let '(run, rest) := span_rest cs s in
      match run with
      | EmptyString => None
      | String _ _ => cons run <$> match_at cs r' rest
      end
  end.

(** The leftmost match anywhere in [s] ([=~] is not anchored). *)
Fixpoint search (cs : charset) (r : list ritem) (s : string) : option (list string) :=
  match match_at cs r s with
  | Some caps => Some caps
  | None =>
      match s with
      | EmptyString => None
      | String _ s' => search cs r s'
      end
  end.

(** *** Numbers

    Decimal numerals, as [echo $code] prints them. *)
Definition of_N (n : N) : string := NilEmpty.string_of_uint (N.to_uint n).

Definition to_N (s : string) : option N :=
  match s with
  | EmptyString => None
  | String _ _ => N.of_uint <$> NilEmpty.uint_of_string s
  end.

(** What [$(...)] makes of the output of a command: the NUL bytes are
    dropped and the line feeds at the end are removed. *)
Fixpoint captured (s : string) : string :=
  match s with
  | EmptyString => EmptyString
  | String a s' =>
      let t := captured s' in
      if bool_decide (a = "000"%char) then t
      else if bool_decide (a = "010"%char) && bool_decide (t = EmptyString)
      then EmptyString
      else String a t
  end.

(** The white space that [strtoimax] passes before a number (space and
    the controls 9 to 13), and the blanks bash allows after it (space and
    tab). *)
Definition is_space (a : ascii) : bool :=
  bool_decide (a = " "%char) || ((9 <=? byte a)%N && (byte a <=? 13)%N).

Definition is_blank (a : ascii) : bool :=
  bool_decide (a = " "%char) || bool_decide (a = "009"%char).

Fixpoint skip_spaces (s : string) : string :=
  match s with
  | String a s' => if is_space a then skip_spaces s' else s
  | EmptyString => s
  end.

Fixpoint all_blank (s : string) : bool :=
  match s with
  | String a s' => is_blank a && all_blank s'
  | EmptyString => true
  end.

Definition digit (a : ascii) : option N :=
  if (48 <=? byte a)%N && (byte a <=? 57)%N then Some (byte a - 48)%N else None.

(** The decimal digits at the head of [s], read after [acc], and what
    follows them. *)
Fixpoint digits (acc : N) (s : string) : N * string :=
  match s with
  | String a s' =>
      match digit a with
      | Some d => digits (10 * acc + d)%N s'
      | None => (acc, s)
      end
  | EmptyString => (acc, s)
  end.

(** The numbers a builtin of bash takes as an argument: white space, an
    optional sign, decimal digits, blanks; within the 64 bits of
    [intmax_t]. *)
Definition legal_number (s : string) : option Z :=
  let s1 := skip_spaces s in
  let '(negative, s2) :=
    match s1 with
    | String "-" r => (true, r)
    | String "+" r => (false, r)
    | _ => (false, s1)
    end in
  match s2 with
  | String a _ =>
      match digit a with
      | None => None
      | Some _ =>
          let '(n, rest) := digits 0 s2 in
          let z := if negative then (- Z.of_N n)%Z else Z.of_N n in
          if all_blank rest && (- 2 ^ 63 <=? z)%Z && (z <? 2 ^ 63)%Z
          then Some z else None
      end
  | EmptyString => None
  end.

(** *** The lines that [sha256sum -c] reads *)

Fixpoint lines_from (cur : string → string) (s : string) : list string :=
  match s with
  | EmptyString => [cur EmptyString]
  | String a s' =>
      if bool_decide (a = "010"%char) then cur EmptyString :: lines_from (λ t, t) s'
      else lines_from (λ t, cur (String a t)) s'
  end.

(** The lines of a text, without the line feeds; the text that [echo]
    writes ends with a line feed of its own. *)
Definition lines (s : string) : list string := lines_from (λ t, t) s.

Definition hex_digit (a : ascii) : bool :=
  ((48 <=? byte a)%N && (byte a <=? 57)%N) ||
  ((65 <=? byte a)%N && (byte a <=? 70)%N) ||
  ((97 <=? byte a)%N && (byte a <=? 102)%N).

Fixpoint all_hex (s : string) : bool :=
  match s with
  | String a s' => hex_digit a && all_hex s'
  | EmptyString => true
  end.

(** A SHA-256 sum as [sha256sum] prints it: 64 hexadecimal digits. *)
Definition sha256_hex (s : string) : bool :=
  bool_decide (String.length s = 64) && all_hex s.

(** A line of the plain form of [sha256sum]: 64 hexadecimal digits, a
    space, a space or [*], and the name of the file; the digest and the
    name.  [None] for a line of any other form (the tagged form, a name
    with escapes), whatever [sha256sum] makes of it. *)
Definition check_line (line : string) : option (string * string) :=
  let sum := String.substring 0 64 line in
  match drop_bytes 64 line with
  | String " " (String b name) =>
      if sha256_hex sum &&
         (bool_decide (b = " "%char) || bool_decide (b = "*"%char)) &&
         negb (bool_decide (name = EmptyString))
      then Some (sum, name) else None
  | _ => None
  end.

End Str.

(** ** The worker entrypoint: [runner/entrypoint.sh] *)

Module Runner.
Import Str.

(** *** What the script runs

    Every external command the script starts is a [cmd]; its arguments
    are the ones the script passes. *)
Inductive cmd :=
| Cd (dir : string)
| MkdirP (dir : string)
| Mktemp
| CurlTar (url dir : string)          (* curl -fL url | tar xz -C dir *)
| FindHead (dir name : string)        (* find dir -type d -name name | head -1 *)
| MvAll (from to : string)            (* mv from/* to *)
| RmRf (dir : string)
| LsLa (dir : string)                 (* ls -la [dir] *)
| Curl (url out : string)             (* curl -fL url -o out *)
| GitClone (url dir : string)         (* git clone --depth=1 url dir *)
| Sha256sum (sum file : string)       (* echo "sum  file" | sha256sum -c - *)
| Unzip (file dir : string)
| TarStrip (file dir : string)        (* tar -xzf file -C dir --strip-components=1 *)
| TarPlain (file dir : string)        (* tar -xzf file -C dir *)
| BashC (script : string)             (* /bin/bash -c script *)
| WriteTmuxConf
| TmuxNewSession (socket session script : string)
| LogPump (socket session : string)   (* the capture-pane loop *)
| Ttyd (port socket session : string)
| TmuxHasSession (socket session : string)
| Sleep (seconds : nat)
| CatExitFile (file : string)
| KillTtyd
| WaitTtyd.

#[global] Instance cmd_eq_dec : EqDecision cmd.
Proof. solve_decision. Defined.

(** What the script leaves behind: the lines it echoes, the commands it
    runs in the foreground with their exit status, and the commands it
    starts in the background. *)
Inductive event :=
| Echo (line : string)
| Ran (c : cmd) (status : N)
| Background (c : cmd).

#[global] Instance event_eq_dec : EqDecision event.
Proof. solve_decision. Defined.

(** The state of [/tmp/${TMUX_SESSION}_exit_code] when the script looks
    at it. *)
Inductive exit_file_state :=
| Absent
| Unreadable
| Holds (content : string).

(** *** The world outside the script

    Everything the script cannot decide itself: the character set of the
    locale bash has started in (it follows from [LC_ALL], [LC_CTYPE] and
    [LANG] in the environment and from the locales the image has; the
    multi-byte character sets other than UTF-8 are not modelled), how
    each command
    exits, what the commands whose output it captures print, the files
    already in [/work], the listing of [/work/src] after extraction, how
    long the tmux session lives, what the exit file holds and how ttyd
    ends. *)
Record world := {
  locale : charset;
  status : cmd → N;
  mktemp_dir : string;
  find_first : string → string → string;
  initial_files : gset string;
  src_listing : list (string * bool);
  job_polls : option nat;
  exit_file : exit_file_state;
  ttyd_exit : option N
}.

(** *** The shell's own state *)
Record shell := {
  vars : gmap string string;
  files : gset string;
  cwd : string;
  trace : list event
}.

Definition set_vars (f : gmap string string → gmap string string) (s : shell) : shell :=
  {| vars := f (vars s); files := files s; cwd := cwd s; trace := trace s |}.
Definition set_files (f : gset string → gset string) (s : shell) : shell :=
  {| vars := vars s; files := f (files s); cwd := cwd s; trace := trace s |}.
Definition set_cwd (d : string) (s : shell) : shell :=
  {| vars := vars s; files := files s; cwd := d; trace := trace s |}.
Definition emit (e : event) (s : shell) : shell :=
  {| vars := vars s; files := files s; cwd := cwd s; trace := trace s ++ [e] |}.

(** How a run ends: the script exits with a status, or it waits for ever
    on something that never happens. *)
Inductive outcome :=
| Exited (code : N)
| Forever.

Inductive res (A : Type) :=
| Ret (a : A)
| Halt (o : outcome).
Arguments Ret {A} a.
Arguments Halt {A} o.

(** The script monad: shell state, with [exit] as the exception. *)
Definition Sh (A : Type) : Type := shell → res A * shell.

#[global] Instance sh_ret : MRet Sh := λ A a s, (Ret a, s).

#[global] Instance sh_bind : MBind Sh := λ A B k m s,
  match m s with
  | (Ret a, s') => k a s'
  | (Halt o, s') => (Halt o, s')
  end.

Definition ret {A} (a : A) : Sh A := mret a.

Definition exit {A} (code : N) : Sh A := λ s, (Halt (Exited code), s).
Definition block {A} : Sh A := λ s, (Halt Forever, s).

Definition echo (line : string) : Sh unit := λ s, (Ret (), emit (Echo line) s).

(** [${name}] under [set -u]: an unset variable is fatal, status 1. *)
Definition getv (name : string) : Sh string :=
  λ s, match vars s !! name with
       | Some v => (Ret v, s)
       | None => (Halt (Exited 1), s)
       end.

(** [${name:-dflt}]: [dflt] when unset or empty. *)
Definition getv_or (name dflt : string) : Sh string :=
  λ s, match vars s !! name with
       | Some v => (Ret (if bool_decide (v = EmptyString) then dflt else v), s)
       | None => (Ret dflt, s)
       end.

Definition setv (name v : string) : Sh unit :=
  λ s, (Ret (), set_vars (insert name v) s).

(** [: "${name:=dflt}"]: assign [dflt] when unset or empty. *)
Definition default_to (name dflt : string) : Sh unit :=
  v ← getv_or name dflt; setv name v.

Definition file_exists (f : string) : Sh bool :=
  λ s, (Ret (bool_decide (f ∈ files s)), s).

Definition create_file (f : string) : Sh unit :=
  λ s, (Ret (), set_files (union {[f]}) s).

Section Script.

Variable w : world.

(** A command whose status the script looks at itself ([if], [||]). *)
Definition try (c : cmd) : Sh N :=
  λ s, (Ret (status w c), emit (Ran c (status w c)) s).

Definition ok (st : N) : bool := bool_decide (st = 0%N).

(** [if b; then m; fi] *)
Definition when (b : bool) (m : Sh unit) : Sh unit := if b then m else ret ().

(** [c || { handler; }] *)
Definition or_else (c : cmd) (handler : Sh unit) : Sh unit :=
  st ← try c; if ok st then ret () else handler.

(** A command on a line of its own: under [set -e] a non-zero status ends
    the script with that status. *)
Definition sh (c : cmd) : Sh unit :=
  st ← try c; if ok st then ret () else exit st.

(** [cd dir] *)
Definition chdir (dir : string) : Sh unit :=
  λ s, (Ret (), set_cwd (if has_prefix "/" dir then dir else cwd s +:+ "/" +:+ dir) s).

Definition cd (dir : string) : Sh unit := sh (Cd dir);; chdir dir.

(** [background c]: [c &], which never fails the script. *)
Definition background (c : cmd) : Sh unit := λ s, (Ret (), emit (Background c) s).

(** Lines 7-21. *)
Definition dangerous_msg : string := "[fatal] Command contains dangerous substitution patterns".
Definition too_long_msg : string := "[fatal] Command exceeds maximum length".

Definition dangerous (cmd : string) : bool :=
  contains "$(" cmd || contains "`" cmd || contains "${" cmd.

Definition validate_command (cmd : string) : Sh N :=
  if dangerous cmd then
    echo dangerous_msg;; ret 1%N
  else if bool_decide (500 < char_length (locale w) cmd)%nat then
    echo too_long_msg;; ret 1%N
  else ret 0%N.

(** [validate_command "${name}" || exit 1], when [name] is set and not
    empty (lines 23-28). *)
Definition validate_var (name : string) : Sh unit :=
  v ← getv_or name EmptyString;
  if bool_decide (v = EmptyString) then ret ()
  else
    st ← validate_command v;
    if bool_decide (st = 0%N) then ret () else exit 1.

(** Lines 4-28. *)
Definition check_inputs : Sh unit :=
  url ← getv "CODE_URL";
  echo ("[entrypoint] CODE_URL=" +:+ url);;
  when (bool_decide (url = EmptyString))
    (echo "[fatal] CODE_URL is required";; exit 2);;
  validate_var "COMMAND";;
  validate_var "INSTALL_CMD".

(** Line 42: [github.com/([^/]+)/([^/]+)/tree/([^/]+)/(.+)]. *)
Definition GITHUB_REGEX : list ritem :=
  rlit "github" ++ [RAny] ++ rlit "com/" ++ [RSeg] ++ rlit "/" ++ [RSeg] ++
  rlit "/tree/" ++ [RSeg] ++ rlit "/" ++ [RRest].

(** Lines 38-84, the branch of a GitHub tree URL. *)
Definition fetch_github (url : string) : Sh unit :=
  echo "[entrypoint] Detected GitHub tree URL, extracting folder...";;
  match search (locale w) GITHUB_REGEX url with
  | Some [owner; repo; ref; folder] =>
      setv "OWNER" owner;; setv "REPO" repo;; setv "REF" ref;;
      setv "FOLDER" folder;;
      echo ("[entrypoint] Owner: " +:+ owner +:+ ", Repo: " +:+ repo +:+
            ", Ref: " +:+ ref +:+ ", Folder: " +:+ folder);;
      let tarball := "https://api.github.com/repos/" +:+ owner +:+ "/" +:+
                     repo +:+ "/tarball/" +:+ ref in
      echo ("[entrypoint] Downloading from: " +:+ tarball);;
      sh Mktemp;;
      let tmp := mktemp_dir w in
      setv "TEMP_DIR" tmp;;
      or_else (CurlTar tarball tmp)
        (echo "[fatal] Failed to download GitHub tarball";; exit 3);;
      sh (FindHead tmp folder);;
      let found := find_first w tmp folder in
      setv "EXTRACTED_FOLDER" found;;
      when (bool_decide (found = EmptyString))
        (echo ("[fatal] Folder " +:+ folder +:+ " not found in tarball");;
         sh (RmRf tmp);; exit 3);;
      or_else (MvAll found "/work/src/")
        (echo "[fatal] Failed to move extracted files";;
         sh (RmRf tmp);; exit 3);;
      sh (RmRf tmp);;
      echo ("[entrypoint] Successfully extracted " +:+ folder +:+ " from GitHub");;
      echo "[entrypoint] Contents of /work/src:";;
      sh (LsLa "/work/src");;
      setv "CODE_CHECKSUM_SHA256" EmptyString
  | _ =>
      echo "[fatal] Could not parse GitHub tree URL";; exit 3
  end.

(** [curl -fL url -o out] on a line of its own: when it succeeds the file
    is there. *)
Definition download (url out : string) : Sh unit :=
  sh (Curl url out);; create_file out.

(** Line 37: the pattern of a GitHub tree URL. *)
Definition github_tree (url : string) : bool := glob "*github.com/*/tree/*" url.

(** Lines 30-92: the [case] on [CODE_URL]; the first pattern that matches
    wins. *)
Definition fetch_code : Sh unit :=
  cd "/work";;
  sh (MkdirP "src");;
  setv "FOLDER" EmptyString;;
  url ← getv "CODE_URL";
  if github_tree url then fetch_github url
  else if glob "*.zip" url then download url "bundle.zip"
  else if glob "*.tgz" url || glob "*.tar.gz" url then download url "bundle.tgz"
  else if glob "*.git" url || glob "*.git*" url then sh (GitClone url "src")
  else
    echo "[warning] Unknown file extension, assuming zip";;
    download url "bundle.zip".

(** Lines 94-100.  The command is the pipeline of line 96 or 98: its
    status is the one of [sha256sum -c -], which reads [check_input sum
    file] and checks the file that each line of it names. *)
Definition verify_checksum : Sh unit :=
  sum ← getv_or "CODE_CHECKSUM_SHA256" EmptyString;
  if bool_decide (sum = EmptyString) then ret ()
  else
    zip ← file_exists "bundle.zip";
    if (zip : bool) then sh (Sha256sum sum "bundle.zip")
    else
      tgz ← file_exists "bundle.tgz";
      when tgz (sh (Sha256sum sum "bundle.tgz")).

(** What [echo] writes into the pipe of lines 96 and 98 for
    [sha256sum -c -] to read, less the line feed that ends it: the value
    of the variable as it is, line feeds included. *)
Definition check_input (sum file : string) : string := sum +:+ "  " +:+ file.

Definition pwd : Sh string := λ s, (Ret (cwd s), s).

(** Lines 102-118. *)
Definition extract_archives : Sh unit :=
  zip ← file_exists "bundle.zip";
  when zip
    (or_else (Unzip "bundle.zip" "src") (echo "unzip failed";; exit 3));;
  tgz ← file_exists "bundle.tgz";
  when tgz
    (or_else (TarStrip "bundle.tgz" "src") (sh (TarPlain "bundle.tgz" "src")));;
  cd "/work/src";;
  dir ← pwd;
  echo ("[entrypoint] Current directory: " +:+ dir);;
  echo "[entrypoint] Directory contents:";;
  sh (LsLa EmptyString);;
  folder ← getv "FOLDER";
  match src_listing w with
  | [(name, true)] =>
      when (bool_decide (folder = EmptyString))
        (echo "[entrypoint] Found single directory, entering it...";;
         cd name;;
         dir ← pwd;
         echo ("[entrypoint] New directory: " +:+ dir);;
         sh (LsLa EmptyString))
  | _ => ret ()
  end.

(** Lines 120-129. *)
Definition install : Sh unit :=
  echo "[entrypoint] Installing dependencies...";;
  default_to "INSTALL_CMD" "npm install";;
  install_cmd ← getv "INSTALL_CMD";
  echo ("[entrypoint] Running: " +:+ install_cmd);;
  or_else (BashC install_cmd)
    (echo "[fatal] Install command failed";; exit 4);;
  echo "[entrypoint] Installation complete!".

(** Line 163: what the tmux session runs; it records the command's exit
    status in [exit_file]. *)
Definition job_script (command exit_file : string) : string :=
  "bash -c " +:+ dq +:+ command +:+ dq +:+ "; code=$?; echo $code > " +:+
  dq +:+ exit_file +:+ dq +:+ "; echo " +:+ dq +:+
  "[entrypoint] Command exited with code $code" +:+ dq +:+ "; exit $code".

(** Lines 130-181. The [trap] of line 158 only acts on a signal, which is
    outside this model. *)
Definition launch : Sh unit :=
  command ← getv "COMMAND";
  echo ("[entrypoint] Starting command in tmux session: " +:+ command);;
  prompt ← getv_or "CLAUDE_PROMPT" EmptyString;
  setv "CLAUDE_PROMPT" prompt;;
  sh (MkdirP "/tmp/tmux");;
  sh WriteTmuxConf;;
  default_to "TERM" "xterm-256color";;
  default_to "TMUX_SESSION" "job";;
  default_to "TMUX_SOCKET" "/tmp/tmux/tmux.sock";;
  default_to "TTYD_PORT" "7681";;
  default_to "EXIT_ON_JOB" "true";;
  session ← getv "TMUX_SESSION";
  socket ← getv "TMUX_SOCKET";
  port ← getv "TTYD_PORT";
  setv "exit_file" ("/tmp/" +:+ session +:+ "_exit_code");;
  exit_file ← getv "exit_file";
  echo ("[entrypoint] Creating tmux session '" +:+ session +:+ "'...");;
  sh (TmuxNewSession socket session (job_script command exit_file));;
  echo ("[entrypoint] Command started in tmux session '" +:+ session +:+ "'");;
  background (LogPump socket session);;
  echo ("[entrypoint] Launching ttyd on port " +:+ port +:+ "...");;
  echo "[entrypoint] Connect via browser to see live terminal output";;
  background (Ttyd port socket session).

(** [wait "$ttyd_pid"]: blocks until ttyd ends, and has its status. *)
Definition wait_ttyd : Sh N :=
  match ttyd_exit w with
  | None => block
  | Some st => λ s, (Ret st, emit (Ran WaitTtyd st) s)
  end.

(** Lines 191-193: [has-session] succeeds [n] times, then the session is
    gone. *)
Fixpoint monitor (socket session : string) (n : nat) : Sh unit :=
  match n with
  | O => λ s, (Ret (), emit (Ran (TmuxHasSession socket session) 1) s)
  | S k =>
      (λ s, (Ret (), emit (Ran (TmuxHasSession socket session) 0) s));;
      sh (Sleep 2);;
      monitor socket session k
  end.

(** Lines 198-202: [job_code] is what [$(cat "$exit_file" || echo 1)]
    captures. *)
Definition collect_job_code (exit_file_path : string) : Sh string :=
  match exit_file w with
  | Absent => ret "0"
  | Unreadable =>
      (λ s, (Ret (), emit (Ran (CatExitFile exit_file_path) 1) s));;
      echo "[entrypoint] Job exited with code: 1";;
      ret "1"
  | Holds content =>
      (λ s, (Ret (), emit (Ran (CatExitFile exit_file_path) 0) s));;
      echo ("[entrypoint] Job exited with code: " +:+ captured content);;
      ret (captured content)
  end.

(** Line 209, [exit "$job_code"], in bash 5: the status is the low eight
    bits of the number; an argument that is not a number is an error of
    [exit] itself, status 2; and after [--] there is no argument, so the
    status is that of the last command, the [echo] of line 208. *)
Definition exit_status (arg : string) : N :=
  if bool_decide (arg = "--") then 0%N
  else
    match legal_number arg with
    | Some z => Z.to_N (z mod 256)
    | None => 2%N
    end.

(** Lines 183-209. *)
Definition supervise : Sh unit :=
  exit_on_job ← getv "EXIT_ON_JOB";
  socket ← getv "TMUX_SOCKET";
  session ← getv "TMUX_SESSION";
  exit_file_path ← getv "exit_file";
  when (bool_decide (exit_on_job = "false"))
    (echo "[entrypoint] EXIT_ON_JOB=false, keeping container alive";;
     st ← wait_ttyd;
     when (negb (ok st)) (exit st);;
     exit 0);;
  match job_polls w with
  | None => block
  | Some n => monitor socket session n
  end;;
  echo "[entrypoint] Command finished, shutting down...";;
  job_code ← collect_job_code exit_file_path;
  try KillTtyd;;
  wait_ttyd;;
  echo ("[entrypoint] Container exiting with code: " +:+ job_code);;
  exit (exit_status job_code).

(** The whole script. *)
Definition entrypoint : Sh unit :=
  check_inputs;;
  fetch_code;;
  verify_checksum;;
  extract_archives;;
  install;;
  launch;;
  supervise.

(** A run of the container: the environment the orchestrator injects,
    the files already in [/work]. *)
Definition start (env : gmap string string) : shell :=
  {| vars := env; files := initial_files w; cwd := "/"; trace := [] |}.

Definition run (env : gmap string string) : res unit * shell :=
  entrypoint (start env).

End Script.

(** *** The vocabulary of the statements about the script *)

(** A world in the C locale, in which every command succeeds, the job
    ends after one poll having recorded status 3, and ttyd ends
    cleanly. *)
Definition calm : world :=
  {| locale := Bytes;
     status := λ _, 0%N;
     mktemp_dir := "/tmp/tmp.a1";
     find_first := λ dir name, dir +:+ "/repo/" +:+ name;
     initial_files := ∅;
     src_listing := [];
     job_polls := Some 1;
     exit_file := Holds ("3" +:+ nl);
     ttyd_exit := Some 0%N |}.

(** [n] copies of a character. *)
Fixpoint chars (n : nat) (a : ascii) : string :=
  match n with
  | O => EmptyString
  | S k => String a (chars k a)
  end.

(** [n] copies of a string. *)
Fixpoint copies (n : nat) (s : string) : string :=
  match n with
  | O => EmptyString
  | S k => s +:+ copies k s
  end.

(** The letter e with an acute accent in UTF-8: the two bytes C3 A9. *)
Definition e_acute : string := String "195"%char (String "169"%char EmptyString).

(** [calm] in a UTF-8 locale, as under [LC_ALL=C.UTF-8]. *)
Definition calm_utf8 : world :=
  {| locale := Utf8;
     status := status calm;
     mktemp_dir := mktemp_dir calm;
     find_first := find_first calm;
     initial_files := initial_files calm;
     src_listing := src_listing calm;
     job_polls := job_polls calm;
     exit_file := exit_file calm;
     ttyd_exit := ttyd_exit calm |}.

(** A command that is not the checksum verification. *)
Definition is_sha (c : cmd) : bool :=
  match c with Sha256sum _ _ => true | _ => false end.

Definition plain (e : event) : Prop :=
  match e with Ran c _ => is_sha c = false | _ => True end.

Definition only_echo (e : event) : Prop :=
  match e with Echo _ => True | _ => False end.

(** [preserves I m]: running [m] keeps [I], however [m] ends. *)
Definition preserves {A} (I : shell → Prop) (m : Sh A) : Prop :=
  ∀ s, I s → I (m s).2.

(** An invariant of the shell state that the script cannot break: it
    survives the logging of every event in [okev] (which holds at least
    the events that are not a checksum verification), a change of
    directory, an assignment to any variable but [CODE_URL], and a
    successful download. *)
Class Stable (I : shell → Prop) (okev : event → Prop) : Prop := {
  stable_log : ∀ e s, okev e → I s → I (emit e s);
  stable_cwd : ∀ d s, I s → I (set_cwd d s);
  stable_setv : ∀ n v s, n ≠ "CODE_URL" → I s → I (set_vars (insert n v) s);
  stable_download :
    ∀ url out s,
      I s → I (set_files (union {[out]}) (emit (Ran (Curl url out) 0) s));
  stable_plain : ∀ e, plain e → okev e
}.

(** What [validate_command] reports on a value, if anything. *)
Definition fault_of (cs : charset) (cmd : string) : option string :=
  if dangerous cmd then Some dangerous_msg
  else if bool_decide (500 < char_length cs cmd)%nat then Some too_long_msg
  else None.

(** What lines 23-28 report on a variable: nothing when it is unset or
    empty. *)
Definition fault (cs : charset) (v : option string) : option string :=
  match v with
  | Some cmd => if bool_decide (cmd = EmptyString) then None else fault_of cs cmd
  | None => None
  end.

Definition url_line (url : string) : event := Echo ("[entrypoint] CODE_URL=" +:+ url).

Definition validation_fatal (msg : string) : Prop :=
  msg = dangerous_msg ∨ msg = too_long_msg.

(** The patterns of the [case] that name a shape. *)
Definition recognised (url : string) : bool :=
  github_tree url || glob "*.zip" url || glob "*.tgz" url ||
  glob "*.tar.gz" url || glob "*.git" url || glob "*.git*" url.

(** A download of any kind. *)
Definition is_download (e : event) : bool :=
  match e with
  | Ran (Curl _ _) _ | Ran (CurlTar _ _) _ | Ran (GitClone _ _) _ => true
  | _ => false
  end.

Definition unknown_msg : string := "[warning] Unknown file extension, assuming zip".

(** *** The checksum verification *)

Definition checksum_var : string := "CODE_CHECKSUM_SHA256".

Definition cleared (s : shell) : Prop := vars s !! checksum_var = Some EmptyString.

(** [ensures Q m]: when [m] runs to its end, [Q] holds. *)
Definition ensures {A} (Q : shell → Prop) (m : Sh A) : Prop :=
  ∀ s a s', m s = (Ret a, s') → Q s'.

(** A checksum verification of one of the two bundle files. *)
Definition on_bundle (e : event) : Prop :=
  match e with
  | Ran (Sha256sum _ f) _ => f = "bundle.zip" ∨ f = "bundle.tgz"
  | _ => True
  end.

(** Every checksum verification in the trace comes after a successful
    download, by curl, of the file it verifies; and so does every bundle
    file in [/work]. *)
Definition downloaded_before (t : list event) (i : nat) (f : string) : Prop :=
  ∃ j url, j < i ∧ t !! j = Some (Ran (Curl url f) 0).

Definition verified_after_download (s : shell) : Prop :=
  (∀ f, f ∈ files s → f = "bundle.zip" ∨ f = "bundle.tgz" →
        downloaded_before (trace s) (length (trace s)) f) ∧
  (∀ i sum f st, trace s !! i = Some (Ran (Sha256sum sum f) st) →
                 downloaded_before (trace s) i f).

(** The status that [exit "$job_code"] ends the script with. *)
Definition job_status (w : world) : N :=
  match exit_file w with
  | Absent => 0%N
  | Unreadable => 1%N
  | Holds content => exit_status (captured content)
  end.

(** A world like [calm], in which ttyd is killed (status 137). *)
Definition ttyd_killed : world :=
  {| locale := locale calm;
     status := status calm;
     mktemp_dir := mktemp_dir calm;
     find_first := find_first calm;
     initial_files := initial_files calm;
     src_listing := src_listing calm;
     job_polls := job_polls calm;
     exit_file := exit_file calm;
     ttyd_exit := Some 137%N |}.

End Runner.

(** ** The controller's database handle: [controller/src/db.ts]

    The module comes after the test setup in
    [controller/src/tests/setup.ts]; the line numbers are those of that
    file. *)

Module Db.

Inductive level := Debug | Info | Error.

(** What [await db.raw(sql)] gives: a result with its rows, or a rejection. *)
Inductive raw_result :=
| Rows (rows : list (list (string * Z)))
| Rejects (err : string).

(** What awaiting an [async] function gives. *)
Inductive settled := Resolved | Rejected.

(** The module's two flags, and what the module does to the outside: the
    timers it has set and that have not fired yet, the calls of
    [db.destroy()], whether a signal handler is waiting for the promise
    of [db.destroy()], the statements sent through [db.raw], the log,
    and the status the process has ended with. *)
Record state := {
  isPoolHealthy : bool;
  isPoolClosed : bool;
  timers : nat;
  destroy_calls : nat;
  awaited : bool;
  queries : list string;
  logged : list (level * string);
  exited : option Z
}.

(** Lines 194-195. *)
Definition init : state :=
  {| isPoolHealthy := true; isPoolClosed := false; timers := 0;
     destroy_calls := 0; awaited := false; queries := []; logged := [];
     exited := None |}.

Definition set_healthy (b : bool) (s : state) : state :=
  {| isPoolHealthy := b; isPoolClosed := isPoolClosed s; timers := timers s;
     destroy_calls := destroy_calls s; awaited := awaited s;
     queries := queries s; logged := logged s; exited := exited s |}.

Definition set_closed (b : bool) (s : state) : state :=
  {| isPoolHealthy := isPoolHealthy s; isPoolClosed := b; timers := timers s;
     destroy_calls := destroy_calls s; awaited := awaited s;
     queries := queries s; logged := logged s; exited := exited s |}.

Definition set_timers (n : nat) (s : state) : state :=
  {| isPoolHealthy := isPoolHealthy s; isPoolClosed := isPoolClosed s;
     timers := n; destroy_calls := destroy_calls s; awaited := awaited s;
     queries := queries s; logged := logged s; exited := exited s |}.

Definition set_awaited (b : bool) (s : state) : state :=
  {| isPoolHealthy := isPoolHealthy s; isPoolClosed := isPoolClosed s;
     timers := timers s; destroy_calls := destroy_calls s; awaited := b;
     queries := queries s; logged := logged s; exited := exited s |}.

Definition destroy (s : state) : state :=
  {| isPoolHealthy := isPoolHealthy s; isPoolClosed := isPoolClosed s;
     timers := timers s; destroy_calls := S (destroy_calls s);
     awaited := awaited s; queries := queries s; logged := logged s;
     exited := exited s |}.

Definition sent (sql : string) (s : state) : state :=
  {| isPoolHealthy := isPoolHealthy s; isPoolClosed := isPoolClosed s;
     timers := timers s; destroy_calls := destroy_calls s;
     awaited := awaited s; queries := queries s ++ [sql];
     logged := logged s; exited := exited s |}.

Definition log (l : level) (msg : string) (s : state) : state :=
  {| isPoolHealthy := isPoolHealthy s; isPoolClosed := isPoolClosed s;
     timers := timers s; destroy_calls := destroy_calls s;
     awaited := awaited s; queries := queries s;
     logged := logged s ++ [(l, msg)]; exited := exited s |}.

Definition process_exit (code : Z) (s : state) : state :=
  {| isPoolHealthy := isPoolHealthy s; isPoolClosed := isPoolClosed s;
     timers := timers s; destroy_calls := destroy_calls s;
     awaited := awaited s; queries := queries s; logged := logged s;
     exited := Some code |}.

(** Lines 200-203: [pool.on('createSuccess', ...)]. *)
Definition on_createSuccess (s : state) : state :=
  set_healthy true (log Debug "New database client connected" s).

(** Lines 205-213: [pool.on('createFail', ...)]; the flag is cleared and a
    timer of 5000 ms is set. *)
Definition on_createFail (s : state) : state :=
  set_timers (S (timers s))
    (set_healthy false
       (log Error "Database pool connection failed - attempting recovery" s)).

(** Lines 210-212: the callback of the timer. *)
Definition on_timeout (s : state) : state :=
  match timers s with
  | O => s
  | S n => set_healthy true (set_timers n s)
  end.

(** Lines 215-217. *)
Definition on_destroySuccess (s : state) : state :=
  log Debug "Database client removed from pool" s.

(** Lines 220-232. [raw] is the database behind the pool. *)
Definition checkDatabaseHealth (raw : string → raw_result) (s : state) : bool * state :=
  if negb (isPoolHealthy s) then (false, s)
  else
    match raw "SELECT 1" with
    | Rows rows => (bool_decide (length rows = 1), sent "SELECT 1" s)
    | Rejects err =>
        (false, log Error "Database health check failed" (sent "SELECT 1" s))
    end.

(** Lines 235-244. [destroy_ok] tells whether the promise of
    [db.destroy()] resolves. The flag is set before the call, in the same
    turn of the event loop as the test of the flag. *)
Definition closeDatabasePool (destroy_ok : bool) (s : state) : settled * state :=
  if isPoolClosed s then
    (Resolved, log Debug "Database pool already closed, skipping" s)
  else
    (if destroy_ok then Resolved else Rejected,
     destroy (log Info "Closing database pool" (set_closed true s))).

(** A rejected promise that nothing handles: Node, from version 15 on,
    ends the process with status 1.  The module installs no handler of
    [unhandledRejection] or [uncaughtException]. *)
Definition unhandled_rejection (s : state) : state :=
  {| isPoolHealthy := isPoolHealthy s; isPoolClosed := isPoolClosed s;
     timers := timers s; destroy_calls := destroy_calls s;
     awaited := awaited s; queries := queries s; logged := logged s;
     exited := Some 1%Z |}.

(** Lines 247-257: the handlers of SIGTERM and SIGINT, up to their
    [await].  When the pool is closed already, [closeDatabasePool]
    returns at once and the handler goes on to [process.exit(0)] in the
    same turn; otherwise it has called [db.destroy()], and the handler
    waits for that promise while the event loop goes on. *)
Definition on_signal (name : string) (s : state) : state :=
  let s1 := log Info (name +:+ " received, closing database pool") s in
  if isPoolClosed s1 then
    process_exit 0 (log Debug "Database pool already closed, skipping" s1)
  else
    set_awaited true
      (destroy (log Info "Closing database pool" (set_closed true s1))).

(** The promise of [db.destroy()] settles while a signal handler waits
    for it.  Resolved, the handler reaches [process.exit(0)]; rejected,
    [closeDatabasePool] rejects, the [async] handler has no [try], its
    promise rejects, and nothing handles the rejection. *)
Definition on_settled (destroy_ok : bool) (s : state) : state :=
  if awaited s then
    if destroy_ok then process_exit 0 (set_awaited false s)
    else unhandled_rejection (set_awaited false s)
  else s.

(** What can happen to the module, one turn of the event loop each.
    [Close] is a call of [closeDatabasePool] by the application, with
    its [await]; [Settled] is the end of the [db.destroy()] that a
    signal handler has started. *)
Inductive action :=
| CreateSuccess
| CreateFail
| Timeout
| DestroySuccess
| CheckHealth (raw : string → raw_result)
| Close (destroy_ok : bool)
| Sigterm
| Sigint
| Settled (destroy_ok : bool).

(** A process that has exited does nothing more. *)
Definition step (s : state) (a : action) : state :=
  match exited s with
  | Some _ => s
  | None =>
      match a with
      | CreateSuccess => on_createSuccess s
      | CreateFail => on_createFail s
      | Timeout => on_timeout s
      | DestroySuccess => on_destroySuccess s
      | CheckHealth raw => (checkDatabaseHealth raw s).2
      | Close d => (closeDatabasePool d s).2
      | Sigterm => on_signal "SIGTERM" s
      | Sigint => on_signal "SIGINT" s
      | Settled d => on_settled d s
      end
  end.

Definition process (acts : list action) (s : state) : state := foldl step s acts.

(** The signals among the actions. *)
Definition is_signal (a : action) : bool :=
  match a with
  | Sigterm | Sigint => true
  | _ => false
  end.

(** A database that answers [SELECT 1] with its one row. *)
Definition answering : string → raw_result :=
  λ sql, Rows [[("?column?", 1%Z)]].

(** *** The shutdown of the pool *)

(** [db.destroy()] has been called once if the flag is set, and not at
    all otherwise. *)
Definition guarded (s : state) : Prop :=
  destroy_calls s = if isPoolClosed s then 1 else 0.

End Db.

(** ** The Store: the migrations of [controller/src/migrations]

    The two migrations declare the tables; what a declaration means when
    rows are written is the business of the SQL engine (PostgreSQL), whose
    handling of [PRIMARY KEY], [UNIQUE], [NOT NULL] and [DEFAULT] is
    modelled here on the statements the controller sends through Knex. *)

Module Store.

(** A value of a column. Timestamps are instants on the clock of the
    database, whatever the unit. *)
Inductive value :=
| VNull
| VText (s : string)
| VTime (t : Z).

#[global] Instance value_eq_dec : EqDecision value.
Proof. solve_decision. Defined.

Inductive sqltype := TText | TTimestamptz.

(** [defaultTo(...)]: the two defaults the migrations use. *)
Inductive default_expr :=
| NoDefault
| UuidGenerateV4        (* knex.raw('uuid_generate_v4()') *)
| FnNow.                (* knex.fn.now() *)

Record column := {
  col_name : string;
  col_type : sqltype;
  col_primary : bool;
  col_not_null : bool;
  col_unique : bool;
  col_default : default_expr
}.

(** The column builders of Knex, as the migrations chain them. *)
Definition text (name : string) : column :=
  {| col_name := name; col_type := TText; col_primary := false;
     col_not_null := false; col_unique := false; col_default := NoDefault |}.

Definition timestamp (name : string) : column :=
  {| col_name := name; col_type := TTimestamptz; col_primary := false;
     col_not_null := false; col_unique := false; col_default := NoDefault |}.

Definition primary (c : column) : column :=
  {| col_name := col_name c; col_type := col_type c; col_primary := true;
     col_not_null := col_not_null c; col_unique := col_unique c;
     col_default := col_default c |}.

Definition notNullable (c : column) : column :=
  {| col_name := col_name c; col_type := col_type c;
     col_primary := col_primary c; col_not_null := true;
     col_unique := col_unique c; col_default := col_default c |}.

Definition unique (c : column) : column :=
  {| col_name := col_name c; col_type := col_type c;
     col_primary := col_primary c; col_not_null := col_not_null c;
     col_unique := true; col_default := col_default c |}.

Definition defaultTo (d : default_expr) (c : column) : column :=
  {| col_name := col_name c; col_type := col_type c;
     col_primary := col_primary c; col_not_null := col_not_null c;
     col_unique := col_unique c; col_default := d |}.

Record table_def := {
  tbl_name : string;
  tbl_columns : list column;
  tbl_indexes : list (string * string)      (* column, name of the index *)
}.

(** [20250126000001_create_sessions_table.ts], [up]. *)
Definition sessions : table_def :=
  {| tbl_name := "sessions";
     tbl_columns :=
       [ defaultTo UuidGenerateV4 (primary (text "session_id"));
         notNullable (text "owner_user_id");
         unique (notNullable (text "job_name"));
         text "pod_name";
         text "pod_ip";
         defaultTo FnNow (timestamp "created_at");
         notNullable (timestamp "expires_at") ];
     tbl_indexes :=
       [ ("owner_user_id", "idx_sessions_owner");
         ("expires_at", "idx_sessions_expires") ] |}.

(** [20250126000002_create_token_jti_table.ts], [up]. *)
Definition token_jti : table_def :=
  {| tbl_name := "token_jti";
     tbl_columns :=
       [ primary (text "jti");
         notNullable (text "session_id");
         notNullable (timestamp "expires_at") ];
     tbl_indexes := [ ("expires_at", "idx_jti_expires") ] |}.

(** A stored row, and the object given to [insert] or [update]: column
    name to value. A column that is absent from a stored row is NULL. *)
Abbreviation row := (gmap string value).

Definition get (r : row) (c : string) : value := default VNull (r !! c).

Record table := { def : table_def; rows : list row }.

(** The database: the tables that exist, by name. *)
Abbreviation database := (gmap string table).

Inductive error :=
| DuplicateTable (name : string)
| UndefinedTable (name : string)
| UndefinedColumn
| DatatypeMismatch (col : string)
| NotNullViolation (col : string)
| UniqueViolation (col : string).

Inductive result (A : Type) :=
| Ok (a : A)
| Err (e : error).
Arguments Ok {A} a.
Arguments Err {A} e.

(** [knex.schema.createTable] and [knex.schema.dropTableIfExists]. *)
Definition createTable (d : table_def) (db : database) : result database :=
  match db !! tbl_name d with
  | Some _ => Err (DuplicateTable (tbl_name d))
  | None => Ok (<[tbl_name d := {| def := d; rows := [] |}]> db)
  end.

Definition dropTableIfExists (name : string) (db : database) : database :=
  delete name db.

(** The migrations, and the database after [migrate:latest] on an empty
    one. *)
Module create_sessions_table.
Definition up : database → result database := createTable sessions.
Definition down : database → database := dropTableIfExists "sessions".
End create_sessions_table.

Module create_token_jti_table.
Definition up : database → result database := createTable token_jti.
Definition down : database → database := dropTableIfExists "token_jti".
End create_token_jti_table.

Definition latest (db : database) : result database :=
  match create_sessions_table.up db with
  | Ok db' => create_token_jti_table.up db'
  | Err e => Err e
  end.

Definition migrated : database :=
  <["token_jti" := {| def := token_jti; rows := [] |}]>
    (<["sessions" := {| def := sessions; rows := [] |}]> ∅).

(** What a statement sees of its surroundings: the clock of the database
    and the value [uuid_generate_v4()] draws. *)
Record context := { now : Z; uuid : string }.

Definition default_value (ctx : context) (d : default_expr) : value :=
  match d with
  | NoDefault => VNull
  | UuidGenerateV4 => VText (uuid ctx)
  | FnNow => VTime (now ctx)
  end.

(** The value an [INSERT] stores in a column: the one supplied (an
    explicit NULL included), else the default. *)
Definition cell (ctx : context) (data : row) (c : column) : value :=
  match data !! col_name c with
  | Some v => v
  | None => default_value ctx (col_default c)
  end.

Definition fill (ctx : context) (cols : list column) (data : row) : row :=
  list_to_map ((λ c, (col_name c, cell ctx data c)) <$> cols).

Definition known (cols : list column) (data : row) : bool :=
  forallb (λ kv, bool_decide (kv.1 ∈ col_name <$> cols)) (map_to_list data).

Definition well_typed (c : column) (r : row) : bool :=
  match get r (col_name c), col_type c with
  | VNull, _ | VText _, TText | VTime _, TTimestamptz => true
  | _, _ => false
  end.

(** [PRIMARY KEY] is [UNIQUE] and [NOT NULL]. *)
Definition keyed (c : column) : bool := col_primary c || col_unique c.
Definition required (c : column) : bool := col_primary c || col_not_null c.

Definition is_null (c : column) (r : row) : bool :=
  bool_decide (get r (col_name c) = VNull).

(** A unique index refuses a value that a stored row already has; NULL
    never clashes. *)
Definition clash (c : column) (r : row) (stored : list row) : bool :=
  negb (is_null c r) &&
  bool_decide (get r (col_name c) ∈ (λ r', get r' (col_name c)) <$> stored).

(** [INSERT INTO t (...) VALUES (...)], as [db(t).insert(data)] sends
    it: no [ON CONFLICT] clause. *)
Definition insert_row (ctx : context) (d : table_def) (stored : list row)
    (data : row) : result (list row) :=
  let cols := tbl_columns d in
  if negb (known cols data) then Err UndefinedColumn
  else
    let r := fill ctx cols data in
    match find (λ c, negb (well_typed c r)) cols with
    | Some c => Err (DatatypeMismatch (col_name c))
    | None =>
        match find (λ c, required c && is_null c r) cols with
        | Some c => Err (NotNullViolation (col_name c))
        | None =>
            match find (λ c, keyed c && clash c r stored) cols with
            | Some c => Err (UniqueViolation (col_name c))
            | None => Ok (stored ++ [r])
            end
        end
    end.

Definition insert (ctx : context) (name : string) (data : row)
    (db : database) : result database :=
  match db !! name with
  | None => Err (UndefinedTable name)
  | Some t =>
      match insert_row ctx (def t) (rows t) data with
      | Ok rows' => Ok (<[name := {| def := def t; rows := rows' |}]> db)
      | Err e => Err e
      end
  end.

(** [DELETE FROM t WHERE cond]. *)
Definition delete_where (name : string) (cond : row → bool)
    (db : database) : result database :=
  match db !! name with
  | None => Err (UndefinedTable name)
  | Some t =>
      Ok (<[name := {| def := def t;
                       rows := filter (λ r, cond r = false) (rows t) |}]> db)
  end.

(** The values of a key column that take part in uniqueness. *)
Definition keys (c : column) (stored : list row) : list value :=
  filter (λ v, v ≠ VNull) ((λ r, get r (col_name c)) <$> stored).

(** [UPDATE t SET changes WHERE cond]: the statement fails, and changes
    nothing, when the table it would leave breaks a constraint. *)
Definition update_rows (d : table_def) (stored : list row) (cond : row → bool)
    (changes : row) : result (list row) :=
  let cols := tbl_columns d in
  if negb (known cols changes) then Err UndefinedColumn
  else
    let rows' := (λ r, if cond r then changes ∪ r else r) <$> stored in
    match find (λ c, negb (forallb (well_typed c) rows')) cols with
    | Some c => Err (DatatypeMismatch (col_name c))
    | None =>
        match find (λ c, required c && existsb (is_null c) rows') cols with
        | Some c => Err (NotNullViolation (col_name c))
        | None =>
            match find (λ c, keyed c && negb (bool_decide (NoDup (keys c rows'))))
                    cols with
            | Some c => Err (UniqueViolation (col_name c))
            | None => Ok rows'
            end
        end
    end.

Definition update_where (name : string) (cond : row → bool) (changes : row)
    (db : database) : result database :=
  match db !! name with
  | None => Err (UndefinedTable name)
  | Some t =>
      match update_rows (def t) (rows t) cond changes with
      | Ok rows' => Ok (<[name := {| def := def t; rows := rows' |}]> db)
      | Err e => Err e
      end
  end.

(** The statements the services send. *)
Inductive statement :=
| Insert (name : string) (data : row)
| Delete (name : string) (cond : row → bool)
| Update (name : string) (cond : row → bool) (changes : row).

Definition exec (ctx : context) (st : statement) (db : database) : result database :=
  match st with
  | Insert name data => insert ctx name data db
  | Delete name cond => delete_where name cond db
  | Update name cond changes => update_where name cond changes db
  end.

(** The databases that the statements can produce from the migrated,
    empty one. *)
Inductive reachable : database → Prop :=
| reachable_migrated : reachable migrated
| reachable_exec ctx st db db' :
    reachable db → exec ctx st db = Ok db' → reachable db'.

(** *** What the constraints give *)

(** A table whose rows obey the [NOT NULL] and the uniqueness constraints
    of its definition. *)
Definition consistent (t : table) : Prop :=
  ∀ c, c ∈ tbl_columns (def t) →
    (required c = true →
       Forall (λ r, get r (col_name c) ≠ VNull) (rows t)) ∧
    (keyed c = true → NoDup (keys c (rows t))).

(** The statements leave the catalogue alone and every table consistent. *)
Definition sound (db : database) : Prop :=
  (∀ name, def <$> db !! name = def <$> migrated !! name) ∧
  (∀ name t, db !! name = Some t → consistent t).

(** A clock and a draw of [uuid_generate_v4()], for the examples. *)
Definition noon : context := {| now := 1000; uuid := "6f1c0c1e" |}.

(** A token record, and the database that holds it. *)
Definition token : row :=
  <["jti" := VText "jti-1"]>
    (<["session_id" := VText "abc-123"]> (<["expires_at" := VTime 1300]> ∅)).

Definition with_token : database :=
  <["token_jti" :=
      {| def := token_jti; rows := [fill noon (tbl_columns token_jti) token] |}]>
    migrated.

(** The session of the example in the migration guide, written at
    [noon]: [expires_at: new Date()]. *)
Definition session : row :=
  <["session_id" := VText "abc-123"]>
    (<["owner_user_id" := VText "user-456"]>
       (<["job_name" := VText "job-789"]> (<["expires_at" := VTime 1000]> ∅))).

Definition with_session : database :=
  <["sessions" :=
      {| def := sessions; rows := [fill noon (tbl_columns sessions) session] |}]>
    migrated.

(** *** [expires_at] and [created_at] *)

(** [expires_at > created_at], on a stored row. *)
Definition expires_after_created (r : row) : bool :=
  match get r "created_at", get r "expires_at" with
  | VTime c, VTime e => bool_decide (c < e)%Z
  | _, _ => false
  end.

(** The writes of a controller that leaves [created_at] to the database
    and sets [expires_at] later than the time of the insert (now plus a
    positive TTL), that deletes as it likes, and that updates neither of
    the two columns. *)
Inductive ttl_write (ctx : context) : statement → Prop :=
| ttl_insert_session data e :
    data !! "created_at" = None →
    data !! "expires_at" = Some (VTime e) →
    (now ctx < e)%Z →
    ttl_write ctx (Insert "sessions" data)
| ttl_insert_other name data :
    name ≠ "sessions" → ttl_write ctx (Insert name data)
| ttl_delete name cond :
    ttl_write ctx (Delete name cond)
| ttl_update name cond changes :
    changes !! "created_at" = None →
    changes !! "expires_at" = None →
    ttl_write ctx (Update name cond changes).

Inductive written_with_ttl : database → Prop :=
| written_migrated : written_with_ttl migrated
| written_exec ctx st db db' :
    written_with_ttl db → ttl_write ctx st → exec ctx st db = Ok db' →
    written_with_ttl db'.

Definition sessions_expire_later (db : database) : Prop :=
  ∀ t, db !! "sessions" = Some t →
       Forall (λ r, expires_after_created r = true) (rows t).

(** A session written at [noon] with a TTL of 600. *)
Definition session_ttl : row :=
  <["owner_user_id" := VText "user-456"]>
    (<["job_name" := VText "job-789"]> (<["expires_at" := VTime 1600]> ∅)).

Definition with_session_ttl : database :=
  <["sessions" :=
      {| def := sessions;
         rows := [fill noon (tbl_columns sessions) session_ttl] |}]>
    migrated.

End Store.

(** ** The order of a run of the worker, and what its commands are given

    The script goes through stages; which events may follow which is
    written down as a small automaton over the trace, with the exit
    status each way of stopping goes with. *)

Module Protocol.
Import Str Runner.

(** Where a run is. *)
Inductive stage :=
| Prep                      (* nothing verified, nothing installed *)
| Checked (file : string)   (* the check of lines 96-98 for [file] has returned 0 *)
| Installed                 (* the install has succeeded *)
| Started                   (* the tmux session of the job exists *)
| Serving                   (* ttyd has been started *)
| Failing (code : N)        (* a failure that the script reports before it exits *)
| Dead (code : N).          (* a failure that [set -e] ends the script on *)

#[global] Instance stage_eq_dec : EqDecision stage.
Proof. solve_decision. Defined.

(** The exit status that goes with a line the script prints before it
    gives up: lines 5, 12 and 17, 56-82 and 103, 125. *)
Definition fatal_code (line : string) : option N :=
  if has_prefix "[fatal] CODE_URL is required" line then Some 2%N
  else if has_prefix "[fatal] Command " line then Some 1%N
  else if has_prefix "[fatal] Install command failed" line then Some 4%N
  else if has_prefix "[fatal] " line || bool_decide (line = "unzip failed")
  then Some 3%N
  else None.

(** The commands that stand on a line of their own wherever the script
    runs them, so that [set -e] ends the script when they fail. *)
Definition set_e (c : cmd) : bool :=
  match c with
  | Cd _ | MkdirP _ | Mktemp | FindHead _ _ | RmRf _ | LsLa _ | Curl _ _
  | GitClone _ _ | Sha256sum _ _ | TarPlain _ _ | WriteTmuxConf
  | TmuxNewSession _ _ _ | Sleep _ => true
  | _ => false
  end.

(** The commands that unpack a bundle, with the bundle. *)
Definition unpacks (c : cmd) : option string :=
  match c with
  | Unzip file _ | TarStrip file _ | TarPlain file _ => Some file
  | _ => None
  end.

Definition echoed (q : stage) (line : string) : option stage :=
  match fatal_code line with
  | Some _ => None
  | None => Some q
  end.

Definition fails_with (st : N) (q : stage) : stage := if ok st then q else Dead st.

(** One event further; [None]: the event cannot happen at this stage.
    With [strict], a bundle is only unpacked once the check of lines
    96-98 for it has returned 0. *)
Definition advance (strict : bool) (q : stage) (e : event) : option stage :=
  match q with
  | Prep =>
      match e with
      | Echo line =>
          match fatal_code line with
          | Some k => Some (Failing k)
          | None => Some Prep
          end
      | Ran c st =>
          match c with
          | BashC _ => Some (if ok st then Installed else Failing 4)
          | CurlTar _ _ | MvAll _ _ => Some (if ok st then Prep else Failing 3)
          | Unzip _ _ =>
              if strict then None else Some (if ok st then Prep else Failing 3)
          | TarStrip _ _ => if strict then None else Some Prep
          | TarPlain _ _ => if strict then None else Some (fails_with st Prep)
          | Sha256sum _ file => Some (fails_with st (Checked file))
          | Cd _ | MkdirP _ | Mktemp | FindHead _ _ | RmRf _ | LsLa _
          | Curl _ _ | GitClone _ _ => Some (fails_with st Prep)
          | _ => None
          end
      | Background _ => None
      end
  | Checked file =>
      match e with
      | Echo line => echoed q line
      | Ran c st =>
          match c with
          | BashC _ => Some (if ok st then Installed else Failing 4)
          | Unzip f _ =>
              if strict && negb (bool_decide (f = file)) then None
              else Some (if ok st then q else Failing 3)
          | TarStrip f _ =>
              if strict && negb (bool_decide (f = file)) then None else Some q
          | TarPlain f _ =>
              if strict && negb (bool_decide (f = file)) then None
              else Some (fails_with st q)
          | Cd _ | LsLa _ => Some (fails_with st q)
          | _ => None
          end
      | Background _ => None
      end
  | Failing k =>
      match e with
      | Echo line =>
          if bool_decide (fatal_code line = Some k) then Some q else None
      | Ran (RmRf _) st =>
          if bool_decide (k = 3%N) then Some (fails_with st q) else None
      | _ => None
      end
  | Installed =>
      match e with
      | Echo line => echoed q line
      | Ran (MkdirP _) st | Ran WriteTmuxConf st => Some (fails_with st q)
      | Ran (TmuxNewSession _ _ _) st => Some (fails_with st Started)
      | _ => None
      end
  | Started =>
      match e with
      | Echo line => echoed q line
      | Background (LogPump _ _) => Some q
      | Background (Ttyd _ _ _) => Some Serving
      | _ => None
      end
  | Serving =>
      match e with
      | Echo line => echoed q line
      | Ran (TmuxHasSession _ _) _ | Ran (CatExitFile _) _ | Ran KillTtyd _
      | Ran WaitTtyd _ => Some q
      | Ran (Sleep _) st => Some (fails_with st q)
      | _ => None
      end
  | Dead _ => None
  end.

(** The stage a trace leads to. *)
Definition steps (strict : bool) (q : stage) (t : list event) : option stage :=
  foldl (λ oq e, oq ≫= λ q, advance strict q e) (Some q) t.

Definition stage_of (strict : bool) (t : list event) : option stage :=
  steps strict Prep t.

(** [${name:-dflt}] and [${name:=dflt}] on a set of variables. *)
Definition resolve (vars : gmap string string) (name dflt : string) : string :=
  match vars !! name with
  | Some v => if bool_decide (v = EmptyString) then dflt else v
  | None => dflt
  end.

(** What the environment of the container makes of the settings. *)
Definition url_of (env : gmap string string) : string :=
  default EmptyString (env !! "CODE_URL").
Definition checksum_of (env : gmap string string) : string :=
  resolve env "CODE_CHECKSUM_SHA256" EmptyString.
Definition install_of (env : gmap string string) : string :=
  resolve env "INSTALL_CMD" "npm install".
Definition session_of (env : gmap string string) : string :=
  resolve env "TMUX_SESSION" "job".
Definition socket_of (env : gmap string string) : string :=
  resolve env "TMUX_SOCKET" "/tmp/tmux/tmux.sock".
Definition port_of (env : gmap string string) : string :=
  resolve env "TTYD_PORT" "7681".
Definition exit_on_job_of (env : gmap string string) : string :=
  resolve env "EXIT_ON_JOB" "true".
Definition exit_path (env : gmap string string) : string :=
  "/tmp/" +:+ session_of env +:+ "_exit_code".

(** A checksum is asked for, and [/work] holds no bundle before the
    script downloads one. *)
Definition strict (w : world) (env : gmap string string) : bool :=
  negb (bool_decide (checksum_of env = EmptyString)) &&
  bool_decide ("bundle.zip" ∉ initial_files w) &&
  bool_decide ("bundle.tgz" ∉ initial_files w).

(** Lines 43-52: the tarball of a GitHub tree URL, as [GITHUB_REGEX]
    cuts the URL in the locale of the runner. *)
Definition tarball_of (cs : charset) (url : string) : option string :=
  match search cs GITHUB_REGEX url with
  | Some [owner; repo; ref; _] =>
      Some ("https://api.github.com/repos/" +:+ owner +:+ "/" +:+ repo +:+
            "/tarball/" +:+ ref)
  | _ => None
  end.

Definition bundle (file : string) : Prop := file = "bundle.zip" ∨ file = "bundle.tgz".

(** Lines 36-92: the file that the [case] saves the download of a URL
    as, if it saves one; the first pattern that matches decides. *)
Definition bundle_of (url : string) : option string :=
  if github_tree url then None
  else if glob "*.zip" url then Some "bundle.zip"
  else if glob "*.tgz" url || glob "*.tar.gz" url then Some "bundle.tgz"
  else if glob "*.git" url || glob "*.git*" url then None
  else Some "bundle.zip".

(** A bundle in [/work]: it was there before the script started, or it
    is the download of [CODE_URL]. *)
Definition sourced (w : world) (env : gmap string string) (file : string) : Prop :=
  file ∈ initial_files w ∨ bundle_of (url_of env) = Some file.

(** What the commands of a run are given, in terms of the environment
    of the container and of what [mktemp] printed. *)
Definition given (w : world) (env : gmap string string) (e : event) : Prop :=
  match e with
  | Ran (BashC c) _ => c = install_of env ∧ fault_of (locale w) c = None
  | Ran (TmuxNewSession socket session script) _ =>
      socket = socket_of env ∧ session = session_of env ∧
      ∃ command, env !! "COMMAND" = Some command ∧
                 fault (locale w) (Some command) = None ∧
                 script = job_script command (exit_path env)
  | Background (Ttyd port socket session) =>
      port = port_of env ∧ socket = socket_of env ∧ session = session_of env
  | Background (LogPump socket session) | Ran (TmuxHasSession socket session) _ =>
      socket = socket_of env ∧ session = session_of env
  | Ran (CatExitFile file) _ => file = exit_path env
  | Ran (Cd dir) _ =>
      dir = "/work" ∨ dir = "/work/src" ∨ github_tree (url_of env) = false
  | Ran (Curl url out) _ => env !! "CODE_URL" = Some url ∧ bundle_of url = Some out
  | Ran (GitClone url dir) _ =>
      env !! "CODE_URL" = Some url ∧ dir = "src" ∧
      github_tree url = false ∧ bundle_of url = None
  | Ran (CurlTar url dir) _ =>
      tarball_of (locale w) (url_of env) = Some url ∧ dir = mktemp_dir w
  | Ran (FindHead dir _) _ | Ran (RmRf dir) _ => dir = mktemp_dir w
  | Ran (MvAll from to) _ => from ≠ EmptyString ∧ to = "/work/src/"
  | Ran (Sha256sum sum file) _ =>
      env !! "CODE_CHECKSUM_SHA256" = Some sum ∧ sum ≠ EmptyString ∧
      bundle file ∧ sourced w env file
  | Ran (Unzip file dir) _ =>
      file = "bundle.zip" ∧ dir = "src" ∧ sourced w env file
  | Ran (TarStrip file dir) _ | Ran (TarPlain file dir) _ =>
      file = "bundle.tgz" ∧ dir = "src" ∧ sourced w env file
  | Ran (Sleep seconds) st => seconds = 2 ∧ st = status w (Sleep 2)
  | _ => True
  end.

(** How a run that reached ttyd ends (lines 183-209). *)
Definition ending (w : world) (env : gmap string string) : outcome :=
  if bool_decide (exit_on_job_of env = "false") then
    match ttyd_exit w with
    | Some st => Exited st
    | None => Forever
    end
  else
    match job_polls w, ttyd_exit w with
    | Some _, Some _ => Exited (job_status w)
    | _, _ => Forever
    end.

(** How the script may stop at a stage: on an unset variable ([set -u],
    status 1) before the job exists; with the status it announced, or
    the status of the command [set -e] stopped on, after a failure; as
    [ending] says once ttyd runs. *)
Definition verdict (w : world) (env : gmap string string)
    (q : stage) (o : outcome) : Prop :=
  match q with
  | Prep | Checked _ | Installed => o = Exited 1
  | Started => False
  | Serving => o = ending w env
  | Failing k => o = Exited k ∧ k ≠ 0%N
  | Dead st => o = Exited st ∧ st ≠ 0%N
  end.

(** The state of a run at stage [q], all of whose commands so far were
    given what [given] says, with variables and files in [P]. *)
Definition at_stage (w : world) (env : gmap string string) (q : stage)
    (P : gmap string string → gset string → Prop) (s : shell) : Prop :=
  stage_of (strict w env) (trace s) = Some q ∧
  Forall (given w env) (trace s) ∧
  P (vars s) (files s).

(** A run that has stopped as its stage allows. *)
Definition stopped (w : world) (env : gmap string string)
    (o : outcome) (s : shell) : Prop :=
  ∃ q, stage_of (strict w env) (trace s) = Some q ∧ verdict w env q o ∧
       Forall (given w env) (trace s).

(** [triple w env P m Q]: from a state in [P], [m] either returns in [Q]
    or stops as its stage allows. *)
Definition triple {A} (w : world) (env : gmap string string)
    (P : shell → Prop) (m : Sh A) (Q : A → shell → Prop) : Prop :=
  ∀ s, P s →
    match m s with
    | (Ret a, s') => Q a s'
    | (Halt o, s') => stopped w env o s'
    end.

(** The settings the script reads: it assigns none of them before it
    has read it. *)
Definition settings : list string :=
  ["CODE_URL"; "COMMAND"; "INSTALL_CMD"; "TMUX_SESSION"; "TMUX_SOCKET";
   "TTYD_PORT"; "EXIT_ON_JOB"].

Definition untouched (names : list string) (env K : gmap string string) : Prop :=
  Forall (λ n, K !! n = env !! n) names.

(** What is known of the variables and of [/work] between the parts of
    the script: at its start, while and after the code is fetched,
    after the checksum, the extraction, the install and the launch. *)
Definition fresh (w : world) (env K : gmap string string) (F : gset string) : Prop :=
  K = env ∧ F = initial_files w.

Definition fetching (w : world) (env : gmap string string) (folder : string)
    (K : gmap string string) (F : gset string) : Prop :=
  untouched settings env K ∧
  K !! checksum_var = env !! checksum_var ∧
  K !! "FOLDER" = Some folder ∧
  F = initial_files w.

Definition in_folder (env K : gmap string string) : Prop :=
  github_tree (url_of env) = true →
  ∃ folder, K !! "FOLDER" = Some folder ∧ folder ≠ EmptyString.

Definition all_sourced (w : world) (env : gmap string string) (F : gset string) : Prop :=
  ∀ file, file ∈ F → sourced w env file.

Definition fetched (w : world) (env K : gmap string string) (F : gset string) : Prop :=
  untouched settings env K ∧ in_folder env K ∧ all_sourced w env F ∧
  (K !! checksum_var = env !! checksum_var ∨
   (K !! checksum_var = Some EmptyString ∧ F ⊆ initial_files w)).

Definition running (q : stage) : Prop :=
  match q with Failing _ | Dead _ => False | _ => True end.

Definition prepish (q : stage) : Prop :=
  match q with Prep | Checked _ => True | _ => False end.

Definition ready (w : world) (env : gmap string string) (q : stage)
    (F : gset string) : Prop :=
  strict w env = true → ∀ file, bundle file → file ∈ F → q = Checked file.

Definition verified (w : world) (env : gmap string string) (q : stage)
    (K : gmap string string) (F : gset string) : Prop :=
  untouched settings env K ∧ in_folder env K ∧ all_sourced w env F ∧
  ready w env q F.

Definition extracted (env K : gmap string string) (F : gset string) : Prop :=
  untouched settings env K.

Definition installed (env K : gmap string string) (F : gset string) : Prop :=
  untouched ["COMMAND"; "TMUX_SESSION"; "TMUX_SOCKET"; "TTYD_PORT"; "EXIT_ON_JOB"]
    env K.

Definition serving (env K : gmap string string) (F : gset string) : Prop :=
  K !! "EXIT_ON_JOB" = Some (exit_on_job_of env) ∧
  K !! "TMUX_SOCKET" = Some (socket_of env) ∧
  K !! "TMUX_SESSION" = Some (session_of env) ∧
  K !! "exit_file" = Some (exit_path env).

(** The commands whose failure the script goes on after: the first
    attempt of [tar], the polls of the session, the reading of the
    exit file, and the end of ttyd. *)
Definition tolerated (c : cmd) : bool :=
  match c with
  | TarStrip _ _ | TmuxHasSession _ _ | CatExitFile _ | KillTtyd | WaitTtyd => true
  | _ => false
  end.

(** An event of a run that is going well. *)
Definition clean (e : event) : Prop :=
  match e with
  | Echo line => fatal_code line = None
  | Ran c st => st = 0%N ∨ tolerated c = true
  | Background _ => True
  end.

(** What a trace that leads to a stage holds. *)
Definition history (q : stage) (t : list event) : Prop :=
  (running q → Forall clean t) ∧
  match q with
  | Checked file => ∃ j sum, t !! j = Some (Ran (Sha256sum sum file) 0)
  | Installed => ∃ j c, t !! j = Some (Ran (BashC c) 0)
  | Started =>
      (∃ j c, t !! j = Some (Ran (BashC c) 0)) ∧
      ∃ j socket session script,
        t !! j = Some (Ran (TmuxNewSession socket session script) 0)
  | Serving =>
      (∃ j c, t !! j = Some (Ran (BashC c) 0)) ∧
      (∃ j socket session script,
         t !! j = Some (Ran (TmuxNewSession socket session script) 0)) ∧
      ∃ j port socket session, t !! j = Some (Background (Ttyd port socket session))
  | _ => True
  end.

(** An event that neither verifies nor unpacks a bundle. *)
Definition bundle_free (e : event) : Prop :=
  match e with
  | Ran c _ => is_sha c = false ∧ unpacks c = None
  | _ => True
  end.

(** What may follow a line that announces a failure. *)
Definition aftermath (w : world) (e : event) : Prop :=
  match e with
  | Echo _ => True
  | Ran (RmRf dir) _ => dir = mktemp_dir w
  | _ => False
  end.

(** A world like [calm], in which one command exits with [st]. *)
Definition calm_but (c : cmd) (st : N) : world :=
  {| locale := locale calm;
     status := λ c', if decide (c' = c) then st else 0%N;
     mktemp_dir := mktemp_dir calm;
     find_first := find_first calm;
     initial_files := initial_files calm;
     src_listing := src_listing calm;
     job_polls := job_polls calm;
     exit_file := exit_file calm;
     ttyd_exit := ttyd_exit calm |}.

(** A world like [calm], in which [/work] holds a [bundle.zip] before
    the script starts (an empty file, say). *)
Definition stale : world :=
  {| locale := locale calm;
     status := status calm;
     mktemp_dir := mktemp_dir calm;
     find_first := find_first calm;
     initial_files := {["bundle.zip"]};
     src_listing := src_listing calm;
     job_polls := job_polls calm;
     exit_file := exit_file calm;
     ttyd_exit := ttyd_exit calm |}.

(** The SHA-256 of the empty file, and a value of two lines for
    [CODE_CHECKSUM_SHA256]: a line that checks [/dev/null], and the
    start of a second line that is no checksum. *)
Definition sha256_of_empty : string :=
  "e3b0c44298fc1c149afbf4c8996fb92427ae41e4649b934ca495991b7852b855".

Definition two_lines : string :=
  sha256_of_empty +:+ "  /dev/null" +:+ nl +:+ "junk".

(** A download by curl into a file. *)
Definition is_curl (e : event) : bool :=
  match e with Ran (Curl _ _) _ => true | _ => false end.

(** A URL with the euro sign (three bytes in UTF-8) where the dot of
    [github.com] would be, and a second [github.com] further on. *)
Definition euro_url : string :=
  "https://github" +:+
  String "226"%char (String "130"%char (String "172"%char EmptyString)) +:+
  "com/a/b/tree/c/github.com/x/tree/y".

(** Three environments of a container: a zip bundle with a checksum,
    the same kept alive after the job, and a GitHub tree URL. *)
Definition sample_zip : gmap string string :=
  <["CODE_CHECKSUM_SHA256" := "0a1b2c"]>
    (<["COMMAND" := "npm start"]>
       (<["CODE_URL" := "https://example.com/app.zip"]> ∅)).

Definition sample_keep : gmap string string :=
  <["EXIT_ON_JOB" := "false"]> sample_zip.

Definition sample_tree : gmap string string :=
  <["COMMAND" := "npm start"]>
    (<["CODE_URL" := "https://github.com/x/y/tree/main/p"]> ∅).

(** A zip bundle with a well-formed checksum, a GitHub tree URL with a
    checksum, and a git URL with one. *)
Definition sample_sum : gmap string string :=
  <["CODE_CHECKSUM_SHA256" := sha256_of_empty]> sample_zip.

Definition sample_tree_sum : gmap string string :=
  <["CODE_CHECKSUM_SHA256" := "0a1b2c"]> sample_tree.

Definition sample_git : gmap string string :=
  <["CODE_CHECKSUM_SHA256" := sha256_of_empty]>
    (<["COMMAND" := "npm start"]>
       (<["CODE_URL" := "https://github.com/owner/repo.git"]> ∅)).

End Protocol.

(** ** The migrations on a PostgreSQL database with its extensions

    [up] and [down] of the two migrations, with the extension
    [uuid-ossp] that the first one creates and drops.  PostgreSQL drops
    a table or an extension only when nothing else depends on it
    ([RESTRICT] is the default of [DROP]); Knex runs each migration in a
    transaction, so that a migration that fails leaves the database as
    it was. *)

Module Cluster.
Import Store.

(** What a statement of a migration fails with: an error on a table, an
    extension that the server cannot install, or objects that depend on
    what is to be dropped (SQLSTATE 2BP01). *)
Inductive failure :=
| TableError (e : error)
| NotAvailable (extension : string)
| DependentObjects (object : string).

(** A database of the cluster: the extensions installed in it, those the
    server can install, its tables, and, for a table or an extension,
    the other objects of the database that depend on it (views,
    functions, foreign keys, columns of tables of another schema). *)
Record cluster := {
  extensions : gset string;
  available : gset string;
  tables : database;
  dependents : string → gset string
}.

Inductive reply :=
| Done (c : cluster)
| Failed (f : failure).

Definition and_then (o : reply) (f : cluster → reply) : reply :=
  match o with
  | Done c => f c
  | Failed e => Failed e
  end.

Definition with_extensions (E : gset string) (c : cluster) : cluster :=
  {| extensions := E; available := available c; tables := tables c;
     dependents := dependents c |}.

Definition with_tables (db : database) (c : cluster) : cluster :=
  {| extensions := extensions c; available := available c; tables := db;
     dependents := dependents c |}.

(** A table one of whose columns has [uuid_generate_v4()] for its
    default: it depends on the extension that brings the function. *)
Definition uses_uuid (t : table) : bool :=
  existsb (λ col, match col_default col with UuidGenerateV4 => true | _ => false end)
    (tbl_columns (def t)).

(** Something depends on the table or extension [name]. *)
Definition in_use (name : string) (c : cluster) : bool :=
  negb (bool_decide (dependents c name = ∅)) ||
  (bool_decide (name = "uuid-ossp") &&
   bool_decide (map_Exists (λ _ t, uses_uuid t = true) (tables c))).

(** [CREATE EXTENSION IF NOT EXISTS name]. *)
Definition create_extension (name : string) (c : cluster) : reply :=
  if bool_decide (name ∈ extensions c) then Done c
  else if bool_decide (name ∈ available c)
  then Done (with_extensions ({[name]} ∪ extensions c) c)
  else Failed (NotAvailable name).

(** [DROP EXTENSION IF EXISTS name]. *)
Definition drop_extension (name : string) (c : cluster) : reply :=
  if negb (bool_decide (name ∈ extensions c)) then Done c
  else if in_use name c then Failed (DependentObjects name)
  else Done (with_extensions (extensions c ∖ {[name]}) c).

Definition on_tables (f : database → result database) (c : cluster) : reply :=
  match f (tables c) with
  | Ok db => Done (with_tables db c)
  | Err e => Failed (TableError e)
  end.

(** [DROP TABLE IF EXISTS name], as [dropTableIfExists] sends it. *)
Definition drop_table (name : string) (c : cluster) : reply :=
  match tables c !! name with
  | None => Done c
  | Some _ =>
      if bool_decide (dependents c name = ∅)
      then Done (with_tables (dropTableIfExists name (tables c)) c)
      else Failed (DependentObjects name)
  end.

(** [20250126000001_create_sessions_table.ts], lines 3-21 and 23-26. *)
Definition sessions_up (c : cluster) : reply :=
  and_then (create_extension "uuid-ossp" c) (on_tables (createTable sessions)).

Definition sessions_down (c : cluster) : reply :=
  and_then (drop_table "sessions" c) (drop_extension "uuid-ossp").







Definition shared : cluster :=
  {| extensions := {["uuid-ossp"]}; available := {["uuid-ossp"]}; tables := ∅;
     dependents := λ _, ∅ |}.

Definition orders : table_def :=
  {| tbl_name := "orders";
     tbl_columns := [defaultTo UuidGenerateV4 (primary (text "order_id"))];
     tbl_indexes := [] |}.

Definition shared_in_use : cluster :=
  {| extensions := {["uuid-ossp"]}; available := {["uuid-ossp"]};
     tables := <["orders" := {| def := orders; rows := [] |}]> ∅;
     dependents := λ _, ∅ |}.

(** The object given to [insert] for a new session: the three columns
    that have no default and may not be NULL. *)
Definition new_session (owner job : string) (expires : Z) : row :=
  <["owner_user_id" := VText owner]>
    (<["job_name" := VText job]> (<["expires_at" := VTime expires]> ∅)).

(** The row that is stored for it. *)
Definition stored_session (ctx : context) (owner job : string) (expires : Z) : row :=
  <["session_id" := VText (uuid ctx)]>
    (<["owner_user_id" := VText owner]>
       (<["job_name" := VText job]>
          (<["pod_name" := VNull]>
             (<["pod_ip" := VNull]>
                (<["created_at" := VTime (now ctx)]>
                   (<["expires_at" := VTime expires]> ∅)))))).

End Cluster.

(** ** The string constants of the Knex mock: [controller/src/tests/setup.ts]

    The mock builds its SQL by hand; every value of a [where], and every
    string of an [update] or an [insert], goes through
    [replace(/'/g, "''")] between two quotes (lines 60, 73, 80, 94). *)

Module Mock.

Definition quote : ascii := "'"%char.

(** [s.replace(/'/g, "''")]. *)
Fixpoint escape (s : string) : string :=
  match s with
  | EmptyString => EmptyString
  | String a s' =>
      if bool_decide (a = quote) then String quote (String quote (escape s'))
      else String a (escape s')
  end.

(** [`'${s.replace(/'/g, "''")}'`]. *)
Definition literal (s : string) : string :=
  String quote (escape s +:+ String quote EmptyString).

(** [`${k} = '${String(v).replace(/'/g, "''")}'`], lines 59-61. *)
Definition condition (k v : string) : string := k +:+ " = " +:+ literal v.

(** What the SQL engine reads after the opening quote of a string
    constant: two quotes stand for one, one quote ends the constant. The
    result is the value and the text that follows. *)
Fixpoint read_body (s : string) : option (string * string) :=
  match s with
  | EmptyString => None
  | String a s' =>
      if bool_decide (a = quote) then
        match s' with
        | String b s'' =>
            if bool_decide (b = quote) then
              match read_body s'' with
              | Some (v, rest) => Some (String quote v, rest)
              | None => None
              end
            else Some (EmptyString, s')
        | EmptyString => Some (EmptyString, EmptyString)
        end
      else
        match read_body s' with
        | Some (v, rest) => Some (String a v, rest)
        | None => None
        end
  end.

Definition read_literal (s : string) : option (string * string) :=
  match s with
  | String a s' => if bool_decide (a = quote) then read_body s' else None
  | EmptyString => None
  end.

(** The text after a constant does not go on with a quote. *)
Definition closed (rest : string) : Prop :=
  match rest with
  | String a _ => a ≠ quote
  | EmptyString => True
  end.

End Mock.

(** ** The smoke test of the controller: [controller/fast-smoke-test.js]

    The script checks its environment, waits for the database, starts
    the server and runs [runTest] while the handlers of the server's
    output and exit run in between. One [happening] is one turn of the
    event loop. What the script prints is left out, and so is the outer
    handler of [runTest] (lines 259-264), which only runs when a
    statement outside the inner handler throws: the timers, the logging
    and [kill] with a signal that exists do not. *)

Module Smoke.
Import Str.

(** Lines 36-44: the variables that must be set, and not empty. *)
Definition requiredEnvVars : list string :=
  ["DB_HOST"; "DB_PORT"; "DB_NAME"; "DB_USER"; "DB_PASSWORD"; "API_KEY"].

(** [!process.env[v]]: unset or the empty string. *)
Definition falsy (env : gmap string string) (v : string) : bool :=
  match env !! v with
  | Some x => bool_decide (x = EmptyString)
  | None => true
  end.

Definition missingEnvVars (env : gmap string string) : list string :=
  List.filter (falsy env) requiredEnvVars.

(** Lines 56-76: the loop that waits for the database. [probe i] tells
    whether the [i]-th [nc -z] succeeds; the result is [dbReady] and the
    number of probes made. *)
Definition maxWaitTime : N := 30000.
Definition checkInterval : N := 1000.

Fixpoint wait_loop (probe : nat → bool) (rounds i : nat) : bool * nat :=
  match rounds with
  | O => (false, i)
  | S k => if probe i then (true, S i) else wait_loop probe k (S i)
  end.

Definition wait_for_database (probe : nat → bool) : bool * nat :=
  wait_loop probe (N.to_nat (maxWaitTime / checkInterval)) 0.

(** Lines 36-91: what the script has done when it reaches [runTest], if
    it does. *)
Inductive prelude :=
| ExitedEarly (code : Z) (probes : nat)
| Spawned (probes : nat).

Definition start_up (env : gmap string string) (probe : nat → bool) : prelude :=
  match missingEnvVars env with
  | _ :: _ => ExitedEarly 1 0
  | [] =>
      let '(dbReady, probes) := wait_for_database probe in
      if dbReady then Spawned probes else ExitedEarly 1 probes
  end.

Inductive signal := SIGTERM | SIGKILL.

#[global] Instance signal_eq_dec : EqDecision signal.
Proof. solve_decision. Defined.

(** Where [runTest] is: waiting for [STARTUP_TIMEOUT], for the response
    of [/healthz], for its body, for [SHUTDOWN_TIMEOUT], or done. *)
Inductive waiting := Startup | Response | Body | Shutdown | Returned.

(** The two flags of the script, where [runTest] is, the signals sent to
    the server, [serverProcess.killed] and [serverProcess.exitCode], and
    the status given to [process.exit]. *)
Record test := {
  testPassed : bool;
  testFailed : bool;
  awaits : waiting;
  signals : list signal;
  killed : bool;
  exitCode : option (option Z);
  ended : option Z
}.

(** Lines 86-96: the state when [runTest] starts. *)
Definition spawned : test :=
  {| testPassed := false; testFailed := false; awaits := Startup; signals := [];
     killed := false; exitCode := None; ended := None |}.

Definition set_passed (b : bool) (t : test) : test :=
  {| testPassed := b; testFailed := testFailed t; awaits := awaits t;
     signals := signals t; killed := killed t; exitCode := exitCode t;
     ended := ended t |}.

Definition set_failed (b : bool) (t : test) : test :=
  {| testPassed := testPassed t; testFailed := b; awaits := awaits t;
     signals := signals t; killed := killed t; exitCode := exitCode t;
     ended := ended t |}.

Definition set_awaits (a : waiting) (t : test) : test :=
  {| testPassed := testPassed t; testFailed := testFailed t; awaits := a;
     signals := signals t; killed := killed t; exitCode := exitCode t;
     ended := ended t |}.

Definition set_exitCode (c : option Z) (t : test) : test :=
  {| testPassed := testPassed t; testFailed := testFailed t; awaits := awaits t;
     signals := signals t; killed := killed t; exitCode := Some c;
     ended := ended t |}.

Definition exit_with (code : Z) (t : test) : test :=
  {| testPassed := testPassed t; testFailed := testFailed t; awaits := awaits t;
     signals := signals t; killed := killed t; exitCode := exitCode t;
     ended := Some code |}.

(** [serverProcess.kill(sig)]: on a server that runs, the signal is sent
    and [killed] becomes true; on one that has exited, nothing happens
    and the call answers false. *)
Definition kill (sig : signal) (t : test) : test :=
  match exitCode t with
  | None =>
      {| testPassed := testPassed t; testFailed := testFailed t;
         awaits := awaits t; signals := signals t ++ [sig]; killed := true;
         exitCode := exitCode t; ended := ended t |}
  | Some _ => t
  end.

(** Lines 110-140: the handler of the server's stderr. *)
Definition on_stderr (env : gmap string string) (errorText : string) (t : test) : test :=
  let t1 :=
    if contains "Called end on pool more than once" errorText
    then set_failed true t else t in
  let t2 := if contains "EADDRINUSE" errorText then set_failed true t1 else t1 in
  if contains "ECONNREFUSED" errorText &&
     contains (default "undefined" (env !! "DB_HOST")) errorText
  then set_failed true t2 else t2.

(** Lines 143-191: the handler of the server's exit. *)
Definition on_exit (code : option Z) (t : test) : test :=
  let t' := set_exitCode code t in
  if testPassed t' then exit_with 0 t'
  else if testFailed t' then exit_with 1 t'
  else exit_with 1 t'.

(** Lines 194-197: the handler of a failure to start the server. *)
Definition on_error (t : test) : test := exit_with 1 t.

(** Lines 235-248, the third part of [runTest], up to the second timer. *)
Definition shut_down (t : test) : test :=
  let t1 := if negb (testFailed t) then set_passed true t else t in
  set_awaits Shutdown (kill SIGTERM t1).

(** Lines 206-209 and 220-231: a failure on the way; the server is told
    to stop and [runTest] returns. *)
Definition bail_out (t : test) : test := set_awaits Returned (kill SIGTERM t).

(** Lines 200-257: [runTest], one continuation at a time. *)
Definition on_timer (t : test) : test :=
  match awaits t with
  | Startup => if testFailed t then bail_out t else set_awaits Response t
  | Shutdown =>
      if negb (killed t) && bool_decide (exitCode t = None) then
        set_awaits Returned
          (kill SIGKILL (set_passed false (set_failed true t)))
      else set_awaits Returned t
  | _ => t
  end.

Definition on_response (ok : bool) (t : test) : test :=
  match awaits t with
  | Response => if ok then set_awaits Body t else bail_out (set_failed true t)
  | _ => t
  end.

Definition on_fetch_failed (t : test) : test :=
  match awaits t with
  | Response | Body => bail_out (set_failed true t)
  | _ => t
  end.

Definition on_body (t : test) : test :=
  match awaits t with
  | Body => shut_down t
  | _ => t
  end.

(** What can happen, one turn of the event loop each. *)
Inductive happening :=
| Stdout (text : string)
| Stderr (errorText : string)
| ServerExit (code : option Z)
| ServerError
| TimerFires
| ResponseArrives (ok : bool)
| BodyArrives
| FetchFails.

(** A process that has exited does nothing more. *)
Definition happen (env : gmap string string) (t : test) (h : happening) : test :=
  match ended t with
  | Some _ => t
  | None =>
      match h with
      | Stdout _ => t
      | Stderr errorText => on_stderr env errorText t
      | ServerExit code => on_exit code t
      | ServerError => on_error t
      | TimerFires => on_timer t
      | ResponseArrives ok => on_response ok t
      | BodyArrives => on_body t
      | FetchFails => on_fetch_failed t
      end
  end.

Definition happen_all (env : gmap string string) (hs : list happening) (t : test) : test :=
  foldl (happen env) t hs.

Definition is_exit (h : happening) : Prop :=
  match h with ServerExit _ | ServerError => True | _ => False end.

(** What holds of the script after any happenings: [runTest] waits for
    the body only after an OK response; the test is marked passed only
    after the body arrived, at a moment when no failure was recorded;
    the script ends with 0 only when marked passed and on the exit of
    the server, else with 1. *)
Definition coherent (env : gmap string string) (hs : list happening) (t : test) : Prop :=
  (awaits t = Body → ResponseArrives true ∈ hs) ∧
  (testPassed t = true →
   ∃ pre post, hs = pre ++ BodyArrives :: post ∧
               ResponseArrives true ∈ pre ∧
               testFailed (happen_all env pre spawned) = false) ∧
  (∀ c, ended t = Some c →
        c = 1%Z ∨ (c = 0%Z ∧ testPassed t = true ∧ ∃ code, ServerExit code ∈ hs)).

(** A server that runs has no exit code, and [runTest] waits for the
    shutdown only after a signal was sent; SIGKILL is never sent. *)
Definition signalled (t : test) : Prop :=
  (ended t = None → exitCode t = None) ∧
  (awaits t = Shutdown → killed t = true) ∧
  SIGKILL ∉ signals t.

(** An environment with all that the script asks for. *)
Definition complete : gmap string string :=
  <["DB_HOST" := "db"]> (<["DB_PORT" := "5432"]> (<["DB_NAME" := "cliscale"]>
    (<["DB_USER" := "postgres"]> (<["DB_PASSWORD" := "postgres"]>
       (<["API_KEY" := "k"]> ∅))))).

End Smoke.

(** ** The settings of the database connection

    [controller/knexfile.js], the configuration of the migrations; the
    variant of that file in [unnamed/part_003], which chooses between
    the TypeScript and the compiled migrations; and the head of
    [controller/src/db.ts], the configuration of the application (lines
    167-191 of [controller/src/tests/setup.ts]). *)

Module Config.

(** [v || dflt] on a variable of the environment: the default when the
    variable is unset or empty. *)
Definition or_default (v : option string) (dflt : string) : string :=
  match v with
  | Some x => if bool_decide (x = EmptyString) then dflt else x
  | None => dflt
  end.

(** [v ? a : b] on a variable of the environment. *)
Definition truthy (v : option string) : bool :=
  match v with
  | Some x => negb (bool_decide (x = EmptyString))
  | None => false
  end.

Section ParseInt.

(** [parseInt] of JavaScript; [None] is [NaN]. *)
Variable parseInt : string → option Z.

(** A connection given by its parts; a part that is [undefined] is
    [None]. *)
Record parts := {
  host : option string;
  port : option Z;
  database : option string;
  user : option string;
  password : option string
}.

Record migrations := { directory : string; tableName : string; extension : string }.

Record environment := {
  connection : parts;
  pool : option (nat * nat);
  migrate : migrations;
  seeds : option string
}.

(** [knexfile.js], lines 5-11, 24-30 and 64-70: the connection of the
    environments other than production, with the variable the password
    is read from and the default name of the database. *)
Definition local (env : gmap string string) (password_var db : string) : parts :=
  {| host := Some (or_default (env !! "DB_HOST") "localhost");
     port := parseInt (or_default (env !! "DB_PORT") "5432");
     database := Some (or_default (env !! "DB_NAME") db);
     user := Some (or_default (env !! "DB_USER") "postgres");
     password := Some (or_default (env !! password_var) "postgres") |}.

(** Lines 44-50: production has no defaults but for the port. *)
Definition remote (env : gmap string string) : parts :=
  {| host := env !! "DB_HOST";
     port := parseInt (or_default (env !! "DB_PORT") "5432");
     database := env !! "DB_NAME";
     user := env !! "DB_USER";
     password := env !! "DB_PASSWORD" |}.

(** [knexfile.js], lines 12-16, 36-40, 55-59 and 71-75: the migrations
    of every environment are the TypeScript sources. *)
Definition sources : migrations :=
  {| directory := "./src/migrations"; tableName := "knex_migrations";
     extension := "ts" |}.

(** [unnamed/part_003], lines 3-5: the compiled migrations are used in
    production, under test and in CI. *)
Definition useCompiledMigrations (env : gmap string string) : bool :=
  bool_decide (env !! "NODE_ENV" = Some "production") ||
  bool_decide (env !! "NODE_ENV" = Some "test") ||
  bool_decide (env !! "CI" = Some "true").

(** [unnamed/part_003], lines 17-21 and the like. *)
Definition chosen (env : gmap string string) : migrations :=
  {| directory :=
       if useCompiledMigrations env then "./dist/migrations" else "./src/migrations";
     tableName := "knex_migrations";
     extension := if useCompiledMigrations env then "js" else "ts" |}.

(** The four environments that both files export; they differ in
    [migrations] only, which is [m]. *)
Definition environments (m : migrations) (env : gmap string string)
    (name : string) : option environment :=
  if bool_decide (name = "development") then
    Some {| connection := local env "DB_PASSWORD" "cliscale"; pool := None;
            migrate := m; seeds := Some "./src/seeds" |}
  else if bool_decide (name = "staging") then
    Some {| connection := local env "DB_PASSWORD" "cliscale"; pool := Some (2, 10);
            migrate := m; seeds := None |}
  else if bool_decide (name = "production") then
    Some {| connection := remote env; pool := Some (2, 20);
            migrate := m; seeds := None |}
  else if bool_decide (name = "test") then
    Some {| connection := local env "PASSWORD" "cliscale_test"; pool := None;
            migrate := m; seeds := None |}
  else None.

(** [controller/knexfile.js]. *)
Definition knexfile (env : gmap string string) (name : string) : option environment :=
  environments sources env name.

(** [unnamed/part_003]. *)
Definition knexfile_compiled (env : gmap string string) (name : string) :
    option environment :=
  environments (chosen env) env name.

(** What [db.ts] gives Knex to connect with: a URL, the parts, or, in
    production, an object with [ssl] and, if [DATABASE_URL] is set, the
    [connectionString]. *)
Inductive target :=
| Url (url : string)
| Parts (p : parts)
| Secure (connectionString : option string) (rejectUnauthorized : bool).

Record knex_settings := {
  connect : target;
  pool_min : nat;
  pool_max : option Z;
  idleTimeoutMillis : option Z;
  acquireTimeoutMillis : Z
}.

(** [db.ts], lines 167-191. The spread of line 183 replaces the
    [connection] of line 169 when [NODE_ENV] is [production]. *)
Definition db (env : gmap string string) : knex_settings :=
  {| connect :=
       if bool_decide (env !! "NODE_ENV" = Some "production") then
         Secure (env !! "DATABASE_URL") true
       else if truthy (env !! "DATABASE_URL") then
         Url (default EmptyString (env !! "DATABASE_URL"))
       else Parts (local env "DB_PASSWORD" "cliscale");
     pool_min := 2;
     pool_max :=
       if truthy (env !! "DB_MAX_CONNECTIONS")
       then parseInt (default EmptyString (env !! "DB_MAX_CONNECTIONS"))
       else Some 20%Z;
     idleTimeoutMillis :=
       if truthy (env !! "DB_IDLE_TIMEOUT_MILLIS")
       then parseInt (default EmptyString (env !! "DB_IDLE_TIMEOUT_MILLIS"))
       else Some 30000%Z;
     acquireTimeoutMillis := 10000%Z |}.

End ParseInt.

(** The variables that name the database by its parts. *)
Definition part_vars : list string :=
  ["DB_HOST"; "DB_PORT"; "DB_NAME"; "DB_USER"; "DB_PASSWORD"].

(** Two environments that differ at most in the variables of [names]. *)
Definition same_but (names : list string) (env env' : gmap string string) : Prop :=
  ∀ v, v ∉ names → env !! v = env' !! v.

(** A [parseInt] for the examples: the decimal numerals. *)
Definition decimal (s : string) : option Z := Z.of_N <$> Str.to_N s.

End Config.

(** ** Facts about the worker entrypoint *)

Module RunnerFacts.
Import Str Runner.

(** *** The matchers, on the URLs of the documentation *)

Example github_tree_url :
  github_tree "https://github.com/arakoodev/cliscale/tree/main/sample-cli" = true ∧
  ∀ cs, search cs GITHUB_REGEX
          "https://github.com/arakoodev/cliscale/tree/main/sample-cli" =
        Some ["arakoodev"; "cliscale"; "main"; "sample-cli"].
Proof. split; [reflexivity | intros []; reflexivity]. Qed.

Example archive_urls :
  glob "*.zip" "https://example.com/code.zip" = true ∧
  glob "*.tar.gz" "https://example.com/code.tar.gz" = true ∧
  glob "*.git" "https://github.com/owner/repo.git" = true ∧
  glob "*.zip" "https://example.com/code.zip?x=1" = false ∧
  recognised "https://example.com/code" = false.
Proof. repeat split; reflexivity. Qed.

Example tree_url_without_folder :
  github_tree "https://github.com/owner/repo/tree/main" = true ∧
  (∀ cs, search cs GITHUB_REGEX "https://github.com/owner/repo/tree/main" = None) ∧
  github_tree "https://github.com/owner/repo" = false.
Proof. split; [reflexivity | split; [intros []; reflexivity | reflexivity]]. Qed.

(** *** Reasoning about scripts *)

Lemma bind_unfold {A B} (m : Sh A) (k : A → Sh B) (s : shell) :
  (m ≫= k) s =
  match m s with
  | (Ret a, s') => k a s'
  | (Halt o, s') => (Halt o, s')
  end.
Proof. reflexivity. Qed.

Lemma bind_ret {A B} (m : Sh A) (k : A → Sh B) s a s' :
  m s = (Ret a, s') → (m ≫= k) s = k a s'.
Proof. intros E. rewrite bind_unfold, E. reflexivity. Qed.

Lemma bind_halt {A B} (m : Sh A) (k : A → Sh B) s o s' :
  m s = (Halt o, s') → (m ≫= k) s = (Halt o, s').
Proof. intros E. rewrite bind_unfold, E. reflexivity. Qed.

Create HintDb sh discriminated.

Section Invariant.

Context (w : world) {I : shell → Prop} {okev : event → Prop}.
Context {HS : Stable I okev}.

Lemma pres_bind {A B} (m : Sh A) (k : A → Sh B) :
  preserves I m → (∀ a, preserves I (k a)) → preserves I (m ≫= k).
Proof.
  intros Hm Hk s Hs. rewrite bind_unfold.
  specialize (Hm s Hs). destruct (m s) as [[a|o] s']; simpl in *.
  - by apply Hk.
  - done.
Qed.

Lemma pres_ret {A} (a : A) : preserves I (ret a).
Proof. by intros s. Qed.

Lemma pres_exit {A} n : preserves I (@exit A n).
Proof. by intros s. Qed.

Lemma pres_block {A} : preserves I (@block A).
Proof. by intros s. Qed.

Lemma pres_logged e : okev e → preserves I (λ s, (Ret (), emit e s)).
Proof. intros He s Hs. by apply stable_log. Qed.

Lemma pres_echo line : preserves I (echo line).
Proof. apply pres_logged, stable_plain. exact Logic.I. Qed.

Lemma pres_background c : preserves I (background c).
Proof. apply pres_logged, stable_plain. exact Logic.I. Qed.

Lemma pres_getv name : preserves I (getv name).
Proof. intros s Hs. unfold getv. by destruct (vars s !! name). Qed.

Lemma pres_getv_or name d : preserves I (getv_or name d).
Proof. intros s Hs. unfold getv_or. by destruct (vars s !! name). Qed.

Lemma pres_setv n v : n ≠ "CODE_URL" → preserves I (setv n v).
Proof. intros Hn s Hs. by apply stable_setv. Qed.

Lemma pres_default_to n d : n ≠ "CODE_URL" → preserves I (default_to n d).
Proof.
  intros Hn. apply pres_bind; [apply pres_getv_or|].
  intros v. by apply pres_setv.
Qed.

Lemma pres_file_exists f : preserves I (file_exists f).
Proof. by intros s. Qed.

Lemma pres_pwd : preserves I pwd.
Proof. by intros s. Qed.

Lemma pres_try c : (∀ st, okev (Ran c st)) → preserves I (try w c).
Proof. intros Hc s Hs. by apply stable_log. Qed.

Lemma pres_when b (m : Sh unit) : preserves I m → preserves I (when b m).
Proof. intros Hm. destruct b; [done | apply pres_ret]. Qed.

Lemma pres_sh c : (∀ st, okev (Ran c st)) → preserves I (sh w c).
Proof.
  intros Hc. apply pres_bind; [by apply pres_try|].
  intros st. destruct (ok st); [apply pres_ret | apply pres_exit].
Qed.

Lemma pres_or_else c h :
  (∀ st, okev (Ran c st)) → preserves I h → preserves I (or_else w c h).
Proof.
  intros Hc Hh. apply pres_bind; [by apply pres_try|].
  intros st. destruct (ok st); [apply pres_ret | done].
Qed.

Lemma pres_chdir d : preserves I (chdir d).
Proof. intros s Hs. by apply stable_cwd. Qed.

Lemma okev_ran c st : is_sha c = false → okev (Ran c st).
Proof. intros Hc. by apply stable_plain. Qed.

Lemma pres_cd d : preserves I (cd w d).
Proof.
  apply pres_bind; [|intros; apply pres_chdir].
  apply pres_sh. intros; by apply okev_ran.
Qed.

Lemma pres_download url out : preserves I (download w url out).
Proof.
  intros s Hs. unfold download. rewrite bind_unfold.
  unfold sh at 1. rewrite bind_unfold. unfold try; simpl.
  destruct (ok (status w (Curl url out))) eqn:E; simpl.
  - apply bool_decide_eq_true in E. rewrite E. by apply stable_download.
  - apply stable_log; [by apply okev_ran | done].
Qed.

Lemma pres_ran c st : is_sha c = false → preserves I (λ s, (Ret (), emit (Ran c st) s)).
Proof. intros Hc. by apply pres_logged, okev_ran. Qed.

Ltac pres_side :=
  first [ done | intros; apply okev_ran; reflexivity ].

Ltac pres_step :=
  first
    [ apply pres_ret | apply pres_exit | apply pres_block | apply pres_echo
    | apply pres_background | apply pres_getv | apply pres_getv_or
    | apply pres_file_exists | apply pres_pwd | apply pres_cd
    | apply pres_download | apply pres_chdir
    | apply pres_setv; pres_side | apply pres_default_to; pres_side
    | apply pres_sh; pres_side | apply pres_try; pres_side
    | apply pres_ran; reflexivity
    | apply pres_when | apply pres_or_else; [pres_side|]
    | solve [auto 1 with sh nocore]
    | simple apply pres_bind; [| intros ?]
    | match goal with
      | |- preserves _ (if ?b then _ else _) => destruct b
      | |- preserves _ (match ?x with _ => _ end) => destruct x
      | |- preserves _ (let _ := _ in _) => cbv zeta
      end ].

Ltac pres := repeat pres_step.

Lemma pres_validate_command c : preserves I (validate_command w c).
Proof. unfold validate_command. pres. Qed.

Local Hint Resolve pres_validate_command : sh.

Lemma pres_validate_var name : preserves I (validate_var w name).
Proof. unfold validate_var. pres. Qed.

Local Hint Resolve pres_validate_var : sh.

Lemma pres_check_inputs : preserves I (check_inputs w).
Proof. unfold check_inputs. pres. Qed.

Lemma pres_fetch_github url : preserves I (fetch_github w url).
Proof. unfold fetch_github. pres. Qed.

Local Hint Resolve pres_fetch_github : sh.

Lemma pres_fetch_code : preserves I (fetch_code w).
Proof. unfold fetch_code. pres. Qed.

Lemma pres_verify_checksum :
  (∀ sum st, okev (Ran (Sha256sum sum "bundle.zip") st)) →
  (∀ sum st, okev (Ran (Sha256sum sum "bundle.tgz") st)) →
  preserves I (verify_checksum w).
Proof. intros Hz Ht. unfold verify_checksum. pres. Qed.

Lemma pres_extract_archives : preserves I (extract_archives w).
Proof. unfold extract_archives. pres. Qed.

Lemma pres_install : preserves I (install w).
Proof. unfold install. pres. Qed.

Lemma pres_launch : preserves I (launch w).
Proof. unfold launch. pres. Qed.

Lemma pres_wait_ttyd : preserves I (wait_ttyd w).
Proof.
  unfold wait_ttyd. destruct (ttyd_exit w); [|apply pres_block].
  intros s Hs. apply stable_log; [by apply okev_ran | done].
Qed.

Lemma pres_monitor socket session n : preserves I (monitor w socket session n).
Proof. induction n as [|n IH]; simpl; pres. Qed.

Lemma pres_collect_job_code f : preserves I (collect_job_code w f).
Proof. unfold collect_job_code. pres. Qed.

Local Hint Resolve pres_wait_ttyd pres_monitor pres_collect_job_code : sh.

Lemma pres_supervise : preserves I (supervise w).
Proof. unfold supervise. pres. Qed.

Local Hint Resolve pres_extract_archives pres_install pres_launch pres_supervise : sh.

(** Everything after the checksum verification. *)
Lemma pres_after_checksum :
  preserves I (extract_archives w;; install w;; launch w;; supervise w).
Proof. pres. Qed.

Lemma pres_entrypoint :
  (∀ sum st, okev (Ran (Sha256sum sum "bundle.zip") st)) →
  (∀ sum st, okev (Ran (Sha256sum sum "bundle.tgz") st)) →
  preserves I (entrypoint w).
Proof.
  intros Hz Ht. unfold entrypoint.
  apply pres_bind; [apply pres_check_inputs | intros _].
  apply pres_bind; [apply pres_fetch_code | intros _].
  apply pres_bind; [by apply pres_verify_checksum | intros _].
  apply pres_after_checksum.
Qed.

End Invariant.

(** *** Validation of [COMMAND] and [INSTALL_CMD] *)

Lemma has_prefix_spec p s : has_prefix p s = true ↔ ∃ t, s = p +:+ t.
Proof.
  revert s. induction p as [|a p IH]; intros s; simpl.
  - split; [intros _; by exists s | done].
  - destruct s as [|b s]; simpl.
    + split; [done | intros [t Ht]; discriminate].
    + rewrite andb_true_iff, bool_decide_eq_true, IH. split.
      * intros [-> [t ->]]. by exists t.
      * intros [t Ht]. injection Ht as -> ->. split; [done | by exists t].
Qed.

(** [contains] is the substring relation. *)
Lemma contains_spec needle hay :
  contains needle hay = true ↔ ∃ pre post, hay = pre +:+ needle +:+ post.
Proof.
  induction hay as [|b hay IH]; simpl.
  - rewrite orb_false_r, has_prefix_spec. split.
    + intros [t Ht]. by exists EmptyString, t.
    + intros [[|a pre] [post Ht]]; [by exists post | discriminate].
  - rewrite orb_true_iff, has_prefix_spec, IH. split.
    + intros [[t Ht] | (pre & post & ->)].
      * by exists EmptyString, t.
      * by exists (String b pre), post.
    + intros [[|a pre] [post Ht]].
      * left. by exists post.
      * right. simpl in Ht. injection Ht as -> ->. by exists pre, post.
Qed.

Lemma validate_command_eq w cmd s :
  validate_command w cmd s =
  match fault_of (locale w) cmd with
  | Some msg => (Ret 1%N, emit (Echo msg) s)
  | None => (Ret 0%N, s)
  end.
Proof.
  unfold validate_command, fault_of.
  destruct (dangerous cmd); [done|]. by case_bool_decide.
Qed.

Lemma validate_var_eq w name s :
  validate_var w name s =
  match fault (locale w) (vars s !! name) with
  | Some msg => (Halt (Exited 1), emit (Echo msg) s)
  | None => (Ret (), s)
  end.
Proof.
  unfold validate_var, fault. rewrite bind_unfold. unfold getv_or.
  destruct (vars s !! name) as [v|]; simpl; [|done].
  repeat case_bool_decide; try done.
  rewrite bind_unfold, validate_command_eq.
  by destruct (fault_of (locale w) v).
Qed.

Lemma check_inputs_eq w s :
  check_inputs w s =
  match vars s !! "CODE_URL" with
  | None => (Halt (Exited 1), s)
  | Some url =>
      let s1 := emit (url_line url) s in
      if bool_decide (url = EmptyString) then
        (Halt (Exited 2), emit (Echo "[fatal] CODE_URL is required") s1)
      else
        match fault (locale w) (vars s !! "COMMAND") with
        | Some msg => (Halt (Exited 1), emit (Echo msg) s1)
        | None =>
            match fault (locale w) (vars s !! "INSTALL_CMD") with
            | Some msg => (Halt (Exited 1), emit (Echo msg) s1)
            | None => (Ret (), s1)
            end
        end
  end.
Proof.
  unfold check_inputs. rewrite bind_unfold. unfold getv.
  destruct (vars s !! "CODE_URL") as [url|] eqn:E; [|done].
  cbv zeta. rewrite bind_unfold. unfold echo at 1. cbv beta iota.
  rewrite bind_unfold. unfold when.
  case_bool_decide as Hu.
  - rewrite bind_unfold. reflexivity.
  - unfold ret, mret, sh_ret. cbv beta iota.
    rewrite bind_unfold, validate_var_eq. simpl vars.
    destruct (fault (locale w) (vars s !! "COMMAND")); [done|].
    rewrite validate_var_eq. simpl vars.
    by destruct (fault (locale w) (vars s !! "INSTALL_CMD")).
Qed.

(** A run that stops at the validation of its inputs. *)
Lemma run_stops_at_inputs w env o s' :
  check_inputs w (start w env) = (Halt o, s') → run w env = (Halt o, s').
Proof. intros E. unfold run, entrypoint. by apply bind_halt. Qed.

Lemma fault_of_fatal cs cmd msg : fault_of cs cmd = Some msg → validation_fatal msg.
Proof.
  unfold fault_of, validation_fatal. destruct (dangerous cmd); [naive_solver|].
  case_bool_decide; naive_solver.
Qed.

Lemma fault_fatal cs v msg : fault cs v = Some msg → validation_fatal msg.
Proof.
  destruct v as [cmd|]; simpl; [|done].
  case_bool_decide; [done | apply fault_of_fatal].
Qed.

(** A variable that fails validation stops the run before any command is
    started, whatever else is in the environment. *)
Lemma run_rejects w env name cmd :
  name = "COMMAND" ∨ name = "INSTALL_CMD" →
  env !! name = Some cmd → cmd ≠ EmptyString → is_Some (fault_of (locale w) cmd) →
  (∃ code, (run w env).1 = Halt (Exited code) ∧ code ≠ 0%N) ∧
  Forall only_echo (trace (run w env).2) ∧
  (∀ url, env !! "CODE_URL" = Some url → url ≠ EmptyString →
     (run w env).1 = Halt (Exited 1) ∧
     ∃ pre msg, trace (run w env).2 = (pre ++ [Echo msg])%list ∧ validation_fatal msg).
Proof.
  intros Hname Hv Hne [m Hm].
  assert (Hf : fault (locale w) (env !! name) = Some m).
  { rewrite Hv. simpl. by rewrite bool_decide_eq_false_2. }
  pose proof (check_inputs_eq w (start w env)) as E. simpl vars in E.
  destruct (env !! "CODE_URL") as [url|] eqn:Eu.
  - cbv zeta in E. case_bool_decide as Hu.
    + rewrite (run_stops_at_inputs _ _ _ _ E). simpl.
      split; [by exists 2%N|]. split; [repeat constructor|].
      intros url' [= <-] ?. congruence.
    + destruct (fault (locale w) (env !! "COMMAND")) as [mc|] eqn:Ec.
      * rewrite (run_stops_at_inputs _ _ _ _ E). simpl.
        split; [by exists 1%N|]. split; [repeat constructor|].
        intros url' [= <-] _. split; [done|].
        eexists [_], mc. split; [reflexivity|]. by eapply fault_fatal.
      * destruct Hname as [-> | ->]; [congruence|]. rewrite Hf in E.
        rewrite (run_stops_at_inputs _ _ _ _ E). simpl.
        split; [by exists 1%N|]. split; [repeat constructor|].
        intros url' [= <-] _. split; [done|].
        eexists [_], m. split; [reflexivity|]. by eapply fault_of_fatal.
  - rewrite (run_stops_at_inputs _ _ _ _ E). simpl.
    split; [by exists 1%N|]. split; [constructor|]. intros url' [=].
Qed.

(** C4. A [COMMAND] or [INSTALL_CMD] that is set, not empty, and contains
    one of the substrings [$(], a backtick or [${] makes [validate_command]
    return 1 with the message about dangerous substitution patterns, and the
    run ends with a non-zero status having started no command at all (no
    download, no install, no job); with [CODE_URL] in place the status is 1
    and the last line printed is a fatal validation message.  A value with
    none of the three substrings passes the pattern check: it is refused
    only when longer than 500 characters. *)
Theorem dangerous_substitution_rejected (w : world) :
  (∀ env name cmd,
     name = "COMMAND" ∨ name = "INSTALL_CMD" →
     env !! name = Some cmd → cmd ≠ EmptyString →
     contains "$(" cmd = true ∨ contains "`" cmd = true ∨
       contains "${" cmd = true →
     (∀ s, validate_command w cmd s = (Ret 1%N, emit (Echo dangerous_msg) s)) ∧
     (∃ code, (run w env).1 = Halt (Exited code) ∧ code ≠ 0%N) ∧
     Forall only_echo (trace (run w env).2) ∧
     (∀ url, env !! "CODE_URL" = Some url → url ≠ EmptyString →
        (run w env).1 = Halt (Exited 1) ∧
        ∃ pre msg, trace (run w env).2 = (pre ++ [Echo msg])%list ∧
                   validation_fatal msg)) ∧
  (∀ cmd s,
     contains "$(" cmd = false → contains "`" cmd = false →
     contains "${" cmd = false →
     validate_command w cmd s =
     if bool_decide (500 < char_length (locale w) cmd)%nat
     then (Ret 1%N, emit (Echo too_long_msg) s) else (Ret 0%N, s)).
Proof.
  split.
  - intros env name cmd Hname Hv Hne Hd.
    assert (Hdang : dangerous cmd = true).
    { unfold dangerous. rewrite !orb_true_iff. tauto. }
    assert (Hf : fault_of (locale w) cmd = Some dangerous_msg).
    { unfold fault_of. by rewrite Hdang. }
    split.
    + intros s. by rewrite validate_command_eq, Hf.
    + apply (run_rejects w env name cmd); eauto.
  - intros cmd s H1 H2 H3. rewrite validate_command_eq. unfold fault_of, dangerous.
    rewrite H1, H2, H3. simpl. by case_bool_decide.
Qed.

Lemma dangerous_substitution_rejected_witness :
  let env : gmap string string :=
    <["COMMAND" := "echo $(id)"]> (<["CODE_URL" := "https://example.com/app.zip"]> ∅) in
  (run calm env).1 = Halt (Exited 1) ∧ Forall only_echo (trace (run calm env).2).
Proof.
  intros env.
  destruct (proj1 (dangerous_substitution_rejected calm) env "COMMAND" "echo $(id)")
    as (_ & _ & Htrace & Hexit).
  - left; reflexivity.
  - reflexivity.
  - discriminate.
  - left; reflexivity.
  - split; [|exact Htrace].
    apply (Hexit "https://example.com/app.zip"); [reflexivity | discriminate].
Defined.

Lemma count_chars_le cs skip s : count_chars cs skip s ≤ String.length s.
Proof.
  revert skip. induction s as [|a s IH]; intros skip;
    cbn [count_chars String.length]; [done|].
  destruct skip as [|k].
  - specialize (IH (pred (char_size cs (String a s)))). lia.
  - specialize (IH k). lia.
Qed.

(** A character is never less than a byte. *)
Lemma char_length_le cs s : char_length cs s ≤ String.length s.
Proof. apply count_chars_le. Qed.

(** In the C locale a character is a byte. *)
Lemma char_length_bytes s : char_length Bytes s = String.length s.
Proof.
  unfold char_length. induction s as [|a s IH]; simpl; [done|]. by rewrite IH.
Qed.

(** C5, as the code has it. The bound on [COMMAND] and [INSTALL_CMD] is
    500 characters of the locale of the runner, inclusive: a value of at
    most 500 characters without the forbidden substrings is accepted by
    [validate_command] (status 0, nothing printed) and does not stop the
    run at the validation; a value of 501 characters or more is refused
    with the message about the maximum length, and the run ends with a
    non-zero status having started no command (status 1 with [CODE_URL]
    in place).  A character is never less than a byte, so that a value
    of 500 bytes or less is never refused for its length; and in the C
    locale a character is a byte, so that the bound is 500 bytes there. *)
Theorem command_length_bound (w : world) :
  (∀ cmd s,
     dangerous cmd = false → (char_length (locale w) cmd ≤ 500)%nat →
     validate_command w cmd s = (Ret 0%N, s) ∧
     validate_var w "X" (set_vars (insert "X" cmd) s) =
       (Ret (), set_vars (insert "X" cmd) s)) ∧
  (∀ cmd s,
     dangerous cmd = false → (501 ≤ char_length (locale w) cmd)%nat →
     validate_command w cmd s = (Ret 1%N, emit (Echo too_long_msg) s)) ∧
  (∀ env name cmd,
     name = "COMMAND" ∨ name = "INSTALL_CMD" →
     env !! name = Some cmd →
     dangerous cmd = false → (501 ≤ char_length (locale w) cmd)%nat →
     (∃ code, (run w env).1 = Halt (Exited code) ∧ code ≠ 0%N) ∧
     Forall only_echo (trace (run w env).2) ∧
     (∀ url, env !! "CODE_URL" = Some url → url ≠ EmptyString →
        (run w env).1 = Halt (Exited 1) ∧
        ∃ pre msg, trace (run w env).2 = (pre ++ [Echo msg])%list ∧
                   validation_fatal msg)) ∧
  (∀ cmd, char_length (locale w) cmd ≤ String.length cmd) ∧
  (locale w = Bytes → ∀ cmd, char_length (locale w) cmd = String.length cmd).
Proof.
  split_and!.
  - intros cmd s Hd Hl.
    assert (Hf : fault_of (locale w) cmd = None).
    { unfold fault_of. rewrite Hd. rewrite bool_decide_eq_false_2; [done | lia]. }
    split.
    + by rewrite validate_command_eq, Hf.
    + rewrite validate_var_eq. simpl vars. rewrite lookup_insert_eq. simpl.
      case_bool_decide; [done | by rewrite Hf].
  - intros cmd s Hd Hl. rewrite validate_command_eq. unfold fault_of.
    rewrite Hd. rewrite bool_decide_eq_true_2; [done | lia].
  - intros env name cmd Hname Hv Hd Hl.
    apply (run_rejects w env name cmd); [done | done | |].
    + intros ->. unfold char_length in Hl. simpl in Hl. lia.
    + unfold fault_of. rewrite Hd. rewrite bool_decide_eq_true_2; [by eexists | lia].
  - intros cmd. apply char_length_le.
  - intros -> cmd. apply char_length_bytes.
Qed.

Lemma command_length_bound_witness :
  let long := chars 501 "a" in
  let env : gmap string string :=
    <["INSTALL_CMD" := long]>
      (<["COMMAND" := "npm start"]> (<["CODE_URL" := "https://example.com/app.zip"]> ∅)) in
  validate_command calm (chars 500 "a") (start calm env) = (Ret 0%N, start calm env) ∧
  validate_command calm long (start calm env) =
    (Ret 1%N, emit (Echo too_long_msg) (start calm env)) ∧
  (run calm env).1 = Halt (Exited 1) ∧
  validate_command calm_utf8 (copies 500 e_acute) (start calm_utf8 env) =
    (Ret 0%N, start calm_utf8 env) ∧
  validate_command calm_utf8 (copies 501 e_acute) (start calm_utf8 env) =
    (Ret 1%N, emit (Echo too_long_msg) (start calm_utf8 env)).
Proof.
  intros long env.
  destruct (command_length_bound calm) as (H500 & H501 & Hrun & _ & _).
  destruct (command_length_bound calm_utf8) as (U500 & U501 & _ & _ & _).
  split_and!.
  - apply H500; vm_compute; [reflexivity | lia].
  - apply H501; vm_compute; [reflexivity | lia].
  - destruct (Hrun env "INSTALL_CMD" long) as (_ & _ & Hexit).
    + right; reflexivity.
    + reflexivity.
    + vm_compute; reflexivity.
    + vm_compute; lia.
    + apply (Hexit "https://example.com/app.zip"); [reflexivity | discriminate].
  - apply U500; vm_compute; [reflexivity | lia].
  - apply U501; vm_compute; [reflexivity | lia].
Defined.

(** C5, as the specification has it, fails on the runner in a UTF-8
    locale: the value below is 300 times the letter e with an acute
    accent, 600 bytes and 300 characters; it holds none of the forbidden
    substrings, [validate_command] accepts it, and the run goes on to
    hand it to [/bin/bash -c].  In the C locale the same value is
    refused. *)
Lemma long_command_accepted_in_utf8 :
  let cmd := copies 300 e_acute in
  let env : gmap string string :=
    <["LC_ALL" := "C.UTF-8"]>
      (<["INSTALL_CMD" := cmd]>
         (<["COMMAND" := "npm start"]>
            (<["CODE_URL" := "https://example.com/app.zip"]> ∅))) in
  String.length cmd = 600 ∧
  dangerous cmd = false ∧
  validate_command calm_utf8 cmd (start calm_utf8 env) = (Ret 0%N, start calm_utf8 env) ∧
  existsb (λ e, bool_decide (e = Ran (BashC cmd) 0)) (trace (run calm_utf8 env).2) = true ∧
  validate_command calm cmd (start calm env) =
    (Ret 1%N, emit (Echo too_long_msg) (start calm env)).
Proof. vm_compute. repeat split. Qed.

(** *** The [case] on [CODE_URL] *)

(** Invariants of the trace alone. *)
#[local] Instance trace_forall_stable (P : event → Prop) :
  (∀ e, plain e → P e) → Stable (λ s, Forall P (trace s)) P.
Proof.
  intros HP. split; try done.
  - intros e s He Hs. simpl. apply Forall_app. by repeat constructor.
  - intros url out s Hs. simpl. apply Forall_app. split; [done|].
    repeat constructor. by apply HP.
Qed.

(** The trace only grows. *)
#[local] Instance prefix_stable (t0 : list event) :
  Stable (λ s, t0 `prefix_of` trace s) (λ _, True).
Proof.
  split; try done.
  - intros e s _ Hs. simpl. by apply prefix_app_r.
  - intros url out s Hs. simpl. by apply prefix_app_r.
Qed.

Lemma sh_ok w c s :
  status w c = 0%N → sh w c s = (Ret (), emit (Ran c 0) s).
Proof.
  intros E. unfold sh. rewrite bind_unfold. unfold try. cbv beta iota.
  rewrite E. reflexivity.
Qed.

Lemma sh_fail w c s :
  status w c ≠ 0%N →
  sh w c s = (Halt (Exited (status w c)), emit (Ran c (status w c)) s).
Proof.
  intros E. unfold sh. rewrite bind_unfold. unfold try. cbv beta iota.
  unfold ok. by rewrite bool_decide_eq_false_2.
Qed.

Lemma bind_getv {B} name v (k : string → Sh B) s :
  vars s !! name = Some v → (getv name ≫= k) s = k v s.
Proof. intros E. rewrite bind_unfold. unfold getv. by rewrite E. Qed.

Lemma bind_echo {B} line (k : unit → Sh B) s :
  (echo line ≫= k) s = k () (emit (Echo line) s).
Proof. reflexivity. Qed.

Lemma sh_vars w c s : vars (sh w c s).2 = vars s.
Proof.
  destruct (decide (status w c = 0%N)) as [E|E].
  - by rewrite sh_ok.
  - by rewrite sh_fail.
Qed.

Lemma cd_vars w d s : vars (cd w d s).2 = vars s.
Proof.
  unfold cd. rewrite bind_unfold.
  pose proof (sh_vars w (Cd d) s) as E.
  by destruct (sh w (Cd d) s) as [[[]|o] s1].
Qed.

Lemma check_inputs_vars w s : vars (check_inputs w s).2 = vars s.
Proof.
  rewrite check_inputs_eq. destruct (vars s !! "CODE_URL"); [|done].
  cbv zeta. case_bool_decide; [done|].
  destruct (fault (locale w) (vars s !! "COMMAND")); [done|].
  by destruct (fault (locale w) (vars s !! "INSTALL_CMD")).
Qed.

(** The state in which [fetch_code] looks at [CODE_URL], when [cd /work]
    and [mkdir -p src] succeed. *)
Lemma fetch_code_case w s url :
  vars s !! "CODE_URL" = Some url →
  status w (Cd "/work") = 0%N → status w (MkdirP "src") = 0%N →
  ∃ s1,
    trace s1 = (trace s ++ [Ran (Cd "/work") 0; Ran (MkdirP "src") 0])%list ∧
    files s1 = files s ∧
    fetch_code w s =
      (if github_tree url then fetch_github w url
       else if glob "*.zip" url then download w url "bundle.zip"
       else if glob "*.tgz" url || glob "*.tar.gz" url then download w url "bundle.tgz"
       else if glob "*.git" url || glob "*.git*" url then sh w (GitClone url "src")
       else echo unknown_msg;; download w url "bundle.zip") s1.
Proof.
  intros Hurl Hcd Hmk. eexists. split; [|split]; last first.
  - unfold fetch_code. rewrite bind_unfold. unfold cd at 1.
    rewrite bind_unfold, (sh_ok _ _ _ Hcd). unfold chdir at 1. cbv beta iota.
    rewrite bind_unfold, (sh_ok _ _ _ Hmk).
    rewrite bind_unfold. unfold setv at 1. cbv beta iota.
    rewrite bind_unfold. unfold getv at 1. simpl vars.
    rewrite lookup_insert_ne by done. rewrite Hurl. reflexivity.
  - reflexivity.
  - simpl. by rewrite <- app_assoc.
Qed.

(** What follows the fetching of the code never takes an event back. *)
Lemma after_fetch_grows w t0 s :
  t0 `prefix_of` trace s →
  t0 `prefix_of`
    trace ((verify_checksum w;; extract_archives w;; install w;; launch w;;
            supervise w) s).2.
Proof.
  revert s.
  apply (pres_bind (I := λ s, t0 `prefix_of` trace s)).
  - by apply (pres_verify_checksum w (HS := prefix_stable t0)).
  - intros _. apply (pres_after_checksum w (HS := prefix_stable t0)).
Qed.

(** A run whose inputs pass the validation. *)
Lemma run_after_inputs w env url :
  env !! "CODE_URL" = Some url → url ≠ EmptyString →
  fault (locale w) (env !! "COMMAND") = None →
  fault (locale w) (env !! "INSTALL_CMD") = None →
  run w env =
  (fetch_code w;; verify_checksum w;; extract_archives w;; install w;;
   launch w;; supervise w) (emit (url_line url) (start w env)).
Proof.
  intros Hurl Hne Hc Hi. unfold run, entrypoint.
  rewrite bind_unfold, check_inputs_eq. simpl vars.
  rewrite Hurl. cbv zeta. rewrite bool_decide_eq_false_2 by done.
  by rewrite Hc, Hi.
Qed.

(** C3, as the code has it. A [CODE_URL] that is not empty and matches
    none of the patterns of the [case] ([*github.com/*/tree/*], [*.zip],
    [*.tgz], [*.tar.gz], [*.git], [*.git*]), with or without a backtick
    in it, is not rejected by the runner: it reaches the default branch,
    where the runner prints the warning that it assumes a zip and runs
    [curl -fL] on the URL into [bundle.zip] -- provided that [COMMAND]
    and [INSTALL_CMD] pass their validation and that [cd /work] and
    [mkdir -p src] succeed. *)
Theorem unknown_url_assumed_zip (w : world) (env : gmap string string) (url : string) :
  env !! "CODE_URL" = Some url → url ≠ EmptyString →
  recognised url = false →
  fault (locale w) (env !! "COMMAND") = None →
  fault (locale w) (env !! "INSTALL_CMD") = None →
  status w (Cd "/work") = 0%N → status w (MkdirP "src") = 0%N →
  [url_line url; Ran (Cd "/work") 0; Ran (MkdirP "src") 0; Echo unknown_msg;
   Ran (Curl url "bundle.zip") (status w (Curl url "bundle.zip"))]
    `prefix_of` trace (run w env).2.
Proof.
  intros Hurl Hne Hrec Hc Hi Hcd Hmk.
  rewrite (run_after_inputs w env url) by done.
  unfold recognised in Hrec. rewrite !orb_false_iff in Hrec.
  destruct Hrec as (((((Hgh & Hzip) & Htgz) & Htar) & Hgit) & Hgits).
  rewrite bind_unfold.
  destruct (fetch_code_case w (emit (url_line url) (start w env)) url)
    as (s1 & Ht & _ & ->); [done..|].
  rewrite Hgh, Hzip, Htgz, Htar, Hgit, Hgits. cbn [orb].
  rewrite bind_unfold. unfold echo at 1. cbv beta iota.
  unfold download. rewrite bind_unfold.
  destruct (decide (status w (Curl url "bundle.zip") = 0%N)) as [E|E].
  - rewrite (sh_ok _ _ _ E), E. unfold create_file at 1. cbv beta iota.
    apply after_fetch_grows. simpl. rewrite Ht. by simpl.
  - rewrite (sh_fail _ _ _ E). simpl. rewrite Ht. by simpl.
Qed.

Lemma unknown_url_assumed_zip_witness :
  let url := "https://example.com/app" in
  let env : gmap string string :=
    <["COMMAND" := "npm start"]> (<["CODE_URL" := url]> ∅) in
  [url_line url; Ran (Cd "/work") 0; Ran (MkdirP "src") 0; Echo unknown_msg;
   Ran (Curl url "bundle.zip") 0]
    `prefix_of` trace (run calm env).2.
Proof.
  intros url env.
  apply (unknown_url_assumed_zip calm env url);
    first [reflexivity | discriminate].
Defined.

(** C3, as the specification has it, fails on the runner: the URL below
    has none of the four accepted shapes and contains a backtick, and the
    runner neither reports a validation error nor refrains from
    downloading: it fetches the URL with curl, goes on to install and to
    run the job, and exits with the job's own status. *)
Lemma unrecognised_url_is_downloaded :
  let url := "https://example.com/app`id`" in
  let env : gmap string string :=
    <["COMMAND" := "npm start"]> (<["CODE_URL" := url]> ∅) in
  recognised url = false ∧
  contains "`" url = true ∧
  existsb is_download (trace (run calm env).2) = true ∧
  take 5 (trace (run calm env).2) =
    [url_line url; Ran (Cd "/work") 0; Ran (MkdirP "src") 0; Echo unknown_msg;
     Ran (Curl url "bundle.zip") 0] ∧
  existsb (λ e, bool_decide (e = Ran (BashC "npm install") 0))
    (trace (run calm env).2) = true ∧
  (run calm env).1 = Halt (Exited 3).
Proof. vm_compute. repeat split. Qed.

Lemma ensures_bind {A B} Q (m : Sh A) (k : A → Sh B) :
  (∀ a, ensures Q (k a)) → ensures Q (m ≫= k).
Proof.
  intros Hk s b s'. rewrite bind_unfold.
  destruct (m s) as [[a|o] s1]; [apply Hk | done].
Qed.

Lemma ensures_exit {A} Q n : ensures Q (@exit A n).
Proof. by intros s a s'. Qed.

Lemma ensures_setv n v : ensures (λ s, vars s !! n = Some v) (setv n v).
Proof. intros s a s' [= _ <-]. apply lookup_insert_eq. Qed.

(** Line 80: a GitHub tree URL that has been fetched leaves the checksum
    variable empty, whatever the caller had put in it. *)
Lemma fetch_github_clears w url : ensures cleared (fetch_github w url).
Proof.
  unfold fetch_github.
  repeat first
    [ apply ensures_exit
    | apply ensures_setv
    | simple apply ensures_bind; intros ?
    | match goal with
      | |- ensures _ (match ?x with _ => _ end) => destruct x
      | |- ensures _ (let _ := _ in _) => cbv zeta
      end ].
Qed.

Lemma fetch_code_clears w s url :
  vars s !! "CODE_URL" = Some url → github_tree url = true →
  ∀ a s', fetch_code w s = (Ret a, s') → cleared s'.
Proof.
  intros Hurl Hgh a s'. unfold fetch_code. rewrite bind_unfold.
  pose proof (cd_vars w "/work" s) as Ea.
  destruct (cd w "/work" s) as [[[]|o] sa]; [|done]. simpl in Ea.
  rewrite bind_unfold.
  pose proof (sh_vars w (MkdirP "src") sa) as Eb.
  destruct (sh w (MkdirP "src") sa) as [[[]|o] sb]; [|done]. simpl in Eb.
  rewrite bind_unfold. unfold setv at 1. cbv beta iota.
  rewrite bind_unfold. unfold getv at 1. simpl vars.
  rewrite lookup_insert_ne by done. rewrite Eb, Ea, Hurl.
  rewrite Hgh.
  apply fetch_github_clears.
Qed.

Lemma verify_checksum_cleared w s :
  cleared s → verify_checksum w s = (Ret (), s).
Proof.
  intros Hs. unfold verify_checksum. rewrite bind_unfold. unfold getv_or.
  unfold cleared, checksum_var in Hs. by rewrite Hs.
Qed.

Lemma plain_on_bundle e : plain e → on_bundle e.
Proof. by destruct e as [|[] ?|]. Qed.

Lemma downloaded_before_snoc t e i f :
  downloaded_before t i f → downloaded_before (t ++ [e]) i f.
Proof.
  intros (j & url & Hj & Ht). exists j, url. split; [done|].
  by apply lookup_app_l_Some.
Qed.

Lemma downloaded_before_le t i i' f :
  (i ≤ i')%nat → downloaded_before t i f → downloaded_before t i' f.
Proof. intros Hi (j & url & Hj & Ht). exists j, url. split; [lia | done]. Qed.

Lemma verified_after_download_log e s :
  plain e → verified_after_download s → verified_after_download (emit e s).
Proof.
  intros He [Hf Hv]. split; simpl.
  - intros f Hin Hb. apply downloaded_before_snoc.
    eapply downloaded_before_le; [|by apply Hf]. rewrite length_app. lia.
  - intros i sum f st Hi. apply lookup_snoc_Some in Hi as [[_ Hi] | [_ ->]].
    + apply downloaded_before_snoc. by eapply Hv.
    + done.
Qed.

#[local] Instance verified_after_download_stable :
  Stable verified_after_download plain.
Proof.
  split; try done.
  - apply verified_after_download_log.
  - intros url out s Hs.
    destruct (verified_after_download_log (Ran (Curl url out) 0) s eq_refl Hs)
      as [Hf Hv].
    split; [|done]. simpl in *. intros f Hin Hb.
    apply elem_of_union in Hin as [->%elem_of_singleton | Hin]; [|by apply Hf].
    exists (length (trace s)), url. split; [rewrite length_app; simpl; lia|].
    by apply list_lookup_middle.
Qed.

Lemma sh_state w c s : (sh w c s).2 = emit (Ran c (status w c)) s.
Proof.
  destruct (decide (status w c = 0%N)) as [E|E].
  - by rewrite sh_ok, E.
  - by rewrite sh_fail.
Qed.

Lemma verified_after_download_sha sum f st s :
  f ∈ files s → f = "bundle.zip" ∨ f = "bundle.tgz" →
  verified_after_download s →
  verified_after_download (emit (Ran (Sha256sum sum f) st) s).
Proof.
  intros Hin Hb [Hf Hv]. split; simpl.
  - intros f' Hin' Hb'. apply downloaded_before_snoc.
    eapply downloaded_before_le; [|by apply Hf]. rewrite length_app. lia.
  - intros i sum' f' st' Hi.
    apply lookup_snoc_Some in Hi as [[_ Hi] | [-> [= -> -> ->]]].
    + apply downloaded_before_snoc. by eapply Hv.
    + apply downloaded_before_snoc. by apply Hf.
Qed.

Lemma getv_or_empty name s :
  getv_or name EmptyString s = (Ret (default EmptyString (vars s !! name)), s).
Proof.
  unfold getv_or. destruct (vars s !! name) as [v|]; simpl; [|done].
  case_bool_decide; by subst.
Qed.

Lemma verify_checksum_after_download w :
  preserves verified_after_download (verify_checksum w).
Proof.
  intros s Hs. unfold verify_checksum. rewrite bind_unfold, getv_or_empty.
  case_bool_decide as Hv; [done|].
  rewrite bind_unfold. unfold file_exists at 1. cbv beta iota.
  case_bool_decide as Hz.
  - rewrite sh_state. apply verified_after_download_sha; auto.
  - rewrite bind_unfold. unfold file_exists. cbv beta iota. unfold when.
    case_bool_decide as Ht; [|done].
    rewrite sh_state. apply verified_after_download_sha; auto.
Qed.

(** For a GitHub tree URL no [sha256sum] is run, whatever the
    environment and however the commands end. *)
Lemma tree_run_plain w env url :
  env !! "CODE_URL" = Some url → github_tree url = true →
  Forall plain (trace (run w env).2).
Proof.
  intros Hurl Hgh.
  pose (HP := trace_forall_stable plain (λ _ h, h)).
  pose proof (pres_check_inputs w (HS := HP) (start w env) (Forall_nil_2 _)) as H1.
  pose proof (check_inputs_vars w (start w env)) as V1.
  unfold run, entrypoint. rewrite bind_unfold.
  destruct (check_inputs w (start w env)) as [[[]|o] s1]; simpl in H1, V1; [|done].
  rewrite bind_unfold.
  pose proof (pres_fetch_code w (HS := HP) s1 H1) as H2.
  assert (Hs1 : vars s1 !! "CODE_URL" = Some url) by by rewrite V1.
  pose proof (fetch_code_clears w s1 url Hs1 Hgh) as C.
  destruct (fetch_code w s1) as [[[]|o] s2]; simpl in H2; [|done].
  rewrite bind_unfold, verify_checksum_cleared by by eapply C.
  by apply (pres_after_checksum w (HS := HP)).
Qed.

(** Line 80: when the fetch of a GitHub tree URL runs to its end, the
    checksum variable is empty, whatever the caller had put in it. *)
Lemma tree_fetch_clears w env url a s' :
  env !! "CODE_URL" = Some url → github_tree url = true →
  (check_inputs w ≫= λ _, fetch_code w) (start w env) = (Ret a, s') →
  vars s' !! "CODE_CHECKSUM_SHA256" = Some EmptyString.
Proof.
  intros Hurl Hgh. rewrite bind_unfold.
  pose proof (check_inputs_vars w (start w env)) as V1.
  destruct (check_inputs w (start w env)) as [[[]|o] s1]; simpl in V1; [|done].
  apply (fetch_code_clears w s1 url); [by rewrite V1 | done].
Qed.

Lemma or_else_ok w c h s :
  status w c = 0%N → or_else w c h s = (Ret (), emit (Ran c 0) s).
Proof.
  intros E. unfold or_else. rewrite bind_unfold. unfold try. cbv beta iota.
  rewrite E. reflexivity.
Qed.

Lemma bind_setv {B} n v (k : unit → Sh B) s :
  (setv n v ≫= k) s = k () (set_vars (insert n v) s).
Proof. reflexivity. Qed.

Lemma bind_pure {A B} (a : A) (k : A → Sh B) s : (ret a ≫= k) s = k a s.
Proof. reflexivity. Qed.

Lemma fetch_github_returns w url owner repo ref folder s :
  search (locale w) GITHUB_REGEX url = Some [owner; repo; ref; folder] →
  (∀ c, status w c = 0%N) →
  find_first w (mktemp_dir w) folder ≠ EmptyString →
  ∃ s', fetch_github w url s = (Ret (), s').
Proof.
  intros Hs Hok Hf. unfold fetch_github. rewrite Hs. cbv zeta.
  rewrite (bool_decide_eq_false_2 _ Hf). cbn [when].
  repeat first
    [ rewrite bind_echo
    | rewrite bind_setv
    | rewrite bind_pure
    | rewrite (bind_ret _ _ _ _ _ (sh_ok w _ _ (Hok _)))
    | rewrite (bind_ret _ _ _ _ _ (or_else_ok w _ _ _ (Hok _))) ].
  by eexists.
Qed.

(** With valid inputs, commands that succeed and the folder found in
    the tarball, the fetch of a GitHub tree URL does run to its end. *)
Lemma tree_fetch_returns w env url owner repo ref folder :
  env !! "CODE_URL" = Some url → github_tree url = true →
  search (locale w) GITHUB_REGEX url = Some [owner; repo; ref; folder] →
  fault (locale w) (env !! "COMMAND") = None →
  fault (locale w) (env !! "INSTALL_CMD") = None →
  (∀ c, status w c = 0%N) →
  find_first w (mktemp_dir w) folder ≠ EmptyString →
  ∃ s', (check_inputs w ≫= λ _, fetch_code w) (start w env) = (Ret (), s').
Proof.
  intros Hurl Hgh Hs Hc Hi Hok Hf.
  assert (url ≠ EmptyString) as Hne by (by intros ->).
  rewrite bind_unfold, check_inputs_eq. simpl vars. rewrite Hurl. cbv zeta.
  rewrite bool_decide_eq_false_2 by done. rewrite Hc, Hi.
  destruct (fetch_code_case w (emit (url_line url) (start w env)) url)
    as (s1 & _ & _ & ->); [done|apply Hok..|].
  rewrite Hgh. by eapply fetch_github_returns.
Qed.

(** In every run [sha256sum] is only given [bundle.zip] or
    [bundle.tgz]. *)
Lemma run_on_bundle w env : Forall on_bundle (trace (run w env).2).
Proof.
  apply (pres_entrypoint w (HS := trace_forall_stable on_bundle plain_on_bundle));
    simpl; auto using Forall_nil_2.
Qed.

(** When [/work] holds no bundle at the start, the file given to
    [sha256sum] is one that curl has downloaded earlier in the run. *)
Lemma sha_after_download w env i sum f st :
  "bundle.zip" ∉ initial_files w → "bundle.tgz" ∉ initial_files w →
  trace (run w env).2 !! i = Some (Ran (Sha256sum sum f) st) →
  downloaded_before (trace (run w env).2) i f.
Proof.
  intros Hz Ht. revert i sum f st.
  assert (H : verified_after_download (entrypoint w (start w env)).2);
    [|by destruct H].
  unfold entrypoint.
  apply (pres_bind (I := verified_after_download)).
  { apply (pres_check_inputs w (HS := verified_after_download_stable)). }
  { intros _. apply pres_bind; [|intros _].
    { apply (pres_fetch_code w (HS := verified_after_download_stable)). }
    apply pres_bind; [apply verify_checksum_after_download | intros _].
    apply (pres_after_checksum w (HS := verified_after_download_stable)). }
  split; simpl.
  - intros f Hin [-> | ->]; done.
  - intros i sum f st Hi. by rewrite lookup_nil in Hi.
Qed.

(** *** The end of the script: [EXIT_ON_JOB] *)

Lemma to_N_of_N n : to_N (of_N n) = Some n.
Proof.
  unfold to_N, of_N.
  assert (Hne : N.to_uint n ≠ Decimal.Nil).
  { destruct n as [|p]; [done|]. apply DecimalPos.Unsigned.to_uint_nonnil. }
  destruct (NilEmpty.string_of_uint (N.to_uint n)) eqn:E.
  - destruct (N.to_uint n); done.
  - rewrite <- E, NilEmpty.usu. simpl. by rewrite DecimalN.Unsigned.of_to.
Qed.

(** What [echo $code > "$exit_file"] writes for a status, the numeral
    and a line feed, is read back as that status. *)
Lemma exit_status_of_N n :
  (n < 256)%N → exit_status (captured (of_N n +:+ nl)) = n.
Proof.
  intros Hn.
  assert (forallb (λ k, N.eqb (exit_status (captured (of_N (N.of_nat k) +:+ nl)))
                          (N.of_nat k)) (seq 0 256) = true) as H
    by (vm_compute; reflexivity).
  rewrite forallb_forall in H. specialize (H (N.to_nat n)).
  rewrite N2Nat.id in H. apply N.eqb_eq, H, in_seq. lia.
Qed.

Lemma monitor_ends w socket session n s :
  status w (Sleep 2) = 0%N →
  (monitor w socket session n s).1 = Ret ().
Proof.
  intros Hsl. revert s. induction n as [|n IH]; intros s; [done|].
  simpl. rewrite bind_unfold. cbv beta iota.
  rewrite bind_unfold, (sh_ok _ _ _ Hsl). apply IH.
Qed.

(** With [EXIT_ON_JOB] other than [false], once the tmux session is gone
    and ttyd has ended, the script exits with the status found in the
    exit file, 0 when there is no such file. *)
Lemma supervise_exit_on_job w s v socket session file n st :
  vars s !! "EXIT_ON_JOB" = Some v → v ≠ "false" →
  vars s !! "TMUX_SOCKET" = Some socket →
  vars s !! "TMUX_SESSION" = Some session →
  vars s !! "exit_file" = Some file →
  job_polls w = Some n → status w (Sleep 2) = 0%N → ttyd_exit w = Some st →
  (supervise w s).1 = Halt (Exited (job_status w)).
Proof.
  intros He Hv Hso Hse Hf Hp Hsl Ht. unfold supervise, job_status.
  rewrite (bind_getv _ _ _ _ He), (bind_getv _ _ _ _ Hso),
    (bind_getv _ _ _ _ Hse), (bind_getv _ _ _ _ Hf).
  rewrite bool_decide_eq_false_2 by done. unfold when at 1.
  rewrite bind_unfold. unfold ret, mret, sh_ret. cbv beta iota.
  rewrite Hp, bind_unfold.
  pose proof (monitor_ends w socket session n s Hsl) as Hm.
  destruct (monitor w socket session n s) as [r s1]. simpl in Hm. subst r.
  rewrite bind_echo, bind_unfold. unfold collect_job_code, wait_ttyd. rewrite Ht.
  destruct (exit_file w); reflexivity.
Qed.

(** With [EXIT_ON_JOB=false] the script waits for ttyd and, under
    [set -e], ends with the status of ttyd: 0 only when ttyd ends with
    0.  While ttyd lives, so does the container. *)
Lemma supervise_keep_alive w s socket session file :
  vars s !! "EXIT_ON_JOB" = Some "false" →
  vars s !! "TMUX_SOCKET" = Some socket →
  vars s !! "TMUX_SESSION" = Some session →
  vars s !! "exit_file" = Some file →
  (supervise w s).1 =
  match ttyd_exit w with
  | Some st => Halt (Exited st)
  | None => Halt Forever
  end.
Proof.
  intros He Hso Hse Hf. unfold supervise.
  rewrite (bind_getv _ _ _ _ He), (bind_getv _ _ _ _ Hso),
    (bind_getv _ _ _ _ Hse), (bind_getv _ _ _ _ Hf).
  rewrite bool_decide_eq_true_2 by done. unfold when at 1.
  rewrite bind_unfold, bind_echo, bind_unfold.
  unfold wait_ttyd. destruct (ttyd_exit w) as [st|]; [|done].
  cbv beta iota. unfold ok. case_bool_decide as Hst; simpl.
  - by rewrite Hst.
  - done.
Qed.

Lemma job_status_recorded w c :
  exit_file w = Holds (of_N c +:+ nl) → (c < 256)%N → job_status w = c.
Proof.
  intros E Hc. unfold job_status. rewrite E. by apply exit_status_of_N.
Qed.

(** C10, where the code departs from it. With [EXIT_ON_JOB=false] and a
    ttyd that ends with status 137, the [wait] of line 186 returns 137
    and [set -e] ends the script there: the container exits 137, and
    the [exit 0] of line 187 is never reached. *)
Theorem keep_alive_exits_with_ttyd_status :
  let env : gmap string string :=
    <["EXIT_ON_JOB" := "false"]>
      (<["COMMAND" := "npm start"]>
         (<["CODE_URL" := "https://example.com/app.zip"]> ∅)) in
  (run ttyd_killed env).1 = Halt (Exited 137) ∧
  last (trace (run ttyd_killed env).2) = Some (Ran WaitTtyd 137) ∧
  (run calm env).1 = Halt (Exited 0).
Proof. vm_compute. repeat split. Qed.

End RunnerFacts.

(** ** Facts about the database handle *)

Module DbFacts.
Import Db.

(** *** The health check *)

(** C6, as the code has it. [checkDatabaseHealth] answers [true] exactly
    when the pool is marked healthy and the [SELECT 1] round trip
    succeeds with one row. While the pool is marked unhealthy (after a
    [createFail] of the pool, until a [createSuccess] or the timer), it
    answers [false] without sending the query, whatever the database
    would have answered. *)
Theorem checkDatabaseHealth_true_iff (raw : string → raw_result) (s : state) :
  ((checkDatabaseHealth raw s).1 = true ↔
     isPoolHealthy s = true ∧ ∃ row, raw "SELECT 1" = Rows [row]) ∧
  (isPoolHealthy s = false → checkDatabaseHealth raw s = (false, s)).
Proof.
  unfold checkDatabaseHealth. destruct (isPoolHealthy s); simpl.
  - split; [|done]. destruct (raw "SELECT 1") as [rows|err]; simpl.
    + rewrite bool_decide_eq_true. split.
      * intros Hl. split; [done|].
        destruct rows as [|row [|? ?]]; try done. by exists row.
      * by intros [_ [row [= ->]]].
    + split; [done | by intros [_ [row ?]]].
  - split; [|done]. split; [done | by intros [? _]].
Qed.

Lemma checkDatabaseHealth_true_iff_witness :
  (checkDatabaseHealth answering init).1 = true ∧
  checkDatabaseHealth answering (on_createFail init) = (false, on_createFail init).
Proof.
  split.
  - apply (proj1 (checkDatabaseHealth_true_iff answering init)).
    split; [reflexivity | by eexists].
  - apply (proj2 (checkDatabaseHealth_true_iff answering (on_createFail init))).
    reflexivity.
Defined.

(** C6, as the specification has it, fails: after a [createFail] of the
    pool the database still answers [SELECT 1] with one row, and the
    health check says [false], having sent nothing. *)
Lemma unhealthy_pool_fails_health_check :
  let s := process [CreateFail] init in
  (∃ row, answering "SELECT 1" = Rows [row]) ∧
  (checkDatabaseHealth answering s).1 = false ∧
  queries (checkDatabaseHealth answering s).2 = [].
Proof. simpl. split; [by eexists | done]. Qed.

Lemma guarded_init : guarded init.
Proof. reflexivity. Qed.

Lemma closeDatabasePool_guarded d s : guarded s → guarded (closeDatabasePool d s).2.
Proof.
  unfold guarded, closeDatabasePool. destruct (isPoolClosed s) eqn:E; simpl.
  - by rewrite E.
  - by intros ->.
Qed.

Lemma closeDatabasePool_closes d s : isPoolClosed (closeDatabasePool d s).2 = true.
Proof. unfold closeDatabasePool. by destruct (isPoolClosed s) eqn:E. Qed.

Lemma closeDatabasePool_closed d s :
  isPoolClosed s = true →
  closeDatabasePool d s =
  (Resolved, log Debug "Database pool already closed, skipping" s).
Proof. unfold closeDatabasePool. by intros ->. Qed.

Lemma on_signal_guarded name s : guarded s → guarded (on_signal name s).
Proof.
  unfold guarded, on_signal. cbn. destruct (isPoolClosed s) eqn:E; cbn.
  - by rewrite E.
  - by intros ->.
Qed.

Lemma on_signal_closes name s : isPoolClosed (on_signal name s) = true.
Proof. unfold on_signal. cbn. by destruct (isPoolClosed s) eqn:E. Qed.

Lemma on_settled_flags d s :
  isPoolClosed (on_settled d s) = isPoolClosed s ∧
  destroy_calls (on_settled d s) = destroy_calls s.
Proof. unfold on_settled. destruct (awaited s); [|done]. by destruct d. Qed.

Lemma checkDatabaseHealth_flags raw s :
  isPoolClosed (checkDatabaseHealth raw s).2 = isPoolClosed s ∧
  destroy_calls (checkDatabaseHealth raw s).2 = destroy_calls s.
Proof.
  unfold checkDatabaseHealth. destruct (negb (isPoolHealthy s)); [done|].
  by destruct (raw "SELECT 1").
Qed.

Lemma step_guarded s a : guarded s → guarded (step s a).
Proof.
  intros Hs. unfold step. destruct (exited s); [done|].
  destruct a; try done.
  - unfold on_timeout. by destruct (timers s).
  - unfold guarded. by destruct (checkDatabaseHealth_flags raw s) as [-> ->].
  - by apply closeDatabasePool_guarded.
  - by apply on_signal_guarded.
  - by apply on_signal_guarded.
  - unfold guarded. by destruct (on_settled_flags destroy_ok s) as [-> ->].
Qed.

Lemma step_closed s a : isPoolClosed s = true → isPoolClosed (step s a) = true.
Proof.
  intros Hs. unfold step. destruct (exited s); [done|].
  destruct a; try done.
  - unfold on_timeout. by destruct (timers s).
  - by destruct (checkDatabaseHealth_flags raw s) as [-> _].
  - apply closeDatabasePool_closes.
  - apply on_signal_closes.
  - apply on_signal_closes.
  - by destruct (on_settled_flags destroy_ok s) as [-> _].
Qed.

Lemma process_guarded acts s : guarded s → guarded (process acts s).
Proof.
  revert s. induction acts as [|a acts IH]; intros s Hs; [done|].
  simpl. by apply IH, step_guarded.
Qed.

Lemma process_closed acts s : isPoolClosed s = true → isPoolClosed (process acts s) = true.
Proof.
  revert s. induction acts as [|a acts IH]; intros s Hs; [done|].
  simpl. by apply IH, step_closed.
Qed.

(** C7. Whatever happens to the module (calls of [closeDatabasePool],
    signals, pool events, health checks, in any order), [db.destroy()] is
    called at most once; and once [closeDatabasePool] has been called,
    every later call, whatever came in between, resolves and leaves the
    pool alone: it only logs that the pool is already closed. *)
Theorem closeDatabasePool_idempotent (pre mid : list action) (d d' : bool) :
  let s1 := (closeDatabasePool d (process pre init)).2 in
  let s2 := process mid s1 in
  destroy_calls (process pre init) ≤ 1 ∧
  destroy_calls s1 = 1 ∧
  destroy_calls s2 = 1 ∧
  closeDatabasePool d' s2 =
    (Resolved, log Debug "Database pool already closed, skipping" s2) ∧
  destroy_calls (closeDatabasePool d' s2).2 = 1.
Proof.
  intros s1 s2.
  assert (G0 : guarded (process pre init)) by apply process_guarded, guarded_init.
  assert (G1 : guarded s1) by by apply closeDatabasePool_guarded.
  assert (C1 : isPoolClosed s1 = true) by apply closeDatabasePool_closes.
  assert (G2 : guarded s2) by by apply process_guarded.
  assert (C2 : isPoolClosed s2 = true) by by apply process_closed.
  unfold guarded in *. rewrite C1 in G1. rewrite C2 in G2.
  split; [|split; [|split; [|split]]]; try done.
  - rewrite G0. destruct (isPoolClosed (process pre init)); lia.
  - by apply closeDatabasePool_closed.
  - by rewrite closeDatabasePool_closed.
Qed.

End DbFacts.

(** ** Facts about the Store *)

Module StoreFacts.
Import Store.

Lemma find_none_elem_of {A} (f : A → bool) (l : list A) (x : A) :
  find f l = None → x ∈ l → f x = false.
Proof. intros Hf Hx. eapply find_none; [done | by apply list_elem_of_In]. Qed.

Lemma filter_sublist_mono {A} (P : A → Prop) `{∀ x, Decision (P x)} (l k : list A) :
  l `sublist_of` k → filter P l `sublist_of` filter P k.
Proof.
  induction 1 as [|x l k _ IH|x l k _ IH]; [constructor|..].
  - rewrite !filter_cons. case_decide; [by constructor | done].
  - rewrite filter_cons. case_decide; [by constructor | done].
Qed.

Lemma keys_snoc c stored r :
  keys c (stored ++ [r]) =
  keys c stored ++ (if is_null c r then [] else [get r (col_name c)]).
Proof.
  unfold keys, is_null. rewrite fmap_app, filter_app. f_equal. simpl.
  rewrite filter_cons, filter_nil.
  case_decide; case_bool_decide; done.
Qed.

Lemma elem_of_keys c stored v :
  v ∈ keys c stored → v ∈ (λ r', get r' (col_name c)) <$> stored.
Proof. unfold keys. rewrite list_elem_of_filter. by intros [_ ?]. Qed.

Lemma insert_row_consistent ctx d stored data rows' :
  consistent {| def := d; rows := stored |} →
  insert_row ctx d stored data = Ok rows' →
  consistent {| def := d; rows := rows' |}.
Proof.
  intros Hc. unfold insert_row. cbv zeta.
  destruct (negb (known (tbl_columns d) data)); [done|].
  destruct (find (λ c, negb (well_typed c _)) _); [done|].
  destruct (find (λ c, required c && is_null c _) _) eqn:Hreq; [done|].
  destruct (find (λ c, keyed c && clash c _ stored) _) eqn:Hkey; [done|].
  intros [= <-] c Hin. simpl in *. destruct (Hc c Hin) as [Hn Hk]. split.
  - intros Hr. apply Forall_app. split; [by apply Hn|].
    repeat constructor.
    pose proof (find_none_elem_of _ _ c Hreq Hin) as Hf. simpl in Hf.
    rewrite Hr in Hf. simpl in Hf. unfold is_null in Hf.
    by apply bool_decide_eq_false in Hf.
  - intros Hkd. rewrite keys_snoc.
    pose proof (find_none_elem_of _ _ c Hkey Hin) as Hf. simpl in Hf.
    rewrite Hkd in Hf. simpl in Hf. unfold clash in Hf.
    destruct (is_null c (fill ctx (tbl_columns d) data)) eqn:En.
    + rewrite app_nil_r. by apply Hk.
    + simpl in Hf. apply bool_decide_eq_false in Hf.
      apply NoDup_app. split; [by apply Hk|]. split.
      * intros v Hv ->%list_elem_of_singleton. by apply Hf, elem_of_keys.
      * apply NoDup_singleton.
Qed.

Lemma delete_rows_consistent d stored (cond : row → bool) :
  consistent {| def := d; rows := stored |} →
  consistent {| def := d; rows := filter (λ r, cond r = false) stored |}.
Proof.
  intros Hc c Hin. simpl in *. destruct (Hc c Hin) as [Hn Hk]. split.
  - intros Hr. apply Forall_forall. intros r [_ Hin']%list_elem_of_filter.
    revert r Hin'. apply Forall_forall. by apply Hn.
  - intros Hkd. eapply sublist_NoDup; [by apply Hk|].
    unfold keys. apply filter_sublist_mono, fmap_sublist, sublist_filter.
Qed.

Lemma update_rows_consistent d stored cond changes rows' :
  update_rows d stored cond changes = Ok rows' →
  consistent {| def := d; rows := rows' |}.
Proof.
  unfold update_rows. cbv zeta.
  destruct (negb (known (tbl_columns d) changes)); [done|].
  destruct (find (λ c, negb (forallb (well_typed c) _)) _); [done|].
  destruct (find (λ c, required c && existsb (is_null c) _) _) eqn:Hreq; [done|].
  destruct (find (λ c, keyed c && negb (bool_decide (NoDup (keys c _)))) _)
    eqn:Hkey; [done|].
  intros [= <-] c Hin. simpl in *. split.
  - intros Hr. pose proof (find_none_elem_of _ _ c Hreq Hin) as Hf.
    simpl in Hf. rewrite Hr in Hf. simpl in Hf.
    apply Forall_forall. intros r Hrin Hnull.
    assert (existsb (is_null c)
              ((λ r, if cond r then changes ∪ r else r) <$> stored) = true);
      [|congruence].
    apply existsb_exists. exists r. split; [by apply list_elem_of_In|].
    unfold is_null. by apply bool_decide_eq_true.
  - intros Hkd. pose proof (find_none_elem_of _ _ c Hkey Hin) as Hf.
    simpl in Hf. rewrite Hkd in Hf. simpl in Hf.
    apply negb_false_iff in Hf. by apply bool_decide_eq_true in Hf.
Qed.

Lemma latest_empty : latest ∅ = Ok migrated.
Proof. reflexivity. Qed.

Lemma sound_migrated : sound migrated.
Proof.
  split; [done|]. intros name t Ht c Hin. unfold migrated in Ht.
  apply lookup_insert_Some in Ht as [[_ <-] | [_ Ht]].
  { split; intros _; simpl; [constructor | apply NoDup_nil_2]. }
  apply lookup_insert_Some in Ht as [[_ <-] | [_ Ht]]; [|done].
  split; intros _; simpl; [constructor | apply NoDup_nil_2].
Qed.

Lemma sound_replace db name t rows' :
  sound db → db !! name = Some t →
  consistent {| def := def t; rows := rows' |} →
  sound (<[name := {| def := def t; rows := rows' |}]> db).
Proof.
  intros [Hcat Hcon] Ht Hc. split.
  - intros n. destruct (decide (name = n)) as [<- | Hne].
    + rewrite lookup_insert_eq, <- Hcat, Ht. done.
    + by rewrite lookup_insert_ne.
  - intros n t' Hn. apply lookup_insert_Some in Hn as [[_ <-] | [_ Hn]]; eauto.
Qed.

Lemma exec_sound ctx st db db' : sound db → exec ctx st db = Ok db' → sound db'.
Proof.
  intros Hs. pose proof Hs as [_ Hcon]. destruct st as [name data | name cond | name cond changes]; simpl.
  - unfold insert. destruct (db !! name) as [t|] eqn:Ht; [|done].
    destruct (insert_row ctx (def t) (rows t) data) as [rows'|] eqn:Hi; [|done].
    intros [= <-]. apply sound_replace; [done..|].
    eapply insert_row_consistent; [|done]. specialize (Hcon _ _ Ht). by destruct t.
  - unfold delete_where. destruct (db !! name) as [t|] eqn:Ht; [|done].
    intros [= <-]. apply sound_replace; [done..|].
    apply delete_rows_consistent. specialize (Hcon _ _ Ht). by destruct t.
  - unfold update_where. destruct (db !! name) as [t|] eqn:Ht; [|done].
    destruct (update_rows (def t) (rows t) cond changes) as [rows'|] eqn:Hu; [|done].
    intros [= <-]. apply sound_replace; [done..|].
    by eapply update_rows_consistent.
Qed.

Lemma reachable_sound db : reachable db → sound db.
Proof.
  induction 1 as [|ctx st db db' _ IH Hexec]; [apply sound_migrated|].
  by eapply exec_sound.
Qed.

Lemma NoDup_filter_lookup {A} (P : A → Prop) `{∀ x, Decision (P x)}
    (l : list A) (i j : nat) (x : A) :
  NoDup (filter P l) → l !! i = Some x → l !! j = Some x → P x → i = j.
Proof.
  revert i j. induction l as [|a l IH]; intros i j Hnd Hi Hj Hx; [done|].
  rewrite filter_cons in Hnd.
  assert (Hin : ∀ n, l !! n = Some x → x ∈ filter P l).
  { intros n Hn. apply list_elem_of_filter. split; [done|].
    by eapply list_elem_of_lookup_2. }
  destruct i as [|i], j as [|j]; simpl in Hi, Hj.
  - done.
  - injection Hi as ->. rewrite decide_True in Hnd by done.
    apply NoDup_cons in Hnd as [Hnin _]. destruct Hnin. by eapply Hin.
  - injection Hj as ->. rewrite decide_True in Hnd by done.
    apply NoDup_cons in Hnd as [Hnin _]. destruct Hnin. by eapply Hin.
  - f_equal. apply IH; try done.
    case_decide; [by apply NoDup_cons in Hnd as [_ ?] | done].
Qed.

(** Two stored rows never agree on a column that is a key and cannot be
    NULL. *)
Lemma key_distinct t c i j r1 r2 :
  consistent t → c ∈ tbl_columns (def t) →
  keyed c = true → required c = true →
  rows t !! i = Some r1 → rows t !! j = Some r2 → i ≠ j →
  get r1 (col_name c) ≠ get r2 (col_name c).
Proof.
  intros Hc Hin Hk Hr Hi Hj Hij Heq. destruct (Hc c Hin) as [Hn Hnd].
  apply Hij. eapply (NoDup_filter_lookup _ _ i j (get r1 (col_name c))).
  - by apply Hnd.
  - by rewrite list_lookup_fmap, Hi.
  - by rewrite list_lookup_fmap, Hj, Heq.
  - by apply (Forall_lookup_1 _ _ _ _ (Hn Hr) Hi).
Qed.

(** An insert that meets a stored row on a key fails. *)
Lemma insert_row_clash ctx d stored data c :
  c ∈ tbl_columns d → keyed c = true →
  clash c (fill ctx (tbl_columns d) data) stored = true →
  ∃ e, insert_row ctx d stored data = Err e.
Proof.
  intros Hin Hk Hcl. unfold insert_row. cbv zeta.
  destruct (negb (known (tbl_columns d) data)); [by eexists|].
  destruct (find (λ c, negb (well_typed c _)) _); [by eexists|].
  destruct (find (λ c, required c && is_null c _) _); [by eexists|].
  destruct (find (λ c, keyed c && clash c _ stored) _) eqn:Hkey; [by eexists|].
  pose proof (find_none_elem_of _ _ c Hkey Hin) as Hf. simpl in Hf.
  by rewrite Hk, Hcl in Hf.
Qed.

Lemma clash_duplicate ctx d stored data c r :
  consistent {| def := d; rows := stored |} →
  c ∈ tbl_columns d → required c = true →
  r ∈ stored →
  get (fill ctx (tbl_columns d) data) (col_name c) = get r (col_name c) →
  clash c (fill ctx (tbl_columns d) data) stored = true.
Proof.
  intros Hc Hin Hr Hrin Heq. destruct (Hc c Hin) as [Hn _].
  unfold clash, is_null. rewrite Heq.
  apply andb_true_iff. split.
  - apply negb_true_iff, bool_decide_eq_false.
    by apply (proj1 (Forall_forall _ _) (Hn Hr) r).
  - apply bool_decide_eq_true. by apply (list_elem_of_fmap_2 (λ r', get r' _)).
Qed.

(** What a reachable database holds under a name of the catalogue. *)
Lemma reachable_table db name t0 :
  reachable db → migrated !! name = Some t0 →
  ∃ t, db !! name = Some t ∧ def t = def t0 ∧ consistent t.
Proof.
  intros [Hcat Hcon]%reachable_sound Hm. specialize (Hcat name).
  rewrite Hm in Hcat. destruct (db !! name) as [t|] eqn:Ht; [|done].
  injection Hcat as Hd. exists t. eauto.
Qed.

(** C1. In every database that inserts, deletes and updates can produce
    after the migrations, [token_jti] is there with [jti] as its primary
    key: two distinct rows have different [jti], and an insert whose
    [jti] is that of a stored row fails -- it returns an error and no
    database, so the stored row is not overwritten. *)
Theorem token_jti_primary_key (db : database) :
  reachable db →
  ∃ t, db !! "token_jti" = Some t ∧ def t = token_jti ∧
    (∀ i j r1 r2,
       rows t !! i = Some r1 → rows t !! j = Some r2 → i ≠ j →
       get r1 "jti" ≠ get r2 "jti") ∧
    (∀ ctx data r,
       r ∈ rows t → data !! "jti" = Some (get r "jti") →
       ∃ e, insert ctx "token_jti" data db = Err e).
Proof.
  intros Hr.
  destruct (reachable_table db "token_jti" {| def := token_jti; rows := [] |} Hr)
    as (t & Ht & Hd & Hc); [done|]. simpl in Hd.
  exists t. split; [done|]. split; [done|].
  assert (Hin : primary (text "jti") ∈ tbl_columns (def t)).
  { rewrite Hd. apply list_elem_of_In. simpl. tauto. }
  split.
  - intros i j r1 r2 Hi Hj Hij.
    by apply (key_distinct t (primary (text "jti")) i j r1 r2).
  - intros ctx data r Hrin Hdata. unfold insert. rewrite Ht.
    destruct (insert_row_clash ctx (def t) (rows t) data (primary (text "jti")))
      as [e He]; [done | done | | exists e; by rewrite He].
    apply (clash_duplicate _ _ _ _ _ r); try done.
    rewrite Hd. unfold get, fill, cell. simpl. by simplify_map_eq.
Qed.

Lemma with_token_reachable : reachable with_token.
Proof.
  apply (reachable_exec noon (Insert "token_jti" token) migrated);
    [apply reachable_migrated | reflexivity].
Qed.

Lemma token_jti_primary_key_witness :
  ∃ e, insert noon "token_jti" (<["session_id" := VText "other"]> token)
         with_token = Err e.
Proof.
  destruct (token_jti_primary_key with_token with_token_reachable)
    as (t & Ht & _ & _ & Hdup).
  injection Ht as <-.
  apply (Hdup noon _ (fill noon (tbl_columns token_jti) token)).
  - cbn [rows]. apply list_elem_of_singleton. reflexivity.
  - reflexivity.
Defined.

(** C2. In every database that inserts, deletes and updates can produce
    after the migrations, [sessions] is there with [session_id] as its
    primary key and [job_name] unique and not null: two distinct rows
    differ on [session_id] and on [job_name], and an insert that takes
    the [session_id] or the [job_name] of a stored row fails. *)
Theorem sessions_keys (db : database) (key : string) :
  reachable db →
  key = "session_id" ∨ key = "job_name" →
  ∃ t, db !! "sessions" = Some t ∧ def t = sessions ∧
    (∀ i j r1 r2,
       rows t !! i = Some r1 → rows t !! j = Some r2 → i ≠ j →
       get r1 key ≠ get r2 key) ∧
    (∀ ctx data r,
       r ∈ rows t → data !! key = Some (get r key) →
       ∃ e, insert ctx "sessions" data db = Err e).
Proof.
  intros Hr Hkey.
  destruct (reachable_table db "sessions" {| def := sessions; rows := [] |} Hr)
    as (t & Ht & Hd & Hc); [done|]. simpl in Hd.
  exists t. split; [done|]. split; [done|].
  assert (∃ c, c ∈ tbl_columns (def t) ∧ col_name c = key ∧
               keyed c = true ∧ required c = true ∧
               ∀ ctx data v, data !! key = Some v →
                 get (fill ctx (tbl_columns (def t)) data) key = v)
    as (c & Hin & Hname & Hk & Hreq & Hfill).
  { rewrite Hd. destruct Hkey as [-> | ->].
    - exists (defaultTo UuidGenerateV4 (primary (text "session_id"))).
      split; [apply list_elem_of_In; simpl; tauto|]. repeat split.
      intros ctx data v Hv. unfold get, fill, cell. simpl. by simplify_map_eq.
    - exists (unique (notNullable (text "job_name"))).
      split; [apply list_elem_of_In; simpl; tauto|]. repeat split.
      intros ctx data v Hv. unfold get, fill, cell. simpl. by simplify_map_eq. }
  subst key. split.
  - intros i j r1 r2 Hi Hj Hij. by apply (key_distinct t c i j r1 r2).
  - intros ctx data r Hrin Hdata. unfold insert. rewrite Ht.
    destruct (insert_row_clash ctx (def t) (rows t) data c)
      as [e He]; [done | done | | exists e; by rewrite He].
    apply (clash_duplicate _ _ _ _ _ r); try done. by apply Hfill.
Qed.

Lemma with_session_reachable : reachable with_session.
Proof.
  apply (reachable_exec noon (Insert "sessions" session) migrated);
    [apply reachable_migrated | reflexivity].
Qed.

Lemma sessions_keys_witness :
  ∃ e, insert noon "sessions" (<["session_id" := VText "def-456"]> session)
         with_session = Err e.
Proof.
  destruct (sessions_keys with_session "job_name" with_session_reachable)
    as (t & Ht & _ & _ & Hdup); [by right|].
  injection Ht as <-.
  apply (Hdup noon _ (fill noon (tbl_columns sessions) session)).
  - cbn [rows]. apply list_elem_of_singleton. reflexivity.
  - reflexivity.
Defined.

(** C8, as the specification has it, fails on the schema: the insert of
    the migration guide, [expires_at: new Date()] with [created_at] left
    to its default, is accepted, and the row it stores has [expires_at]
    equal to [created_at]. *)
Lemma session_expiring_at_creation :
  exec noon (Insert "sessions" session) migrated = Ok with_session ∧
  reachable with_session ∧
  ∃ r, rows <$> with_session !! "sessions" = Some [r] ∧
       get r "created_at" = VTime 1000 ∧
       get r "expires_at" = VTime 1000 ∧
       expires_after_created r = false.
Proof.
  split; [reflexivity|]. split; [apply with_session_reachable|].
  eexists. split; [reflexivity|]. by vm_compute.
Qed.

Lemma written_with_ttl_reachable db : written_with_ttl db → reachable db.
Proof.
  induction 1; [apply reachable_migrated | by eapply reachable_exec].
Qed.

Lemma ttl_write_expire_later ctx st db db' :
  reachable db → sessions_expire_later db →
  ttl_write ctx st → exec ctx st db = Ok db' →
  sessions_expire_later db'.
Proof.
  intros Hr Hs Hw Hexec t' Ht'.
  destruct (reachable_table db "sessions" {| def := sessions; rows := [] |} Hr)
    as (t & Ht & Hd & _); [done|]. simpl in Hd.
  specialize (Hs t Ht).
  destruct Hw as [data e Hc He Hlt | name data Hne | name cond | name cond changes Hc He];
    simpl in Hexec.
  - unfold insert in Hexec. rewrite Ht in Hexec.
    destruct (insert_row ctx (def t) (rows t) data) as [rows'|] eqn:Hi; [|done].
    injection Hexec as <-. rewrite lookup_insert_eq in Ht'. injection Ht' as <-.
    simpl. revert Hi. unfold insert_row. cbv zeta.
    destruct (negb (known (tbl_columns (def t)) data)); [done|].
    destruct (find (λ c, negb (well_typed c _)) _); [done|].
    destruct (find (λ c, required c && is_null c _) _); [done|].
    destruct (find (λ c, keyed c && clash c _ (rows t)) _); [done|].
    intros [= <-]. apply Forall_app. split; [done|]. repeat constructor.
    rewrite Hd. unfold expires_after_created, get, fill, cell. simpl.
    simplify_map_eq. simpl. by apply bool_decide_eq_true.
  - unfold insert in Hexec. destruct (db !! name) as [t0|]; [|done].
    destruct (insert_row ctx (def t0) (rows t0) data); [|done].
    injection Hexec as <-. rewrite lookup_insert_ne in Ht' by done.
    by simplify_eq.
  - unfold delete_where in Hexec. destruct (db !! name) as [t0|] eqn:Ht0; [|done].
    injection Hexec as <-. destruct (decide (name = "sessions")) as [-> | Hne].
    + rewrite lookup_insert_eq in Ht'. injection Ht' as <-. simpl.
      simplify_eq. apply Forall_forall. intros r [_ Hin]%list_elem_of_filter.
      by apply (proj1 (Forall_forall _ _) Hs r).
    + rewrite lookup_insert_ne in Ht' by done. by simplify_eq.
  - unfold update_where in Hexec. destruct (db !! name) as [t0|] eqn:Ht0; [|done].
    destruct (update_rows (def t0) (rows t0) cond changes) as [rows'|] eqn:Hu;
      [|done].
    injection Hexec as <-. destruct (decide (name = "sessions")) as [-> | Hne].
    + rewrite lookup_insert_eq in Ht'. injection Ht' as <-. simpl.
      simplify_eq. revert Hu. unfold update_rows. cbv zeta.
      destruct (negb (known _ changes)); [done|].
      destruct (find (λ c, negb (forallb (well_typed c) _)) _); [done|].
      destruct (find (λ c, required c && existsb (is_null c) _) _); [done|].
      destruct (find (λ c, keyed c && negb (bool_decide (NoDup (keys c _)))) _);
        [done|].
      intros [= <-]. apply Forall_fmap. eapply Forall_impl; [exact Hs|].
      intros r Hrok. simpl. destruct (cond r); [|done].
      unfold expires_after_created, get in *.
      by rewrite !lookup_union_r.
    + rewrite lookup_insert_ne in Ht' by done. by simplify_eq.
Qed.

(** C8, as the code has it. The schema asks only that [expires_at] be
    not null, and fills [created_at] with the time of the insert when
    the writer leaves it out; it puts no order between the two. A
    session row has [expires_at > created_at] when every insert into
    [sessions] leaves [created_at] to its default and gives an
    [expires_at] later than the time of the insert, and no update touches
    the two columns. *)
Theorem expires_after_created_by_ttl (db : database) :
  written_with_ttl db →
  ∃ t, db !! "sessions" = Some t ∧
       ∀ r, r ∈ rows t →
            expires_after_created r = true ∧ get r "expires_at" ≠ VNull.
Proof.
  intros Hw.
  assert (Hs : sessions_expire_later db).
  { induction Hw as [|ctx st db db' Hw IH Hst Hexec].
    - intros t [= <-]. constructor.
    - eapply ttl_write_expire_later; eauto using written_with_ttl_reachable. }
  destruct (reachable_table db "sessions" {| def := sessions; rows := [] |})
    as (t & Ht & _ & _); [by apply written_with_ttl_reachable | done |].
  exists t. split; [done|]. intros r Hin.
  pose proof (proj1 (Forall_forall _ _) (Hs t Ht) r Hin) as Hok.
  split; [done|]. unfold expires_after_created in Hok.
  destruct (get r "created_at"); try done. by destruct (get r "expires_at").
Qed.

Lemma expires_after_created_by_ttl_witness :
  expires_after_created (fill noon (tbl_columns sessions) session_ttl) = true.
Proof.
  destruct (expires_after_created_by_ttl with_session_ttl) as (t & Ht & Hrows).
  - apply (written_exec noon (Insert "sessions" session_ttl) migrated).
    + apply written_migrated.
    + apply (ttl_insert_session noon session_ttl 1600); reflexivity.
    + reflexivity.
  - injection Ht as <-.
    apply (Hrows (fill noon (tbl_columns sessions) session_ttl)).
    cbn [rows]. apply list_elem_of_singleton. reflexivity.
Defined.

End StoreFacts.

(** ** Facts about the order of a run of the worker *)

Module ProtocolFacts.
Import Str Runner RunnerFacts Protocol.

Lemma steps_snoc b q t e :
  steps b q (t ++ [e]) = steps b q t ≫= λ q', advance b q' e.
Proof. unfold steps. by rewrite foldl_app. Qed.

Lemma steps_none b t : foldl (λ oq e, oq ≫= λ q, advance b q e) None t = None.
Proof. induction t as [|e t IH]; [done|]. exact IH. Qed.

Lemma steps_cons b q e t :
  steps b q (e :: t) = advance b q e ≫= λ q', steps b q' t.
Proof.
  unfold steps. cbn [foldl]. change (Some q ≫= _) with (advance b q e).
  destruct (advance b q e) as [q'|]; [done|]. apply steps_none.
Qed.

Lemma steps_app b q t1 t2 :
  steps b q (t1 ++ t2) = steps b q t1 ≫= λ q', steps b q' t2.
Proof.
  revert q. induction t1 as [|e t1 IH]; intros q; [done|].
  cbn [app]. rewrite !steps_cons. destruct (advance b q e) as [q'|]; [apply IH|done].
Qed.

Lemma fails_with_ok q : fails_with 0 q = q.
Proof. done. Qed.

Lemma fails_with_fail st q : st ≠ 0%N → fails_with st q = Dead st.
Proof. intros H. unfold fails_with, ok. by rewrite bool_decide_eq_false_2. Qed.

Lemma fatal_code_info x : fatal_code ("[entrypoint] " +:+ x) = None.
Proof. unfold fatal_code. cbn. by case_bool_decide. Qed.

Lemma fatal_code_warning x : fatal_code ("[warning] " +:+ x) = None.
Proof. unfold fatal_code. cbn. by case_bool_decide. Qed.

Lemma step_echo b q line :
  running q → fatal_code line = None → advance b q (Echo line) = Some q.
Proof. intros Hq H. destruct q; try done; cbn; unfold echoed; by rewrite H. Qed.

Section Calculus.

Context (w : world) (env : gmap string string).

Lemma at_emit q q' P e s :
  advance (strict w env) q e = Some q' → given w env e →
  at_stage w env q P s → at_stage w env q' P (emit e s).
Proof.
  intros Hst Hg (Hq & Ht & HP).
  unfold at_stage. change (trace (emit e s)) with (trace s ++ [e]).
  split_and!.
  - unfold stage_of in *. rewrite steps_snoc, Hq. exact Hst.
  - apply Forall_app. split; [done|]. by constructor.
  - done.
Qed.

Lemma at_stopped q P o s :
  verdict w env q o → at_stage w env q P s → stopped w env o s.
Proof. intros Hv (Hq & Ht & _). by exists q. Qed.

Lemma at_state q P P' s s' :
  trace s' = trace s → P' (vars s') (files s') →
  at_stage w env q P s → at_stage w env q P' s'.
Proof. intros E HP (Hq & Ht & _). unfold at_stage. by rewrite E. Qed.

Lemma at_mono q (P P' : gmap string string → gset string → Prop) s :
  (∀ K F, P K F → P' K F) → at_stage w env q P s → at_stage w env q P' s.
Proof. intros HP Hs. eapply (at_state _ _ _ s); [done| |done]. apply HP, Hs. Qed.

Lemma triple_bind {A B} P (m : Sh A) Q (k : A → Sh B) R :
  triple w env P m Q → (∀ a, triple w env (Q a) (k a) R) →
  triple w env P (m ≫= k) R.
Proof.
  intros Hm Hk s Hs. rewrite bind_unfold. specialize (Hm s Hs).
  destruct (m s) as [[a|o] s']; [by apply Hk|done].
Qed.

Lemma triple_post {A} P (m : Sh A) Q Q' :
  triple w env P m Q → (∀ a s, Q a s → Q' a s) → triple w env P m Q'.
Proof.
  intros Hm HQ s Hs. specialize (Hm s Hs).
  destruct (m s) as [[a|o] s']; [by apply HQ|done].
Qed.

Lemma triple_pre {A} (P P' : shell → Prop) (m : Sh A) Q :
  (∀ s, P s → P' s) → triple w env P' m Q → triple w env P m Q.
Proof. intros HP Hm s Hs. by apply Hm, HP. Qed.

Lemma triple_vars {A} q (P P' : gmap string string → gset string → Prop)
    (m : Sh A) Q :
  (∀ K F, P K F → P' K F) →
  triple w env (at_stage w env q P') m Q → triple w env (at_stage w env q P) m Q.
Proof.
  intros HP. apply triple_pre. intros s Hs.
  eapply (at_state _ _ _ s); [done| |done]. apply HP, Hs.
Qed.

Lemma triple_pure {A} q P (φ : Prop) (m : Sh A) Q :
  (∀ K F, P K F → φ) →
  (φ → triple w env (at_stage w env q P) m Q) →
  triple w env (at_stage w env q P) m Q.
Proof. intros Hφ Hm s Hs. apply Hm; [|done]. eapply Hφ, Hs. Qed.

Lemma triple_or {A} (P1 P2 : shell → Prop) (m : Sh A) Q :
  triple w env P1 m Q → triple w env P2 m Q →
  triple w env (λ s, P1 s ∨ P2 s) m Q.
Proof. intros H1 H2 s [Hs|Hs]; [by apply H1|by apply H2]. Qed.

Lemma triple_ret {A} P (a : A) : triple w env P (ret a) (λ _, P).
Proof. intros s Hs. exact Hs. Qed.

Lemma triple_value {A} (P : shell → Prop) (a : A) (Q : A → shell → Prop) :
  (∀ s, P s → Q a s) → triple w env P (ret a) Q.
Proof. intros H s Hs. by apply H. Qed.

Lemma triple_exit {A} q P n (Q : A → shell → Prop) :
  verdict w env q (Exited n) → triple w env (at_stage w env q P) (exit n) Q.
Proof. intros Hv s Hs. cbn. by eapply at_stopped. Qed.

Lemma triple_block {A} q P (Q : A → shell → Prop) :
  verdict w env q Forever → triple w env (at_stage w env q P) block Q.
Proof. intros Hv s Hs. cbn. by eapply at_stopped. Qed.

Lemma triple_echo q q' P line :
  advance (strict w env) q (Echo line) = Some q' →
  triple w env (at_stage w env q P) (echo line) (λ _, at_stage w env q' P).
Proof. intros H s Hs. cbn. by eapply at_emit. Qed.

Lemma triple_info q P x :
  running q →
  triple w env (at_stage w env q P) (echo ("[entrypoint] " +:+ x))
    (λ _, at_stage w env q P).
Proof. intros H. by apply triple_echo, step_echo, fatal_code_info. Qed.

Lemma triple_logged q q' P e :
  advance (strict w env) q e = Some q' → given w env e →
  triple w env (at_stage w env q P) (λ s, (Ret (), emit e s))
    (λ _, at_stage w env q' P).
Proof. intros H Hg s Hs. cbn. by eapply at_emit. Qed.

Lemma triple_background q q' P c :
  advance (strict w env) q (Background c) = Some q' → given w env (Background c) →
  triple w env (at_stage w env q P) (background c) (λ _, at_stage w env q' P).
Proof. apply triple_logged. Qed.

Lemma triple_try q P c (Q : N → stage) :
  given w env (Ran c (status w c)) →
  (∀ st, advance (strict w env) q (Ran c st) = Some (Q st)) →
  triple w env (at_stage w env q P) (try w c)
    (λ st s, st = status w c ∧ at_stage w env (Q st) P s).
Proof. intros Hg Hst s Hs. cbn. split; [done|]. by eapply at_emit. Qed.

Lemma triple_sh q q' P c :
  given w env (Ran c (status w c)) →
  (∀ st, advance (strict w env) q (Ran c st) = Some (fails_with st q')) →
  triple w env (at_stage w env q P) (sh w c) (λ _, at_stage w env q' P).
Proof.
  intros Hg Hst s Hs. destruct (decide (status w c = 0%N)) as [E|E].
  - rewrite sh_ok by done. rewrite E in Hg. eapply at_emit; [|apply Hg|done].
    by rewrite Hst.
  - rewrite sh_fail by done.
    eapply (at_stopped (Dead (status w c))); [done|].
    eapply at_emit; [|apply Hg|done]. by rewrite Hst, fails_with_fail.
Qed.

Lemma triple_or_else q q1 q2 P c h :
  given w env (Ran c (status w c)) →
  (∀ st, advance (strict w env) q (Ran c st) = Some (if ok st then q1 else q2)) →
  triple w env (at_stage w env q2 P) h (λ _, at_stage w env q1 P) →
  triple w env (at_stage w env q P) (or_else w c h) (λ _, at_stage w env q1 P).
Proof.
  intros Hg Hst Hh s Hs. unfold or_else. rewrite bind_unfold. cbn.
  pose proof (at_emit _ _ _ _ _ (Hst (status w c)) Hg Hs) as Hs'.
  destruct (ok (status w c)); [done|]. by apply Hh.
Qed.

Lemma triple_getv q P n :
  (∀ K F, P K F → K !! n = None → verdict w env q (Exited 1)) →
  triple w env (at_stage w env q P) (getv n)
    (λ v, at_stage w env q (λ K F, P K F ∧ K !! n = Some v)).
Proof.
  intros Hv s Hs. unfold getv. destruct (vars s !! n) as [v|] eqn:E.
  - eapply (at_state _ _ _ s); [done| |done]. split; [apply Hs|done].
  - eapply at_stopped; [|done]. eapply Hv; [apply Hs|done].
Qed.

Lemma triple_getv_or q P n d :
  triple w env (at_stage w env q P) (getv_or n d)
    (λ v, at_stage w env q (λ K F, P K F ∧ v = resolve K n d)).
Proof.
  intros s Hs. unfold getv_or, resolve.
  destruct (vars s !! n) as [v|] eqn:E; cbn;
    (eapply (at_state _ _ _ s); [done| |done]); (split; [apply Hs|by rewrite E]).
Qed.

Lemma triple_setv q P P' n v :
  (∀ K F, P K F → P' (<[n:=v]> K) F) →
  triple w env (at_stage w env q P) (setv n v) (λ _, at_stage w env q P').
Proof. intros HP s Hs. cbn. eapply (at_state _ _ _ s); [done| |done]. apply HP, Hs. Qed.

Lemma default_to_eq n d s :
  default_to n d s = (Ret (), set_vars (insert n (resolve (vars s) n d)) s).
Proof.
  unfold default_to, resolve. rewrite bind_unfold. unfold getv_or.
  by destruct (vars s !! n).
Qed.

Lemma triple_default_to q P P' n d :
  (∀ K F, P K F → P' (<[n:=resolve K n d]> K) F) →
  triple w env (at_stage w env q P) (default_to n d) (λ _, at_stage w env q P').
Proof.
  intros HP s Hs. rewrite default_to_eq. eapply (at_state _ _ _ s); [done| |done].
  apply HP, Hs.
Qed.

Lemma triple_file_exists q P f :
  triple w env (at_stage w env q P) (file_exists f)
    (λ b, at_stage w env q (λ K F, P K F ∧ b = bool_decide (f ∈ F))).
Proof. intros s Hs. cbn. eapply (at_state _ _ _ s); [done| |done]. split; [apply Hs|done]. Qed.

Lemma triple_create_file q P P' f :
  (∀ K F, P K F → P' K ({[f]} ∪ F)) →
  triple w env (at_stage w env q P) (create_file f) (λ _, at_stage w env q P').
Proof. intros HP s Hs. cbn. eapply (at_state _ _ _ s); [done| |done]. apply HP, Hs. Qed.

Lemma triple_pwd q P :
  triple w env (at_stage w env q P) pwd (λ _, at_stage w env q P).
Proof. intros s Hs. exact Hs. Qed.

Lemma triple_chdir q P d :
  triple w env (at_stage w env q P) (chdir d) (λ _, at_stage w env q P).
Proof. intros s Hs. cbn. eapply (at_state _ _ _ s); [done| |done]. apply Hs. Qed.

Lemma triple_cd q P d :
  given w env (Ran (Cd d) (status w (Cd d))) →
  (∀ st, advance (strict w env) q (Ran (Cd d) st) = Some (fails_with st q)) →
  triple w env (at_stage w env q P) (cd w d) (λ _, at_stage w env q P).
Proof.
  intros Hg Hst. eapply triple_bind; [by apply triple_sh|].
  intros ?. apply triple_chdir.
Qed.

Lemma triple_when P b (m : Sh unit) Q :
  (b = true → triple w env P m Q) → (b = false → ∀ s, P s → Q () s) →
  triple w env P (when b m) Q.
Proof.
  intros Hm Hf. destruct b; cbn; [by apply Hm|].
  intros s Hs. by apply Hf.
Qed.

Lemma triple_guard q P P' b (m : Sh unit) :
  (b = true → triple w env (at_stage w env q P) m (λ _, at_stage w env q P')) →
  (b = false → ∀ K F, P K F → P' K F) →
  triple w env (at_stage w env q P) (when b m) (λ _, at_stage w env q P').
Proof.
  intros Hm Hf. apply triple_when; [done|]. intros Hb s Hs.
  eapply (at_state _ _ _ s); [done| |done]. by apply Hf, Hs.
Qed.

Lemma triple_exists {A X} (P : X → shell → Prop) (m : Sh A) Q :
  (∀ x, triple w env (P x) m Q) → triple w env (λ s, ∃ x, P x s) m Q.
Proof. intros H s [x Hs]. by eapply H. Qed.

Lemma triple_assume {A} (φ : Prop) (P : shell → Prop) (m : Sh A) Q :
  (φ → triple w env P m Q) → triple w env (λ s, φ ∧ P s) m Q.
Proof. intros H s [Hφ Hs]. by apply H. Qed.

Lemma triple_false {A} (m : Sh A) Q : triple w env (λ _, False) m Q.
Proof. intros s []. Qed.

(** A part that always stops: what follows it never runs. *)
Lemma triple_stop {A B} P (m : Sh A) (k : A → Sh B) R :
  triple w env P m (λ _ _, False) → triple w env P (m ≫= k) R.
Proof. intros Hm. eapply triple_bind; [exact Hm|]. intros a. apply triple_false. Qed.

End Calculus.

End ProtocolFacts.

Module PhaseFacts.
Import Str Runner RunnerFacts Protocol ProtocolFacts.

Lemma untouched_insert names env K n v :
  n ∉ names → untouched names env K → untouched names env (<[n:=v]> K).
Proof.
  intros Hn. unfold untouched. rewrite !Forall_forall. intros H x Hx.
  rewrite lookup_insert_ne; [by apply H|]. intros ->. done.
Qed.

Lemma untouched_lookup names env K n :
  n ∈ names → untouched names env K → K !! n = env !! n.
Proof. intros Hn H. by eapply Forall_forall in H. Qed.

Lemma untouched_refl names env : untouched names env env.
Proof. by apply Forall_forall. Qed.

Lemma untouched_sub names names' env K :
  names' ⊆ names → untouched names env K → untouched names' env K.
Proof.
  unfold untouched. rewrite !Forall_forall. intros Hs H x Hx. apply H, Hs, Hx.
Qed.

Lemma resolve_same K K' n d : K !! n = K' !! n → resolve K n d = resolve K' n d.
Proof. unfold resolve. by intros ->. Qed.

(** The group [(.+)] at the end of a regular expression never captures
    the empty string, in either locale. *)
Lemma match_at_rest cs r s caps :
  match_at cs (r ++ [RRest]) s = Some caps →
  ∃ caps' last, caps = caps' ++ [last] ∧ last ≠ EmptyString.
Proof.
  revert s caps. induction r as [|i r IH]; intros s caps.
  - cbn [app match_at]. destruct (span_rest cs s) as [run rest].
    destruct run as [|b run]; [done|]. cbn. intros [= <-].
    by exists [], (String b run).
  - cbn [app match_at]. destruct i.
    + destruct s as [|b s]; [done|]. case_bool_decide; [apply IH|done].
    + destruct (char_size cs s); [done|]. apply IH.
    + destruct (span_seg cs s) as [seg rest]. destruct seg as [|b seg]; [done|].
      destruct (match_at cs (r ++ [RRest]) rest) as [caps0|] eqn:E; [|done].
      intros [= <-]. destruct (IH _ _ E) as (caps' & l & -> & Hl).
      by exists (String b seg :: caps'), l.
    + destruct (span_rest cs s) as [run rest]. destruct run as [|b run]; [done|].
      destruct (match_at cs (r ++ [RRest]) rest) as [caps0|] eqn:E; [|done].
      intros [= <-]. destruct (IH _ _ E) as (caps' & l & -> & Hl).
      by exists (String b run :: caps'), l.
Qed.

Lemma search_rest cs r s caps :
  search cs (r ++ [RRest]) s = Some caps →
  ∃ caps' last, caps = caps' ++ [last] ∧ last ≠ EmptyString.
Proof.
  induction s as [|a s IH]; cbn [search].
  - destruct (match_at cs (r ++ [RRest]) EmptyString) eqn:E; [|done].
    intros [= <-]. by eapply match_at_rest.
  - destruct (match_at cs (r ++ [RRest]) (String a s)) eqn:E.
    + intros [= <-]. by eapply match_at_rest.
    + apply IH.
Qed.

Lemma github_folder cs url owner repo ref folder :
  search cs GITHUB_REGEX url = Some [owner; repo; ref; folder] →
  folder ≠ EmptyString.
Proof.
  intros H.
  assert (∃ r, GITHUB_REGEX = r ++ [RRest]) as [r Hr].
  { eexists. unfold GITHUB_REGEX. rewrite !app_assoc. reflexivity. }
  rewrite Hr in H. apply search_rest in H as (caps' & l & E & Hl).
  change [owner; repo; ref; folder] with ([owner; repo; ref] ++ [folder]) in E.
  apply app_inj_tail in E as [_ ->]. done.
Qed.

Ltac seq := eapply triple_bind; [|intros ?].

Ltac names := by apply (bool_decide_unpack _).

Ltac sublist :=
  let x := fresh in
  intros x; rewrite ?elem_of_cons, ?elem_of_nil; tauto.

Section Phases.

Context (w : world) (env : gmap string string) (url : string).
Context (Hurl : env !! "CODE_URL" = Some url).

Lemma url_of_env : url_of env = url.
Proof. unfold url_of. by rewrite Hurl. Qed.

Lemma fetching_setv folder n v K F :
  n ∉ settings → n ≠ checksum_var → n ≠ "FOLDER" →
  fetching w env folder K F → fetching w env folder (<[n:=v]> K) F.
Proof.
  intros ? ? ? (HU & HS & HF & Hi). split_and!; [|..|done].
  - by apply untouched_insert.
  - by rewrite lookup_insert_ne.
  - by rewrite lookup_insert_ne.
Qed.

Lemma triple_fetch_github folder0 :
  github_tree url = true →
  triple w env (at_stage w env Prep (fetching w env folder0))
    (fetch_github w url) (λ _, at_stage w env Prep (fetched w env)).
Proof.
  intros Hg. unfold fetch_github.
  seq. { by apply triple_info. }
  assert (∀ P, triple w env (at_stage w env Prep P)
    (echo "[fatal] Could not parse GitHub tree URL";; exit 3)
    (λ _ : unit, at_stage w env Prep (fetched w env))) as Hbad.
  { intros P. seq; [by apply triple_echo|]. by apply triple_exit. }
  destruct (search (locale w) GITHUB_REGEX url)
    as [[|owner [|repo [|ref [|folder [|? ?]]]]]|] eqn:E; try apply Hbad.
  pose proof (github_folder _ _ _ _ _ _ E) as Hfolder.
  seq. { apply (triple_setv _ _ _ _ (fetching w env folder0)).
         intros K F. apply fetching_setv; names. }
  seq. { apply (triple_setv _ _ _ _ (fetching w env folder0)).
         intros K F. apply fetching_setv; names. }
  seq. { apply (triple_setv _ _ _ _ (fetching w env folder0)).
         intros K F. apply fetching_setv; names. }
  seq. { apply (triple_setv _ _ _ _ (fetching w env folder)).
         intros K F (HU & HS & HF & Hi). split_and!; [|..|done].
         - apply untouched_insert; [names|done].
         - by rewrite lookup_insert_ne.
         - by rewrite lookup_insert_eq. }
  seq. { by apply triple_info. }
  cbv zeta.
  seq. { by apply triple_info. }
  seq. { by apply triple_sh. }
  seq. { apply (triple_setv _ _ _ _ (fetching w env folder)).
         intros K F. apply fetching_setv; names. }
  seq. { apply (triple_or_else _ _ _ Prep (Failing 3)).
         - split; [|done]. rewrite url_of_env. unfold tarball_of.
           by rewrite E.
         - done.
         - seq; [by apply triple_echo|]. by apply triple_exit. }
  seq. { by apply triple_sh. }
  seq. { apply (triple_setv _ _ _ _ (fetching w env folder)).
         intros K F. apply fetching_setv; names. }
  destruct (bool_decide (find_first w (mktemp_dir w) folder = EmptyString))
    eqn:Hfound.
  { apply triple_stop. cbn [when].
    seq; [by apply triple_echo|].
    seq; [by apply triple_sh|]. by apply triple_exit. }
  apply bool_decide_eq_false_1 in Hfound.
  seq. { by apply triple_guard. }
  seq. { apply (triple_or_else _ _ _ Prep (Failing 3)); [done|done|].
         seq; [by apply triple_echo|].
         seq; [by apply triple_sh|]. by apply triple_exit. }
  seq. { by apply triple_sh. }
  seq. { by apply triple_info. }
  seq. { by apply triple_info. }
  seq. { by apply triple_sh. }
  apply triple_setv. intros K F (HU & HS & HF & Hi). split_and!.
  - apply untouched_insert; [names|done].
  - intros _. exists folder. by rewrite lookup_insert_ne.
  - intros file Hin. left. by subst F.
  - right. rewrite lookup_insert_eq. by subst F.
Qed.

Lemma bundle_of_tree out : bundle_of url = Some out → github_tree url = false.
Proof. unfold bundle_of. by destruct (github_tree url). Qed.

Lemma triple_download out :
  bundle_of url = Some out →
  triple w env (at_stage w env Prep (fetching w env EmptyString))
    (download w url out) (λ _, at_stage w env Prep (fetched w env)).
Proof.
  intros Hout. unfold download.
  seq. { by apply triple_sh. }
  apply triple_create_file. intros K F (HU & HS & HF & Hi). split_and!.
  - done.
  - intros Ht. rewrite url_of_env in Ht. apply bundle_of_tree in Hout. congruence.
  - intros file [->%elem_of_singleton|Hin]%elem_of_union.
    + right. by rewrite url_of_env.
    + left. by subst F.
  - by left.
Qed.

Lemma triple_fetch_code :
  triple w env (at_stage w env Prep (fresh w env))
    (fetch_code w) (λ _, at_stage w env Prep (fetched w env)).
Proof.
  unfold fetch_code.
  seq. { apply triple_cd; [by left|done]. }
  seq. { by apply triple_sh. }
  seq. { apply (triple_setv _ _ _ _ (fetching w env EmptyString)).
         intros K F [-> ->]. split_and!; [|by rewrite lookup_insert_ne
                                          |by rewrite lookup_insert_eq|done].
         apply untouched_insert; [names|apply untouched_refl]. }
  seq. { by apply triple_getv. }
  eapply triple_pure.
  { intros K F [(HU & _) Ha]. 
    rewrite (untouched_lookup settings env) in Ha; [|names|done].
    rewrite Hurl in Ha. injection Ha as Ha. exact Ha. }
  intros <-. eapply triple_vars; [by intros K F [H _]|].
  destruct (github_tree url) eqn:Hg; [by apply triple_fetch_github|].
  destruct (glob "*.zip" url) eqn:Hz.
  { apply triple_download. unfold bundle_of. by rewrite Hg, Hz. }
  destruct (glob "*.tgz" url || glob "*.tar.gz" url) eqn:Ht.
  { apply triple_download. unfold bundle_of. by rewrite Hg, Hz, Ht. }
  destruct (glob "*.git" url || glob "*.git*" url) eqn:Hgit.
  { assert (bundle_of url = None) as Hnone.
    { unfold bundle_of. by rewrite Hg, Hz, Ht, Hgit. }
    eapply triple_post; [by apply triple_sh|].
    intros ? s. apply at_mono.
    intros K F (HU & HS & HF & Hi). split_and!; [done| | |by left].
    - intros Htree. rewrite url_of_env in Htree. congruence.
    - intros file Hin. left. by subst F. }
  seq. { apply triple_echo. apply step_echo; [done|]. apply fatal_code_warning. }
  apply triple_download. unfold bundle_of. by rewrite Hg, Hz, Ht, Hgit.
Qed.

Lemma strict_true :
  strict w env = true →
  checksum_of env ≠ EmptyString ∧
  ("bundle.zip" ∉ initial_files w) ∧ ("bundle.tgz" ∉ initial_files w).
Proof.
  unfold strict. intros [[H1 H2]%andb_prop H3]%andb_prop.
  apply negb_true_iff, bool_decide_eq_false_1 in H1.
  by apply bool_decide_eq_true_1 in H2, H3.
Qed.

Lemma checksum_given K sum :
  K !! checksum_var = env !! checksum_var →
  sum = resolve K checksum_var EmptyString → sum ≠ EmptyString →
  env !! checksum_var = Some sum.
Proof.
  intros <-. unfold resolve. destruct (K !! checksum_var) as [v|]; [|done].
  case_bool_decide; [done|]. by intros ->.
Qed.

Lemma fetched_ready q K F sum :
  fetched w env K F → sum = resolve K checksum_var EmptyString →
  (sum = EmptyString ∧ q = Prep) ∨
  (∃ file, bundle file ∧ q = Checked file ∧ file ∈ F ∧
           (file = "bundle.tgz" → "bundle.zip" ∉ F)) ∨
  (q = Prep ∧ ("bundle.zip" ∉ F) ∧ ("bundle.tgz" ∉ F)) →
  verified w env q K F.
Proof.
  intros (HU & HF & Hall & HS) Hsum Hq. split_and!; [done..|].
  intros (Hne & Hz & Ht)%strict_true file Hfile Hin.
  assert (∀ f, bundle f → f ∉ initial_files w) as Hinit.
  { by intros f [-> | ->]. }
  destruct HS as [HS|[HS Hsub]].
  - destruct Hq as [[-> ->]|[(f & Hf & -> & Hfin & Hzip)|(-> & Hnz & Hnt)]].
    + exfalso. apply Hne. unfold checksum_of.
      by rewrite <-(resolve_same K env) by done.
    + f_equal.
      assert (∀ g, bundle g → g ∈ F → bundle_of (url_of env) = Some g) as Hsame.
      { intros g Hg Hgin. destruct (Hall g Hgin) as [Hi|Hb]; [|done].
        by apply Hinit in Hi. }
      pose proof (Hsame file Hfile Hin) as H1.
      pose proof (Hsame f Hf Hfin) as H2. congruence.
    + by destruct Hfile as [-> | ->].
  - exfalso. apply (Hinit file Hfile). by apply Hsub.
Qed.

Lemma triple_verify_checksum :
  triple w env (at_stage w env Prep (fetched w env)) (verify_checksum w)
    (λ _ s, ∃ q, prepish q ∧ at_stage w env q (verified w env q) s).
Proof.
  unfold verify_checksum.
  seq. { apply triple_getv_or. }
  rename a into sum. case_bool_decide as Hsum.
  { eapply triple_post; [apply triple_ret|]. intros ? s Hs. exists Prep.
    split; [done|]. revert Hs. apply at_mono. intros K F [HP Hs].
    eapply fetched_ready; [done..|]. by left. }
  eapply triple_pure with (φ := env !! checksum_var = Some sum).
  { intros K F [(HU & HF & Hall & [HS|[HS _]]) Hs].
    - by eapply checksum_given.
    - exfalso. apply Hsum. unfold resolve in Hs.
      unfold checksum_var in HS. by rewrite HS in Hs. }
  intros Hgiven.
  seq. { apply triple_file_exists. }
  eapply triple_pure with (φ := a = true → sourced w env "bundle.zip").
  { intros K F [[(_ & _ & Hall & _) _] ->] Hin%bool_decide_eq_true_1.
    by apply Hall. }
  intros Hzip.
  destruct a as [|].
  { eapply triple_post.
    { apply (triple_sh _ _ _ (Checked "bundle.zip")); [|done].
      split_and!; [done..|by left|by apply Hzip]. }
    intros ? s Hs. exists (Checked "bundle.zip"). split; [done|]. revert Hs.
    apply at_mono. intros K F [[HP Hs] Hz].
    eapply fetched_ready; [done..|]. right; left. exists "bundle.zip".
    split_and!; [by left|done| |done].
    symmetry in Hz. by apply bool_decide_eq_true_1 in Hz. }
  seq. { apply triple_file_exists. }
  eapply triple_pure with (φ := a = true → sourced w env "bundle.tgz").
  { intros K F [[[(_ & _ & Hall & _) _] _] ->] Hin%bool_decide_eq_true_1.
    by apply Hall. }
  intros Htgz.
  destruct a as [|]; cbn [when].
  { eapply triple_post.
    { apply (triple_sh _ _ _ (Checked "bundle.tgz")); [|done].
      split_and!; [done..|by right|by apply Htgz]. }
    intros ? s Hs. exists (Checked "bundle.tgz"). split; [done|]. revert Hs.
    apply at_mono. intros K F [[[HP Hs] Hz] Ht].
    symmetry in Hz, Ht.
    apply bool_decide_eq_false_1 in Hz. apply bool_decide_eq_true_1 in Ht.
    eapply fetched_ready; [done..|]. right; left. exists "bundle.tgz".
    split_and!; [by right|done..]. }
  eapply triple_post; [apply triple_ret|]. intros ? s Hs. exists Prep.
  split; [done|]. revert Hs. apply at_mono. intros K F [[[HP Hs] Hz] Ht].
  symmetry in Hz, Ht.
  apply bool_decide_eq_false_1 in Hz, Ht.
  eapply fetched_ready; [done..|]. by right; right.
Qed.

Lemma step_unpack q F c file st :
  prepish q → ready w env q F → bundle file → file ∈ F →
  unpacks c = Some file →
  advance (strict w env) q (Ran c st) =
  Some match c with
       | Unzip _ _ => if ok st then q else Failing 3
       | TarStrip _ _ => q
       | _ => fails_with st q
       end.
Proof.
  intros Hq Hr Hfile Hin Hc. unfold ready in Hr.
  destruct (strict w env).
  - rewrite (Hr eq_refl file Hfile Hin).
    destruct c; try discriminate; injection Hc as ->; cbn;
      by rewrite bool_decide_eq_true_2.
  - destruct q; try done; by destruct c.
Qed.

Lemma step_prepish q c st :
  prepish q → (∃ d, c = Cd d ∨ c = LsLa d) →
  advance (strict w env) q (Ran c st) = Some (fails_with st q).
Proof. intros Hq [d [-> | ->]]; by destruct q. Qed.

Lemma step_install q c st :
  prepish q →
  advance (strict w env) q (Ran (BashC c) st) =
  Some (if ok st then Installed else Failing 4).
Proof. intros Hq. by destruct q. Qed.

Lemma verdict_prepish q : prepish q → verdict w env q (Exited 1).
Proof. by destruct q. Qed.

Lemma running_prepish q : prepish q → running q.
Proof. by destruct q. Qed.

Lemma triple_extract_archives q :
  prepish q →
  triple w env (at_stage w env q (verified w env q)) (extract_archives w)
    (λ _, at_stage w env q (extracted env)).
Proof.
  intros Hq. pose proof (running_prepish q Hq) as Hrun.
  unfold extract_archives.
  seq. { apply triple_file_exists. }
  eapply triple_pure with
    (φ := a = true →
          sourced w env "bundle.zip" ∧
          ∀ st, advance (strict w env) q (Ran (Unzip "bundle.zip" "src") st) =
                Some (if ok st then q else Failing 3)).
  { intros K F [(_ & _ & Hall & Hr) ->] Hin%bool_decide_eq_true_1.
    split; [by apply Hall|]. intros st.
    exact (step_unpack q F (Unzip "bundle.zip" "src") "bundle.zip" st Hq Hr
             (or_introl eq_refl) Hin eq_refl). }
  intros Hzip. eapply triple_vars; [by intros K F [H _]|].
  seq. { apply triple_guard; [|done]. intros ->.
         destruct (Hzip eq_refl) as [Hsrc Hadv].
         apply (triple_or_else _ _ _ q (Failing 3)); [done|by apply Hadv|].
         seq; [by apply triple_echo|]. by apply triple_exit. }
  seq. { apply triple_file_exists. }
  eapply triple_pure with
    (φ := a1 = true →
          sourced w env "bundle.tgz" ∧
          ∀ st,
            advance (strict w env) q (Ran (TarStrip "bundle.tgz" "src") st) = Some q ∧
            advance (strict w env) q (Ran (TarPlain "bundle.tgz" "src") st) =
              Some (fails_with st q)).
  { intros K F [(_ & _ & Hall & Hr) ->] Hin%bool_decide_eq_true_1.
    split; [by apply Hall|]. intros st.
    split.
    - exact (step_unpack q F (TarStrip "bundle.tgz" "src") "bundle.tgz" st Hq Hr
               (or_intror eq_refl) Hin eq_refl).
    - exact (step_unpack q F (TarPlain "bundle.tgz" "src") "bundle.tgz" st Hq Hr
               (or_intror eq_refl) Hin eq_refl). }
  intros Htgz. eapply triple_vars; [by intros K F [H _]|].
  seq. { apply triple_guard; [|done]. intros ->.
         destruct (Htgz eq_refl) as [Hsrc Hadv].
         apply (triple_or_else _ _ _ q q); [done| |].
         - intros st. rewrite (proj1 (Hadv st)). by destruct (ok st).
         - apply triple_sh; [done|]. intros st. apply Hadv. }
  seq. { apply triple_cd; [by right; left|].
         intros st. apply step_prepish; eauto. }
  seq. { apply triple_pwd. }
  seq. { by apply triple_info. }
  seq. { by apply triple_info. }
  seq. { apply triple_sh; [done|]. intros st. apply step_prepish; eauto. }
  seq. { apply triple_getv. intros. by apply verdict_prepish. }
  rename a8 into folder.
  assert (triple w env
    (at_stage w env q (λ K F, verified w env q K F ∧ K !! "FOLDER" = Some folder))
    (ret ()) (λ _, at_stage w env q (extracted env))) as Hret.
  { eapply triple_post; [apply triple_ret|]. intros ? s. apply at_mono.
    by intros K F [(H & _) _]. }
  destruct (src_listing w) as [|[name [|]] [|? ?]]; try apply Hret.
  eapply triple_pure with
    (φ := folder = EmptyString → github_tree (url_of env) = false).
  { intros K F [(_ & Hf & _) HK] ->. unfold in_folder in Hf.
    destruct (github_tree (url_of env)); [|done].
    destruct Hf as (f & Hf & Hne); [done|]. congruence. }
  intros Htree.
  apply triple_guard; [|by intros _ K F [(H & _) _]].
  intros Hfolder%bool_decide_eq_true_1.
  seq. { by apply triple_info. }
  seq. { apply triple_cd; [right; right; by apply Htree|].
         intros st. apply step_prepish; eauto. }
  seq. { apply triple_pwd. }
  seq. { by apply triple_info. }
  eapply triple_post.
  { apply triple_sh; [done|]. intros st. apply step_prepish; eauto. }
  intros ? s. apply at_mono. by intros K F [(H & _) _].
Qed.

Lemma default_step names n d K :
  n ∉ names → untouched (n :: names) env K →
  <[n:=resolve K n d]> K !! n = Some (resolve env n d) ∧
  untouched names env (<[n:=resolve K n d]> K).
Proof.
  intros Hn HU. split.
  - rewrite lookup_insert_eq. f_equal. apply resolve_same.
    eapply untouched_lookup; [|done]. by left.
  - apply untouched_insert; [done|]. revert HU. apply untouched_sub.
    intros x Hx. by right.
Qed.

Lemma install_of_valid :
  fault (locale w) (env !! "INSTALL_CMD") = None →
  fault_of (locale w) (install_of env) = None.
Proof.
  unfold install_of, resolve, fault.
  destruct (env !! "INSTALL_CMD") as [v|]; [|by intros _; destruct (locale w)].
  case_bool_decide; [by intros _; destruct (locale w)|done].
Qed.

Lemma triple_install q :
  fault (locale w) (env !! "INSTALL_CMD") = None → prepish q →
  triple w env (at_stage w env q (extracted env)) (install w)
    (λ _, at_stage w env Installed (installed env)).
Proof.
  intros HI Hq. pose proof (running_prepish q Hq) as Hrun.
  unfold install.
  seq. { by apply triple_info. }
  seq. { apply (triple_default_to _ _ _ _
           (λ K F, K !! "INSTALL_CMD" = Some (install_of env) ∧ installed env K F)).
         intros K F HU. unfold extracted, settings in HU.
         destruct (default_step
                     ["COMMAND"; "TMUX_SESSION"; "TMUX_SOCKET"; "TTYD_PORT";
                      "EXIT_ON_JOB"] "INSTALL_CMD" "npm install" K) as [H1 H2].
         - names.
         - revert HU. apply untouched_sub. sublist.
         - done. }
  seq. { apply triple_getv. intros. by apply verdict_prepish. }
  eapply triple_pure with (φ := a1 = install_of env).
  { intros K F [[H _] H']. congruence. }
  intros ->. eapply triple_vars; [by intros K F [[_ H] _]|].
  seq. { by apply triple_info. }
  seq. { apply (triple_or_else _ _ _ Installed (Failing 4)).
         - split; [done|]. by apply install_of_valid.
         - intros st. by apply step_install.
         - seq; [by apply triple_echo|]. by apply triple_exit. }
  by apply triple_info.
Qed.

Lemma triple_launch :
  fault (locale w) (env !! "COMMAND") = None →
  triple w env (at_stage w env Installed (installed env)) (launch w)
    (λ _, at_stage w env Serving (serving env)).
Proof.
  intros HC. unfold launch.
  seq. { by apply triple_getv. }
  rename a into command.
  eapply triple_pure with (φ := env !! "COMMAND" = Some command).
  { intros K F [HU HK]. rewrite <-HK. symmetry.
    eapply untouched_lookup; [|done]. names. }
  intros Hcommand. eapply triple_vars; [by intros K F [H _]|].
  seq. { by apply triple_info. }
  seq. { apply triple_getv_or. }
  seq. { apply (triple_setv _ _ _ _ (installed env)).
         intros K F [HU _]. apply untouched_insert; [names|done]. }
  seq. { by apply triple_sh. }
  seq. { by apply triple_sh. }
  seq. { apply (triple_default_to _ _ _ _ (installed env)).
         intros K F HU. apply untouched_insert; [names|done]. }
  seq. { apply (triple_default_to _ _ _ _
           (λ K F, K !! "TMUX_SESSION" = Some (session_of env) ∧
                   untouched ["TMUX_SOCKET"; "TTYD_PORT"; "EXIT_ON_JOB"] env K)).
         intros K F HU. apply default_step; [names|].
         revert HU. apply untouched_sub. sublist. }
  seq. { apply (triple_default_to _ _ _ _
           (λ K F, K !! "TMUX_SESSION" = Some (session_of env) ∧
                   K !! "TMUX_SOCKET" = Some (socket_of env) ∧
                   untouched ["TTYD_PORT"; "EXIT_ON_JOB"] env K)).
         intros K F [HS HU]. split; [by rewrite lookup_insert_ne|].
         apply default_step; [names|done]. }
  seq. { apply (triple_default_to _ _ _ _
           (λ K F, K !! "TMUX_SESSION" = Some (session_of env) ∧
                   K !! "TMUX_SOCKET" = Some (socket_of env) ∧
                   K !! "TTYD_PORT" = Some (port_of env) ∧
                   untouched ["EXIT_ON_JOB"] env K)).
         intros K F (HS & HK & HU).
         do 2 (split; [by rewrite lookup_insert_ne|]).
         apply default_step; [names|done]. }
  seq. { apply (triple_default_to _ _ _ _
           (λ K F, K !! "TMUX_SESSION" = Some (session_of env) ∧
                   K !! "TMUX_SOCKET" = Some (socket_of env) ∧
                   K !! "TTYD_PORT" = Some (port_of env) ∧
                   K !! "EXIT_ON_JOB" = Some (exit_on_job_of env))).
         intros K F (HS & HK & HT & HU).
         do 3 (split; [by rewrite lookup_insert_ne|]).
         apply (default_step []); [names|done]. }
  seq. { by apply triple_getv. }
  seq. { by apply triple_getv. }
  seq. { by apply triple_getv. }
  rename a9 into session, a10 into socket, a11 into port.
  eapply triple_pure with
    (φ := session = session_of env ∧ socket = socket_of env ∧ port = port_of env).
  { intros K F [[[(HS & HK & HT & HE) H1] H2] H3]. split_and!; congruence. }
  intros (-> & -> & ->).
  eapply triple_vars; [intros K F [[[H _] _] _]; exact H|].
  seq. { apply (triple_setv _ _ _ _
           (λ K F, serving env K F ∧ K !! "exit_file" = Some (exit_path env))).
         intros K F (HS & HK & HT & HE). unfold serving.
         rewrite lookup_insert_eq, !lookup_insert_ne by done. done. }
  seq. { by apply triple_getv. }
  eapply triple_pure with (φ := a10 = exit_path env).
  { intros K F [[_ H] H']. congruence. }
  intros ->. eapply triple_vars; [by intros K F [[H _] _]|].
  seq. { by apply triple_info. }
  seq. { apply (triple_sh _ _ _ Started); [|done].
         split_and!; [done..|]. exists command. split_and!; [done| |done].
         by rewrite Hcommand in HC. }
  seq. { by apply triple_info. }
  seq. { by apply triple_background. }
  seq. { by apply triple_info. }
  seq. { by apply triple_info. }
  by apply triple_background.
Qed.

Lemma triple_monitor P n :
  triple w env (at_stage w env Serving P)
    (monitor w (socket_of env) (session_of env) n)
    (λ _, at_stage w env Serving P).
Proof.
  induction n as [|n IH]; cbn [monitor].
  - by apply triple_logged.
  - seq. { by apply triple_logged. }
    seq. { by apply triple_sh. }
    apply IH.
Qed.

Lemma triple_collect_job_code P :
  triple w env (at_stage w env Serving P) (collect_job_code w (exit_path env))
    (λ code, at_stage w env Serving
               (λ K F, P K F ∧ exit_status code = job_status w)).
Proof.
  unfold collect_job_code, job_status. destruct (exit_file w) as [| |content].
  - apply triple_value. intros s. apply at_mono.
    intros K F HP. split; [done|]. by vm_compute.
  - seq. { by apply triple_logged. }
    seq. { by apply triple_info. }
    apply triple_value. intros s. apply at_mono.
    intros K F HP. split; [done|]. by vm_compute.
  - seq. { by apply triple_logged. }
    seq. { by apply triple_info. }
    apply triple_value. intros s. apply at_mono.
    intros K F HP. by split.
Qed.

Lemma triple_wait_ttyd P :
  (ttyd_exit w = None → ending w env = Forever) →
  triple w env (at_stage w env Serving P) (wait_ttyd w)
    (λ st, at_stage w env Serving (λ K F, P K F ∧ ttyd_exit w = Some st)).
Proof.
  intros Hend. unfold wait_ttyd. destruct (ttyd_exit w) as [st|] eqn:E.
  - intros s Hs. cbn. eapply (at_emit _ _ Serving); [done|done|].
    revert Hs. by apply at_mono.
  - apply triple_block. cbn. by rewrite Hend.
Qed.

Lemma triple_supervise (Q : unit → shell → Prop) :
  triple w env (at_stage w env Serving (serving env)) (supervise w) Q.
Proof.
  unfold supervise.
  seq. { apply triple_getv. intros K F (H & _) HN. congruence. }
  seq. { apply triple_getv. intros K F [(_ & H & _) _] HN. congruence. }
  seq. { apply triple_getv. intros K F [[(_ & _ & H & _) _] _] HN. congruence. }
  seq. { apply triple_getv. intros K F [[[(_ & _ & _ & H) _] _] _] HN. congruence. }
  rename a into exit_on_job.
  eapply triple_pure with
    (φ := exit_on_job = exit_on_job_of env ∧ a0 = socket_of env ∧
          a1 = session_of env ∧ a2 = exit_path env).
  { intros K F [[[[(H1 & H2 & H3 & H4) ?] ?] ?] ?]. split_and!; congruence. }
  intros (-> & -> & -> & ->).
  eapply triple_vars; [intros K F [[[[H _] _] _] _]; exact H|].
  case_bool_decide as Hkeep.
  { apply triple_stop. cbn [when].
    seq. { by apply triple_info. }
    seq. { apply triple_wait_ttyd. intros E. unfold ending.
           by rewrite bool_decide_eq_true_2, E. }
    rename a0 into st.
    eapply triple_pure with (φ := ending w env = Exited st).
    { intros K F [_ E]. unfold ending. by rewrite bool_decide_eq_true_2, E. }
    intros Hend. destruct (ok st) eqn:Hst; cbn [negb when].
    - apply bool_decide_eq_true_1 in Hst. subst st.
      seq. { apply triple_ret. }
      apply triple_exit. by cbn.
    - apply triple_stop. apply triple_exit. by cbn. }
  cbn [when].
  seq. { apply triple_ret. }
  destruct (job_polls w) as [n|] eqn:Hpolls.
  2:{ apply triple_stop, triple_block. cbn. unfold ending.
      by rewrite bool_decide_eq_false_2, Hpolls. }
  seq. { apply triple_monitor. }
  seq. { by apply triple_info. }
  seq. { apply triple_collect_job_code. }
  rename a2 into job_code. cbv beta.
  seq. { apply (triple_try _ _ _ _ _ (λ _, Serving)); done. }
  eapply triple_pre with (P' := at_stage w env Serving _); [by intros s [_ H]|].
  seq. { apply triple_wait_ttyd. intros E. unfold ending.
         rewrite bool_decide_eq_false_2, Hpolls, E; done. }
  eapply triple_pure with (φ := ending w env = Exited (exit_status job_code)).
  { intros K F [[_ ->] E]. unfold ending.
    by rewrite bool_decide_eq_false_2, Hpolls, E. }
  intros Hend.
  seq. { by apply triple_info. }
  apply triple_exit. by cbn.
Qed.

(** From the first line after the checks of the inputs to the end. *)
Lemma triple_after_inputs (Q : unit → shell → Prop) :
  fault (locale w) (env !! "COMMAND") = None → fault (locale w) (env !! "INSTALL_CMD") = None →
  triple w env (at_stage w env Prep (fresh w env))
    (fetch_code w;; verify_checksum w;; extract_archives w;; install w;;
     launch w;; supervise w) Q.
Proof.
  intros HC HI.
  seq. { apply triple_fetch_code. }
  seq. { apply triple_verify_checksum. }
  apply triple_exists. intros q. apply triple_assume. intros Hq.
  seq. { by apply triple_extract_archives. }
  seq. { by apply triple_install. }
  seq. { by apply triple_launch. }
  apply triple_supervise.
Qed.

End Phases.

Lemma fatal_code_validation msg : validation_fatal msg → fatal_code msg = Some 1%N.
Proof. by intros [-> | ->]. Qed.

(** Every run stops, at a stage the automaton leads to and with the
    outcome of that stage, and every command was given what [given]
    says. *)
Lemma run_stopped w env :
  ∃ o, (run w env).1 = Halt o ∧ stopped w env o (run w env).2.
Proof.
  assert (∀ o s, check_inputs w (start w env) = (Halt o, s) → stopped w env o s →
            ∃ o, (run w env).1 = Halt o ∧ stopped w env o (run w env).2) as Hin.
  { intros o s E Hs. apply (run_stops_at_inputs w) in E. rewrite E. by exists o. }
  pose proof (check_inputs_eq w (start w env)) as E. cbn [vars start] in E.
  destruct (env !! "CODE_URL") as [url|] eqn:Hurl.
  2:{ eapply Hin; [done|]. by exists Prep. }
  cbv zeta in E.
  assert (stage_of (strict w env) [url_line url] = Some Prep) as Hline.
  { change (advance (strict w env) Prep
              (Echo ("[entrypoint] " +:+ ("CODE_URL=" +:+ url))) = Some Prep).
    apply step_echo; [done|apply fatal_code_info]. }
  case_bool_decide as Hempty.
  { eapply Hin; [done|]. exists (Failing 2). split_and!; [|done|].
    - change (trace _) with ([url_line url] ++ [Echo "[fatal] CODE_URL is required"]).
      unfold stage_of in *. by rewrite steps_snoc, Hline.
    - by repeat constructor. }
  assert (∀ msg, validation_fatal msg →
            stopped w env (Exited 1)
              (emit (Echo msg) (emit (url_line url) (start w env)))) as Hmsg.
  { intros msg Hmsg. exists (Failing 1). split_and!; [|done|].
    - change (trace _) with ([url_line url] ++ [Echo msg]).
      unfold stage_of in *. rewrite steps_snoc, Hline. cbn.
      by rewrite fatal_code_validation.
    - by repeat constructor. }
  destruct (fault (locale w) (env !! "COMMAND")) as [msg|] eqn:HC.
  { eapply Hin; [done|]. by eapply Hmsg, fault_fatal. }
  destruct (fault (locale w) (env !! "INSTALL_CMD")) as [msg|] eqn:HI.
  { eapply Hin; [done|]. by eapply Hmsg, fault_fatal. }
  rewrite (run_after_inputs w env url) by done.
  pose proof (triple_after_inputs w env url Hurl (λ _ _, False) HC HI
                (emit (url_line url) (start w env))) as H.
  destruct ((fetch_code w;; _) _) as [[a|o] s'].
  - destruct H. split_and!; [done|by repeat constructor|done].
  - exists o. split; [done|]. apply H. split_and!; [done|by repeat constructor|done].
Qed.

End PhaseFacts.

Module AutomatonFacts.
Import Str Runner RunnerFacts Protocol ProtocolFacts.

Lemma lookup_snoc_last {A} (t : list A) (e : A) : (t ++ [e]) !! length t = Some e.
Proof. by rewrite (list_lookup_middle t [] e). Qed.

Lemma lookup_snoc_old {A} (t : list A) (e x : A) j :
  t !! j = Some x → (t ++ [e]) !! j = Some x.
Proof. intros H. by apply lookup_app_l_Some. Qed.

Lemma steps_split b q t i e q' :
  steps b q t = Some q' → t !! i = Some e →
  ∃ q1 q2, steps b q (take i t) = Some q1 ∧ advance b q1 e = Some q2 ∧
           steps b q2 (drop (S i) t) = Some q'.
Proof.
  intros Hq Hi. rewrite <-(take_drop_middle t i e Hi) in Hq.
  rewrite steps_app in Hq.
  destruct (steps b q (take i t)) as [q1|]; [|done].
  change (steps b q1 (e :: drop (S i) t) = Some q') in Hq.
  rewrite steps_cons in Hq.
  destruct (advance b q1 e) as [q2|] eqn:E; [|done]. by exists q1, q2.
Qed.

Lemma steps_dead b k t q : steps b (Dead k) t = Some q → t = [] ∧ q = Dead k.
Proof.
  destruct t as [|e t]; [by intros [= <-]|]. by rewrite steps_cons.
Qed.

Ltac step_cases H :=
  cbn in H; unfold echoed, fails_with, ok in H;
  repeat case_match; repeat case_bool_decide; simplify_eq.

Lemma clean_snoc t e : Forall clean t → clean e → Forall clean (t ++ [e]).
Proof. intros Ht He. apply Forall_app. split; [done|by constructor]. Qed.

Ltac witness :=
  repeat match goal with
    | H : ∃ _, _ |- _ => destruct H as [? H]
    | H : _ ∧ _ |- _ => destruct H as [? ?]
    end;
  repeat split;
  first [ by (repeat eexists; eauto using lookup_snoc_old)
        | by (repeat eexists; apply lookup_snoc_last) ].

(** One event further, the trace holds what the new stage says. *)
Lemma step_history b q e q' t :
  advance b q e = Some q' → history q t → history q' (t ++ [e]).
Proof.
  intros Hst [Hclean Hq].
  assert (running q' → running q ∧ clean e) as Hrun.
  { destruct q; destruct e as [line|c st|c]; try destruct c; step_cases Hst;
      cbn; intros ?; try done; split; try done; auto. }
  split.
  { intros Hq'. destruct (Hrun Hq') as [? ?]. apply clean_snoc; auto. }
  clear Hrun Hclean.
  destruct q; destruct e as [line|c st|c]; try destruct c; step_cases Hst;
    try exact Logic.I; cbn in Hq |- *; witness.
Qed.

Lemma stage_history b t q : stage_of b t = Some q → history q t.
Proof.
  revert q. induction t as [|e t IH] using rev_ind; intros q.
  - intros [= <-]. split; [by constructor|done].
  - unfold stage_of in *. rewrite steps_snoc.
    destruct (steps b Prep t) as [q1|]; [|done]. intros Hst.
    eapply step_history; [exact Hst|]. by apply IH.
Qed.

Lemma step_set_e b q c st q' :
  advance b q (Ran c st) = Some q' → set_e c = true → st ≠ 0%N → q' = Dead st.
Proof. intros H Hc Hst. destruct q; destruct c; by step_cases H. Qed.

Lemma step_job b q socket session script st q' :
  advance b q (Ran (TmuxNewSession socket session script) st) = Some q' →
  q = Installed.
Proof. intros H. by destruct q. Qed.

Lemma step_unpack_strict q c file st q' :
  advance true q (Ran c st) = Some q' → unpacks c = Some file → q = Checked file.
Proof.
  intros H Hc. destruct q; destruct c; try done; cbn in H, Hc;
    injection Hc as ->; destruct (decide (file = file0)) as [->|Hne]; try done;
    by rewrite bool_decide_eq_false_2 in H.
Qed.

Lemma step_install_fail b q c st q' :
  advance b q (Ran (BashC c) st) = Some q' → st ≠ 0%N → q' = Failing 4.
Proof. intros H Hst. destruct q; by step_cases H. Qed.

Lemma step_fatal b q line k q' :
  advance b q (Echo line) = Some q' → fatal_code line = Some k → q' = Failing k.
Proof. intros H Hk. destruct q; step_cases H; congruence. Qed.


(** After a failure the script has announced: lines it echoes and the
    removal of the temporary directory, nothing else. *)
Lemma steps_failing w env b k t q :
  steps b (Failing k) t = Some q → Forall (given w env) t →
  Forall (aftermath w) t ∧
  (k ≠ 3%N → q = Failing k ∧ Forall only_echo t) ∧
  (q = Failing k ∨
   ∃ st, st ≠ 0%N ∧ q = Dead st ∧ last t = Some (Ran (RmRf (mktemp_dir w)) st)).
Proof.
  induction t as [|e t IH]; [intros [= <-] _; by repeat split; auto|].
  rewrite steps_cons. intros Hst [Hg Hgs]%Forall_cons.
  destruct (advance b (Failing k) e) as [q1|] eqn:E; [|done].
  destruct e as [line|c st|c]; try destruct c; step_cases E.
  - destruct (IH Hst Hgs) as (H1 & H2 & H3). split_and!.
    + by constructor.
    + intros Hk. destruct (H2 Hk). split; [done|]. by constructor.
    + destruct H3 as [->|(st & ? & -> & Hl)]; [by left|]. right. exists st.
      split_and!; [done..|]. destruct t; [done|exact Hl].
  - cbn in Hg. subst dir. destruct (IH Hst Hgs) as (H1 & H2 & H3). split_and!.
    + by constructor.
    + done.
    + destruct H3 as [->|(st' & ? & -> & Hl)]; [by left|]. right. exists st'.
      split_and!; [done..|]. destruct t; [done|exact Hl].
  - cbn in Hg. subst dir. apply steps_dead in Hst as [-> ->]. split_and!.
    + by repeat constructor.
    + done.
    + right. by exists st.
Qed.


End AutomatonFacts.

Module WorkerFacts.
Import Str Runner RunnerFacts Protocol ProtocolFacts PhaseFacts AutomatonFacts.

Lemma run_staged w env :
  ∃ o q, (run w env).1 = Halt o ∧
         stage_of (strict w env) (trace (run w env).2) = Some q ∧
         verdict w env q o ∧
         Forall (given w env) (trace (run w env).2) ∧
         history q (trace (run w env).2).
Proof.
  destruct (run_stopped w env) as (o & Ho & q & Hq & Hv & Hg).
  exists o, q. split_and!; [done..|]. by eapply stage_history.
Qed.

Lemma run_given w env i e :
  trace (run w env).2 !! i = Some e → given w env e.
Proof.
  destruct (run_staged w env) as (o & q & _ & _ & _ & Hg & _).
  intros Hi. by eapply Forall_lookup_1 in Hg.
Qed.

(** The run at position [i] of its trace: the stage before, the stage
    after, and what the rest leads to. *)
Lemma run_at w env i e :
  trace (run w env).2 !! i = Some e →
  ∃ o q q1 q2,
    (run w env).1 = Halt o ∧ verdict w env q o ∧
    stage_of (strict w env) (take i (trace (run w env).2)) = Some q1 ∧
    history q1 (take i (trace (run w env).2)) ∧
    advance (strict w env) q1 e = Some q2 ∧
    steps (strict w env) q2 (drop (S i) (trace (run w env).2)) = Some q.
Proof.
  intros Hi. destruct (run_staged w env) as (o & q & Ho & Hq & Hv & _ & _).
  destruct (steps_split _ _ _ _ _ _ Hq Hi) as (q1 & q2 & H1 & H2 & H3).
  exists o, q, q1, q2. split_and!; [done..| |done|done].
  by eapply stage_history.
Qed.


Lemma last_drop {A} (x : A) n l : last (drop n l) = Some x → last l = Some x.
Proof.
  intros H. rewrite <-(take_drop n l), last_app. by rewrite H.
Qed.

Lemma fault_of_none cs c :
  fault_of cs c = None → dangerous c = false ∧ char_length cs c ≤ 500.
Proof.
  unfold fault_of. destruct (dangerous c); [done|].
  case_bool_decide; [done|]. intros _. split; [done|lia].
Qed.

Lemma append_cons x a b : String x a +:+ b = String x (a +:+ b).
Proof. reflexivity. Qed.

Lemma has_prefix_app p a b : has_prefix p a = true → has_prefix p (a +:+ b) = true.
Proof.
  revert a. induction p as [|x p IH]; intros a; [done|].
  destruct a as [|y a]; [done|]. rewrite append_cons. cbn [has_prefix].
  rewrite !andb_true_iff. intros [? ?]. split; [done|]. by apply IH.
Qed.

Lemma has_prefix_here n s : has_prefix n (n +:+ s) = true.
Proof.
  induction n as [|x n IH]; [done|]. rewrite append_cons. cbn [has_prefix].
  rewrite IH. by rewrite bool_decide_eq_true_2.
Qed.

Lemma contains_unfold n hay :
  contains n hay =
  has_prefix n hay ||
  match hay with EmptyString => false | String _ h => contains n h end.
Proof. by destruct hay. Qed.

Lemma contains_here n s : contains n (n +:+ s) = true.
Proof. by rewrite contains_unfold, has_prefix_here. Qed.

Lemma contains_app_r n p s : contains n s = true → contains n (p +:+ s) = true.
Proof.
  intros H. induction p as [|x p IH]; [done|].
  rewrite append_cons, contains_unfold, IH. apply orb_true_r.
Qed.

Lemma contains_app_l n a b : contains n a = true → contains n (a +:+ b) = true.
Proof.
  induction a as [|x a IH]; rewrite (contains_unfold n).
  - rewrite orb_false_r. intros H.
    by rewrite contains_unfold, (has_prefix_app _ _ _ H).
  - intros [H|H]%orb_true_iff; rewrite contains_unfold.
    + by rewrite (has_prefix_app _ _ b H).
    + rewrite append_cons, (IH H). apply orb_true_r.
Qed.

(** The name of the session stands as it is in the script that tmux is
    given. *)
Lemma job_script_session command session :
  contains session (job_script command ("/tmp/" +:+ session +:+ "_exit_code")) = true.
Proof.
  unfold job_script.
  apply (contains_app_r _ "bash -c "), (contains_app_r _ dq),
    (contains_app_r _ command), (contains_app_r _ dq),
    (contains_app_r _ "; code=$?; echo $code > "), (contains_app_r _ dq),
    contains_app_l, (contains_app_r _ "/tmp/"), contains_here.
Qed.

Lemma lines_from_hex cur sum t :
  all_hex sum = true →
  lines_from cur (sum +:+ t) = lines_from (λ x, cur (sum +:+ x)) t.
Proof.
  revert cur. induction sum as [|a sum IH]; intros cur; [done|].
  rewrite append_cons. cbn [all_hex lines_from]. intros [Ha Hs]%andb_true_iff.
  rewrite bool_decide_eq_false_2 by (intros ->; done).
  by rewrite IH.
Qed.

Lemma substring_append s t : String.substring 0 (String.length s) (s +:+ t) = s.
Proof.
  induction s as [|a s IH]; [by destruct t|].
  rewrite append_cons. cbn [String.length String.substring]. by rewrite IH.
Qed.

Lemma drop_bytes_append s t : drop_bytes (String.length s) (s +:+ t) = t.
Proof.
  induction s as [|a s IH]; [by destruct t|].
  rewrite append_cons. by cbn [String.length drop_bytes].
Qed.

(** With a SHA-256 in hexadecimal for a checksum, what lines 96 and 98
    write for [sha256sum -c -] is one line of the plain form: it names
    the bundle, with the checksum for its digest. *)
Lemma check_input_line sum file :
  sha256_hex sum = true → bundle file →
  lines (check_input sum file) = [check_input sum file] ∧
  check_line (check_input sum file) = Some (sum, file).
Proof.
  intros Hsum Hfile. pose proof Hsum as H.
  unfold sha256_hex in H. apply andb_true_iff in H as [Hl%bool_decide_eq_true Hhex].
  unfold check_input. split.
  - unfold lines. rewrite lines_from_hex by done. by destruct Hfile as [-> | ->].
  - assert (String.substring 0 64 (sum +:+ "  " +:+ file) = sum) as E1.
    { rewrite <-Hl. apply substring_append. }
    assert (drop_bytes 64 (sum +:+ "  " +:+ file) = "  " +:+ file) as E2.
    { rewrite <-Hl. apply drop_bytes_append. }
    unfold check_line. cbv zeta. rewrite E1, E2, Hsum.
    by destruct Hfile as [-> | ->].
Qed.

Lemma bundle_of_bundle url out : bundle_of url = Some out → bundle out.
Proof.
  unfold bundle_of, bundle. repeat case_match; intros [= <-]; auto.
Qed.

Lemma strict_intro w env :
  checksum_of env ≠ EmptyString →
  "bundle.zip" ∉ initial_files w → "bundle.tgz" ∉ initial_files w →
  strict w env = true.
Proof.
  intros H1 H2 H3. unfold strict.
  by rewrite bool_decide_eq_false_2, !bool_decide_eq_true_2.
Qed.


(** X2: the tmux session of the job is created only after the install
    command, which is [INSTALL_CMD] or [npm install], has succeeded, and
    only when up to then no fatal line was printed and no command failed
    but those the script tolerates. *)
Theorem job_started_after_install (w : world) (env : gmap string string)
    (i : nat) (socket session script : string) (st : N) :
  trace (run w env).2 !! i = Some (Ran (TmuxNewSession socket session script) st) →
  (∃ j, j < i ∧
        trace (run w env).2 !! j = Some (Ran (BashC (install_of env)) 0)) ∧
  Forall clean (take i (trace (run w env).2)).
Proof.
  intros Hi.
  destruct (run_at w env i _ Hi) as (o & q & q1 & q2 & _ & _ & _ & Hh & Hst & _).
  apply step_job in Hst as ->. destruct Hh as [Hc (j & c & Hj)].
  split; [|by apply Hc].
  apply lookup_take_Some in Hj as [Hj Hlt]. exists j. split; [done|].
  destruct (run_given w env j _ Hj) as [-> _]. done.
Qed.

Lemma job_started_after_install_witness :
  (∃ j, j < 18 ∧
        trace (run calm sample_zip).2 !! j =
          Some (Ran (BashC (install_of sample_zip)) 0)) ∧
  Forall clean (take 18 (trace (run calm sample_zip).2)).
Proof.
  apply (job_started_after_install calm sample_zip 18 "/tmp/tmux/tmux.sock" "job"
           (job_script "npm start" "/tmp/job_exit_code") 0).
  vm_compute. reflexivity.
Defined.


(** X3: when the install command fails the script exits with status 4,
    after it, it only echoes, and the job is never started. *)
Theorem install_failure_exits_4 (w : world) (env : gmap string string)
    (i : nat) (c : string) (st : N) :
  trace (run w env).2 !! i = Some (Ran (BashC c) st) → st ≠ 0%N →
  (run w env).1 = Halt (Exited 4) ∧
  Forall only_echo (drop (S i) (trace (run w env).2)).
Proof.
  intros Hi Hne.
  destruct (run_at w env i _ Hi) as (o & q & q1 & q2 & Ho & Hv & _ & _ & Hst & Hq).
  apply step_install_fail in Hst as ->; [|done].
  destruct (steps_failing w env _ _ _ _ Hq) as (_ & H & _).
  { apply Forall_drop. destruct (run_staged w env) as (? & ? & _ & _ & _ & Hg & _).
    exact Hg. }
  destruct H as [-> Hecho]; [done|]. split; [|done].
  destruct Hv as [-> _]. done.
Qed.

Lemma install_failure_exits_4_witness :
  (run (calm_but (BashC "npm install") 7) sample_zip).1 = Halt (Exited 4) ∧
  Forall only_echo
    (drop 13 (trace (run (calm_but (BashC "npm install") 7) sample_zip).2)).
Proof.
  apply (install_failure_exits_4 (calm_but (BashC "npm install") 7) sample_zip
           12 "npm install" 7).
  - vm_compute. reflexivity.
  - discriminate.
Defined.


(** X4: a command that stands on a line of its own and fails is the last
    thing the script does, and the script exits with the status of that
    command ([set -e]); so a checksum that does not match, a download
    or a [cd] that fails is never followed by an extraction, an install
    or a job. *)
Theorem failed_command_ends_run (w : world) (env : gmap string string)
    (i : nat) (c : cmd) (st : N) :
  trace (run w env).2 !! i = Some (Ran c st) → set_e c = true → st ≠ 0%N →
  (run w env).1 = Halt (Exited st) ∧ length (trace (run w env).2) = S i.
Proof.
  intros Hi Hc Hne.
  destruct (run_at w env i _ Hi) as (o & q & q1 & q2 & Ho & Hv & _ & _ & Hst & Hq).
  apply step_set_e in Hst as ->; [|done..].
  apply steps_dead in Hq as [Hnil ->]. destruct Hv as [-> _]. split; [done|].
  apply (f_equal length) in Hnil. rewrite length_drop in Hnil. cbn in Hnil.
  apply lookup_lt_Some in Hi. lia.
Qed.

Lemma failed_command_ends_run_witness :
  let w := calm_but (Sha256sum "0a1b2c" "bundle.zip") 1 in
  (run w sample_zip).1 = Halt (Exited 1) ∧ length (trace (run w sample_zip).2) = 5.
Proof.
  apply (failed_command_ends_run
           (calm_but (Sha256sum "0a1b2c" "bundle.zip") 1) sample_zip 4
           (Sha256sum "0a1b2c" "bundle.zip") 1).
  - vm_compute. reflexivity.
  - reflexivity.
  - discriminate.
Defined.


(** X5: when [CODE_CHECKSUM_SHA256] is a SHA-256 in hexadecimal (64
    digits) and [/work] holds no bundle before the script starts, a
    bundle is only unpacked (by unzip or by tar) after the check of lines
    96-98 has returned 0; and what [sha256sum -c -] was given to read
    there is one line of the plain form, which names that very bundle
    with the given checksum for its digest. *)
Theorem unpack_after_checksum (w : world) (env : gmap string string)
    (i : nat) (c : cmd) (st : N) (file : string) :
  sha256_hex (checksum_of env) = true →
  "bundle.zip" ∉ initial_files w → "bundle.tgz" ∉ initial_files w →
  trace (run w env).2 !! i = Some (Ran c st) → unpacks c = Some file →
  (∃ j, j < i ∧
        trace (run w env).2 !! j = Some (Ran (Sha256sum (checksum_of env) file) 0)) ∧
  lines (check_input (checksum_of env) file) = [check_input (checksum_of env) file] ∧
  check_line (check_input (checksum_of env) file) = Some (checksum_of env, file).
Proof.
  intros Hhex Hz Ht Hi Hc.
  assert (checksum_of env ≠ EmptyString) as Hsum.
  { intros E. rewrite E in Hhex. done. }
  destruct (run_at w env i _ Hi) as (o & q & q1 & q2 & _ & _ & _ & Hh & Hst & _).
  rewrite strict_intro in Hst by done.
  apply (step_unpack_strict _ _ file) in Hst as ->; [|done].
  destruct Hh as [_ (j & sum & Hj)].
  apply lookup_take_Some in Hj as [Hj Hlt].
  destruct (run_given w env j _ Hj) as (Henv & Hne & Hb & _).
  assert (checksum_of env = sum) as Hs.
  { unfold checksum_of, resolve. rewrite Henv. by rewrite bool_decide_eq_false_2. }
  split; [|by apply check_input_line].
  exists j. split; [done|]. by rewrite Hs.
Qed.

Lemma unpack_after_checksum_witness :
  (∃ j, j < 5 ∧
        trace (run calm sample_sum).2 !! j =
          Some (Ran (Sha256sum (checksum_of sample_sum) "bundle.zip") 0)) ∧
  lines (check_input (checksum_of sample_sum) "bundle.zip") =
    [check_input (checksum_of sample_sum) "bundle.zip"] ∧
  check_line (check_input (checksum_of sample_sum) "bundle.zip") =
    Some (checksum_of sample_sum, "bundle.zip").
Proof.
  apply (unpack_after_checksum calm sample_sum 5 (Unzip "bundle.zip" "src") 0
           "bundle.zip").
  - vm_compute. reflexivity.
  - apply not_elem_of_empty.
  - apply not_elem_of_empty.
  - vm_compute. reflexivity.
  - reflexivity.
Defined.


(** X6: the script exits with status 0 only when the install had
    succeeded, the job was started, ttyd was launched on the configured
    port, socket and session, and nothing failed on the way. *)
Theorem exit_zero_served (w : world) (env : gmap string string) :
  (run w env).1 = Halt (Exited 0) →
  Forall clean (trace (run w env).2) ∧
  (∃ j, trace (run w env).2 !! j = Some (Ran (BashC (install_of env)) 0)) ∧
  (∃ j, trace (run w env).2 !! j =
          Some (Background (Ttyd (port_of env) (socket_of env) (session_of env)))) ∧
  ending w env = Exited 0.
Proof.
  intros H0. destruct (run_staged w env) as (o & q & Ho & Hq & Hv & Hg & Hh).
  rewrite H0 in Ho. injection Ho as <-.
  destruct q; unfold verdict in Hv; try done;
    try match type of Hv with
        | _ ∧ _ => destruct Hv as [Hv Hk]; by injection Hv as <-
        end.
  destruct Hh as (Hc & (j & c & Hj) & _ & (j' & p & so & se & Hj')).
  split_and!; [by apply Hc| | |done].
  - exists j. by destruct (Forall_lookup_1 _ _ _ _ Hg Hj) as [-> _].
  - exists j'. by destruct (Forall_lookup_1 _ _ _ _ Hg Hj') as (-> & -> & ->).
Qed.

Lemma exit_zero_served_witness :
  Forall clean (trace (run calm sample_keep).2) ∧
  (∃ j, trace (run calm sample_keep).2 !! j =
          Some (Ran (BashC (install_of sample_keep)) 0)) ∧
  (∃ j, trace (run calm sample_keep).2 !! j =
          Some (Background (Ttyd (port_of sample_keep) (socket_of sample_keep)
                              (session_of sample_keep)))) ∧
  ending calm sample_keep = Exited 0.
Proof.
  apply (exit_zero_served calm sample_keep). vm_compute. reflexivity.
Defined.


(** X7: after a line that announces a failure the script only echoes
    and removes the temporary directory, and it exits with the status
    that goes with the line, or with that of the removal if it fails. *)
Theorem fatal_line_ends_run (w : world) (env : gmap string string)
    (i : nat) (line : string) (k : N) :
  trace (run w env).2 !! i = Some (Echo line) → fatal_code line = Some k →
  Forall (aftermath w) (drop (S i) (trace (run w env).2)) ∧
  ((run w env).1 = Halt (Exited k) ∨
   ∃ st, st ≠ 0%N ∧
         last (trace (run w env).2) = Some (Ran (RmRf (mktemp_dir w)) st) ∧
         (run w env).1 = Halt (Exited st)).
Proof.
  intros Hi Hk.
  destruct (run_at w env i _ Hi) as (o & q & q1 & q2 & Ho & Hv & _ & _ & Hst & Hq).
  apply (step_fatal _ _ _ k) in Hst as ->; [|done].
  destruct (steps_failing w env _ _ _ _ Hq) as (Ha & _ & H).
  { apply Forall_drop. destruct (run_staged w env) as (? & ? & _ & _ & _ & Hg & _).
    exact Hg. }
  split; [done|]. destruct H as [->|(st & Hne & -> & Hl)].
  - left. by destruct Hv as [-> _].
  - right. exists st. split_and!; [done|by eapply last_drop|].
    by destruct Hv as [-> _].
Qed.

Lemma fatal_line_ends_run_witness :
  let w := calm_but (BashC "npm install") 7 in
  Forall (aftermath w) (drop 14 (trace (run w sample_zip).2)) ∧
  ((run w sample_zip).1 = Halt (Exited 4) ∨
   ∃ st, st ≠ 0%N ∧
         last (trace (run w sample_zip).2) = Some (Ran (RmRf (mktemp_dir w)) st) ∧
         (run w sample_zip).1 = Halt (Exited st)).
Proof.
  apply (fatal_line_ends_run (calm_but (BashC "npm install") 7) sample_zip 13
           "[fatal] Install command failed" 4).
  - vm_compute. reflexivity.
  - vm_compute. reflexivity.
Defined.


(** X8: the install command and the job command reach a shell only
    after [validate_command] has passed them: the only script given to
    [/bin/bash -c] is [INSTALL_CMD] or [npm install], the script given
    to tmux is the job script built from [COMMAND], and neither command
    holds a substitution pattern or has more than 500 characters.  The
    name of the session is not validated: [TMUX_SESSION] (or [job])
    stands as it is in the script given to tmux, in the path of the exit
    file. *)
Theorem commands_validated_before_shell (w : world) (env : gmap string string)
    (i : nat) (e : event) :
  trace (run w env).2 !! i = Some e →
  match e with
  | Ran (BashC c) _ =>
      c = install_of env ∧ dangerous c = false ∧ char_length (locale w) c ≤ 500
  | Ran (TmuxNewSession _ _ script) _ =>
      ∃ command, env !! "COMMAND" = Some command ∧
                 script = job_script command
                            ("/tmp/" +:+ session_of env +:+ "_exit_code") ∧
                 dangerous command = false ∧
                 char_length (locale w) command ≤ 500 ∧
                 contains (session_of env) script = true
  | _ => True
  end.
Proof.
  intros Hi. pose proof (run_given w env i e Hi) as Hg.
  destruct e as [|c st|]; [done| |done]. destruct c; try done; unfold given in Hg.
  - destruct Hg as [-> Hf]. split; [done|]. by apply fault_of_none.
  - destruct Hg as (_ & _ & command & Hc & Hf & ->). exists command.
    assert (fault_of (locale w) command = None) as Hf'.
    { cbn in Hf. by case_bool_decide; subst. }
    destruct (fault_of_none _ _ Hf') as [Hd Hl].
    split_and!; [done..|]. apply job_script_session.
Qed.

Lemma commands_validated_before_shell_witness :
  ∃ command, sample_zip !! "COMMAND" = Some command ∧
             job_script "npm start" "/tmp/job_exit_code" =
               job_script command ("/tmp/" +:+ session_of sample_zip +:+ "_exit_code") ∧
             dangerous command = false ∧
             char_length (locale calm) command ≤ 500 ∧
             contains (session_of sample_zip)
               (job_script "npm start" "/tmp/job_exit_code") = true.
Proof.
  apply (commands_validated_before_shell calm sample_zip 18
           (Ran (TmuxNewSession "/tmp/tmux/tmux.sock" "job"
                   (job_script "npm start" "/tmp/job_exit_code")) 0)).
  vm_compute. reflexivity.
Defined.


(** X9: the script downloads from nowhere but [CODE_URL]: curl and git
    are given [CODE_URL] itself, curl saves it as the bundle that the
    first matching pattern of the [case] calls for, git is only used
    when that is none, and the tarball of a GitHub tree URL is the one,
    on api.github.com, of the owner, repository and ref that
    [GITHUB_REGEX] finds in [CODE_URL] in the locale of the runner. *)
Theorem downloads_from_code_url (w : world) (env : gmap string string)
    (i : nat) (e : event) :
  trace (run w env).2 !! i = Some e →
  match e with
  | Ran (Curl url out) _ =>
      env !! "CODE_URL" = Some url ∧ bundle_of url = Some out ∧ bundle out
  | Ran (GitClone url dir) _ =>
      env !! "CODE_URL" = Some url ∧ dir = "src" ∧ bundle_of url = None
  | Ran (CurlTar url _) _ =>
      tarball_of (locale w) (url_of env) = Some url ∧
      has_prefix "https://api.github.com/repos/" url = true
  | _ => True
  end.
Proof.
  intros Hi. pose proof (run_given w env i e Hi) as Hg.
  destruct e as [|c st|]; [done| |done]. destruct c; try done; unfold given in Hg.
  - destruct Hg as [Ht _]. split; [done|]. unfold tarball_of in Ht.
    destruct (search _ _) as [[|? [|? [|? [|? [|? ?]]]]]|]; try done.
    by injection Ht as <-.
  - destruct Hg as [Hu Hb]. split_and!; [done..|]. by apply bundle_of_bundle in Hb.
  - by destruct Hg as (? & ? & ? & ?).
Qed.

Lemma downloads_from_code_url_witness :
  tarball_of (locale calm) (url_of sample_tree) =
    Some "https://api.github.com/repos/x/y/tarball/main" ∧
  has_prefix "https://api.github.com/repos/"
    "https://api.github.com/repos/x/y/tarball/main" = true.
Proof.
  apply (downloads_from_code_url calm sample_tree 7
           (Ran (CurlTar "https://api.github.com/repos/x/y/tarball/main"
                   "/tmp/tmp.a1") 0)).
  vm_compute. reflexivity.
Defined.


(** X10: for a GitHub tree URL the script never enters a directory of
    the code it fetched: it only changes to [/work] and to [/work/src]. *)
Theorem tree_url_stays_in_src (w : world) (env : gmap string string)
    (i : nat) (dir : string) (st : N) :
  github_tree (url_of env) = true →
  trace (run w env).2 !! i = Some (Ran (Cd dir) st) →
  dir = "/work" ∨ dir = "/work/src".
Proof.
  intros Ht Hi. pose proof (run_given w env i _ Hi) as Hg. unfold given in Hg.
  destruct Hg as [?|[?|?]]; [by left|by right|congruence].
Qed.

Lemma tree_url_stays_in_src_witness :
  "/work/src" = "/work" ∨ "/work/src" = "/work/src".
Proof.
  apply (tree_url_stays_in_src calm sample_tree 14 "/work/src" 0).
  - vm_compute. reflexivity.
  - vm_compute. reflexivity.
Defined.


(** X11: tmux, the log pump, ttyd and the monitor all use the socket and
    the session of the settings (or their defaults), ttyd listens on the
    configured port, and the path that the script reads the status of
    the job from is, letter for letter, the path written into the job
    script.  (The shell of the job reads that script once more: the two
    are the same file when the name of the session has no character that
    a shell expands.) *)
Theorem terminal_wiring (w : world) (env : gmap string string)
    (i : nat) (e : event) :
  trace (run w env).2 !! i = Some e →
  match e with
  | Ran (TmuxNewSession socket session script) _ =>
      socket = socket_of env ∧ session = session_of env ∧
      ∃ command, script = job_script command (exit_path env)
  | Ran (TmuxHasSession socket session) _ | Background (LogPump socket session) =>
      socket = socket_of env ∧ session = session_of env
  | Background (Ttyd port socket session) =>
      port = port_of env ∧ socket = socket_of env ∧ session = session_of env
  | Ran (CatExitFile file) _ => file = exit_path env
  | _ => True
  end.
Proof.
  intros Hi. pose proof (run_given w env i e Hi) as Hg.
  destruct e as [|c st|c]; [done|..]; destruct c; try done; unfold given in Hg.
  destruct Hg as (-> & -> & command & _ & _ & ->). eauto.
Qed.

Lemma terminal_wiring_witness :
  "7681" = port_of sample_zip ∧ "/tmp/tmux/tmux.sock" = socket_of sample_zip ∧
  "job" = session_of sample_zip.
Proof.
  apply (terminal_wiring calm sample_zip 23
           (Background (Ttyd "7681" "/tmp/tmux/tmux.sock" "job"))).
  vm_compute. reflexivity.
Defined.


(** X12: [rm -rf] and [find] are only applied to the directory that
    mktemp printed, the tarball is only unpacked there, and [mv] is
    never run with an empty source. *)
Theorem cleanup_targets (w : world) (env : gmap string string)
    (i : nat) (e : event) :
  trace (run w env).2 !! i = Some e →
  match e with
  | Ran (RmRf dir) _ | Ran (FindHead dir _) _ | Ran (CurlTar _ dir) _ =>
      dir = mktemp_dir w
  | Ran (MvAll from to) _ => from ≠ EmptyString ∧ to = "/work/src/"
  | _ => True
  end.
Proof.
  intros Hi. pose proof (run_given w env i e Hi) as Hg.
  destruct e as [|c st|c]; [done| |done]; destruct c; try done; unfold given in Hg.
  by destruct Hg.
Qed.

Lemma cleanup_targets_witness : "/tmp/tmp.a1" = mktemp_dir calm.
Proof.
  apply (cleanup_targets calm sample_tree 10 (Ran (RmRf "/tmp/tmp.a1") 0)).
  vm_compute. reflexivity.
Defined.


(** X13: without a [CODE_URL] nothing is run: when it is unset the
    script exits with status 1 on its first line, when it is empty with
    status 2 after the line that says it is required. *)
Theorem missing_code_url (w : world) (env : gmap string string) :
  default EmptyString (env !! "CODE_URL") = EmptyString →
  (run w env).1 =
    Halt (Exited match env !! "CODE_URL" with Some _ => 2 | None => 1 end) ∧
  Forall only_echo (trace (run w env).2).
Proof.
  intros Hu. pose proof (check_inputs_eq w (start w env)) as E.
  cbn [vars start] in E. destruct (env !! "CODE_URL") as [url|].
  - cbn in Hu. subst url. cbv zeta in E. rewrite bool_decide_eq_true_2 in E by done.
    rewrite (run_stops_at_inputs _ _ _ _ E). split; [done|]. by repeat constructor.
  - rewrite (run_stops_at_inputs _ _ _ _ E). split; [done|]. by constructor.
Qed.

Lemma missing_code_url_witness :
  (run calm ∅).1 = Halt (Exited 1) ∧ Forall only_echo (trace (run calm ∅).2).
Proof. exact (missing_code_url calm ∅ eq_refl). Defined.


(** X14: a URL that the [case] takes for a GitHub tree URL but in which
    [GITHUB_REGEX] finds no owner, repository, ref and folder, in the
    locale of the runner, is refused: status 3, and nothing is
    downloaded. *)
Theorem unparsable_tree_url (w : world) (env : gmap string string) (url : string) :
  env !! "CODE_URL" = Some url → github_tree url = true →
  search (locale w) GITHUB_REGEX url = None →
  fault (locale w) (env !! "COMMAND") = None →
  fault (locale w) (env !! "INSTALL_CMD") = None →
  status w (Cd "/work") = 0%N → status w (MkdirP "src") = 0%N →
  (run w env).1 = Halt (Exited 3) ∧
  trace (run w env).2 =
    [url_line url; Ran (Cd "/work") 0; Ran (MkdirP "src") 0;
     Echo "[entrypoint] Detected GitHub tree URL, extracting folder...";
     Echo "[fatal] Could not parse GitHub tree URL"].
Proof.
  intros Hurl Ht Hs HC HI Hcd Hmk.
  assert (url ≠ EmptyString) as Hne by (by intros ->).
  rewrite (run_after_inputs w env url) by done.
  destruct (fetch_code_case w (emit (url_line url) (start w env)) url)
    as (s1 & Htr & _ & E); [done..|].
  rewrite Ht in E.
  assert (fetch_github w url s1 =
          (Halt (Exited 3),
           emit (Echo "[fatal] Could not parse GitHub tree URL")
             (emit (Echo "[entrypoint] Detected GitHub tree URL, extracting folder...")
                s1))) as Eg.
  { unfold fetch_github. rewrite bind_echo, Hs. by rewrite bind_echo. }
  rewrite Eg in E. rewrite (bind_halt _ _ _ _ _ E). split; [done|].
  cbn [snd trace emit]. rewrite Htr. done.
Qed.

Lemma unparsable_tree_url_witness :
  let url := "https://github.com/owner/repo/tree/main" in
  let env : gmap string string := <["CODE_URL" := url]> ∅ in
  (run calm env).1 = Halt (Exited 3) ∧
  trace (run calm env).2 =
    [url_line url; Ran (Cd "/work") 0; Ran (MkdirP "src") 0;
     Echo "[entrypoint] Detected GitHub tree URL, extracting folder...";
     Echo "[fatal] Could not parse GitHub tree URL"].
Proof.
  apply (unparsable_tree_url calm
           (<["CODE_URL" := "https://github.com/owner/repo/tree/main"]> ∅)
           "https://github.com/owner/repo/tree/main");
    vm_compute; reflexivity.
Defined.






(** X30: a URL that the [case] fetches without a bundle (a GitHub tree
    URL, or one that only the git patterns match) is never verified:
    when [/work] holds no bundle at the start, no [sha256sum] is run and
    nothing is unpacked, whatever [CODE_CHECKSUM_SHA256] is; a checksum
    given with a git URL is silently left aside. *)
Theorem unbundled_url_skips_checksum (w : world) (env : gmap string string) :
  bundle_of (url_of env) = None →
  "bundle.zip" ∉ initial_files w → "bundle.tgz" ∉ initial_files w →
  Forall bundle_free (trace (run w env).2).
Proof.
  intros Hnone Hz Ht. apply Forall_lookup_2. intros i e Hi.
  pose proof (run_given w env i e Hi) as Hg.
  assert (∀ file, bundle file → sourced w env file → False) as Hno.
  { intros file Hb [Hin|Hs]; [|congruence]. by destruct Hb as [-> | ->]. }
  destruct e as [|c st|]; [done| |done].
  destruct c; try done; unfold given in Hg; exfalso.
  - destruct Hg as (_ & _ & Hb & Hs). by eapply Hno.
  - destruct Hg as (-> & _ & Hs). eapply Hno; [|done]. by left.
  - destruct Hg as (-> & _ & Hs). eapply Hno; [|done]. by right.
  - destruct Hg as (-> & _ & Hs). eapply Hno; [|done]. by right.
Qed.

Lemma unbundled_url_skips_checksum_witness :
  let env : gmap string string :=
    <["CODE_CHECKSUM_SHA256" := "0a1b2c"]>
      (<["COMMAND" := "npm start"]>
         (<["CODE_URL" := "https://github.com/owner/repo.git"]> ∅)) in
  Forall bundle_free (trace (run calm env).2).
Proof.
  apply (unbundled_url_skips_checksum calm
           (<["CODE_CHECKSUM_SHA256" := "0a1b2c"]>
              (<["COMMAND" := "npm start"]>
                 (<["CODE_URL" := "https://github.com/owner/repo.git"]> ∅)))).
  - vm_compute. reflexivity.
  - apply not_elem_of_empty.
  - apply not_elem_of_empty.
Defined.

(** What [GITHUB_REGEX] finds in a URL depends on the locale: in a
    UTF-8 locale its [.] takes the euro sign, and the URL below names
    the repository [a/b]; in the C locale the sign is three bytes, and
    the URL cannot be parsed. *)
Example parse_depends_on_locale :
  github_tree euro_url = true ∧
  search Utf8 GITHUB_REGEX euro_url = Some ["a"; "b"; "c"; "github.com/x/tree/y"] ∧
  tarball_of Utf8 euro_url = Some "https://api.github.com/repos/a/b/tarball/c" ∧
  search Bytes GITHUB_REGEX euro_url = None.
Proof. vm_compute. repeat split. Qed.

(** C9, as the code has it.  For a [CODE_URL] of the GitHub tree shape
    no [sha256sum] is run, whatever the environment (a checksum supplied
    or not) and however the commands end; a fetch that runs to its end
    leaves [CODE_CHECKSUM_SHA256] empty, and with valid inputs, commands
    that succeed and the folder found, the fetch does run to its end.
    For every [CODE_URL], a [sha256sum] is given the value supplied in
    [CODE_CHECKSUM_SHA256] and the name [bundle.zip] or [bundle.tgz], of
    a file that was in [/work] at the start or that the [case] saves the
    download as; when [/work] holds neither bundle at the start, curl
    has downloaded the file earlier in the run; and when the value is a
    SHA-256 in hexadecimal, what [sha256sum -c -] reads is one line,
    which names that bundle. *)
Theorem github_tree_skips_checksum (w : world) (env : gmap string string) :
  (∀ url, env !! "CODE_URL" = Some url → github_tree url = true →
     Forall plain (trace (run w env).2) ∧
     (∀ a s', (check_inputs w ≫= λ _, fetch_code w) (start w env) = (Ret a, s') →
              vars s' !! "CODE_CHECKSUM_SHA256" = Some EmptyString) ∧
     (∀ owner repo ref folder,
        search (locale w) GITHUB_REGEX url = Some [owner; repo; ref; folder] →
        fault (locale w) (env !! "COMMAND") = None →
        fault (locale w) (env !! "INSTALL_CMD") = None →
        (∀ c, status w c = 0%N) →
        find_first w (mktemp_dir w) folder ≠ EmptyString →
        ∃ s', (check_inputs w ≫= λ _, fetch_code w) (start w env) = (Ret (), s') ∧
              vars s' !! "CODE_CHECKSUM_SHA256" = Some EmptyString)) ∧
  (∀ i sum f st,
     trace (run w env).2 !! i = Some (Ran (Sha256sum sum f) st) →
     env !! "CODE_CHECKSUM_SHA256" = Some sum ∧ sum ≠ EmptyString ∧
     (f = "bundle.zip" ∨ f = "bundle.tgz") ∧
     (f ∈ initial_files w ∨ bundle_of (url_of env) = Some f) ∧
     ("bundle.zip" ∉ initial_files w → "bundle.tgz" ∉ initial_files w →
        downloaded_before (trace (run w env).2) i f) ∧
     (sha256_hex sum = true →
        lines (check_input sum f) = [check_input sum f] ∧
        check_line (check_input sum f) = Some (sum, f))).
Proof.
  split.
  - intros url Hurl Hgh. split_and!.
    + by eapply tree_run_plain.
    + intros a s'. by eapply tree_fetch_clears.
    + intros owner repo ref folder Hs HC HI Hok Hf.
      destruct (tree_fetch_returns w env url owner repo ref folder)
        as [s' Hs']; [done..|].
      exists s'. split; [done|]. by eapply tree_fetch_clears.
  - intros i sum f st Hi.
    destruct (run_given w env i _ Hi) as (Henv & Hne & Hb & Hsrc).
    split_and!; [done..| |].
    + intros Hz Ht. by eapply sha_after_download.
    + intros Hhex. by apply check_input_line.
Qed.

Lemma github_tree_skips_checksum_witness :
  Forall plain (trace (run calm sample_tree_sum).2) ∧
  (∃ s', (check_inputs calm ≫= λ _, fetch_code calm) (start calm sample_tree_sum) =
           (Ret (), s') ∧
         vars s' !! "CODE_CHECKSUM_SHA256" = Some EmptyString) ∧
  downloaded_before (trace (run calm sample_sum).2) 4 "bundle.zip" ∧
  check_line (check_input sha256_of_empty "bundle.zip") =
    Some (sha256_of_empty, "bundle.zip").
Proof.
  destruct (proj1 (github_tree_skips_checksum calm sample_tree_sum)
              "https://github.com/x/y/tree/main/p" eq_refl eq_refl)
    as (Hplain & _ & Hret).
  destruct (proj2 (github_tree_skips_checksum calm sample_sum)
              4 sha256_of_empty "bundle.zip" 0%N eq_refl)
    as (_ & _ & _ & _ & Hdown & Hline).
  split_and!.
  - exact Hplain.
  - apply (Hret "x" "y" "main" "p"); [reflexivity..|discriminate].
  - apply Hdown; apply not_elem_of_empty.
  - apply Hline. reflexivity.
Defined.

(** C9, as the claim has it, fails on the runner in two ways.  With a
    [bundle.zip] left in [/work] and a git URL, [sha256sum] is run on
    that file, which no curl of this run has downloaded.  And with a
    value of two lines in [CODE_CHECKSUM_SHA256], what [sha256sum -c -]
    reads has a first line that names [/dev/null] and a second line
    that is no checksum: the file checked is not the bundle. *)
Lemma sha256sum_beyond_the_download :
  let env : gmap string string := <["CODE_CHECKSUM_SHA256" := two_lines]> sample_zip in
  trace (run stale sample_git).2 !! 4 =
    Some (Ran (Sha256sum sha256_of_empty "bundle.zip") 0) ∧
  forallb (λ e, negb (is_curl e)) (trace (run stale sample_git).2) = true ∧
  trace (run calm env).2 !! 4 = Some (Ran (Sha256sum two_lines "bundle.zip") 0) ∧
  lines (check_input two_lines "bundle.zip") =
    [sha256_of_empty +:+ "  /dev/null"; "junk  bundle.zip"] ∧
  check_line (sha256_of_empty +:+ "  /dev/null") =
    Some (sha256_of_empty, "/dev/null") ∧
  check_line "junk  bundle.zip" = None.
Proof. vm_compute. repeat split. Qed.

End WorkerFacts.

(** ** More facts about the database handle *)

Module PoolFacts.
Import Db DbFacts.

Lemma process_snoc acts a s : process (acts ++ [a]) s = step (process acts s) a.
Proof. unfold process. by rewrite foldl_app. Qed.

(** An invariant of the module is one of its initial state that every
    turn of the event loop keeps. *)
Lemma process_invariant (I : state → Prop) acts :
  I init → (∀ s a, I s → exited s = None → I (step s a)) → I (process acts init).
Proof.
  intros H0 Hstep. induction acts as [|a acts IH] using rev_ind; [done|].
  rewrite process_snoc. destruct (exited (process acts init)) eqn:E.
  - unfold step. by rewrite E.
  - by apply Hstep.
Qed.

Lemma closeDatabasePool_exited d s : exited (closeDatabasePool d s).2 = exited s.
Proof. unfold closeDatabasePool. by destruct (isPoolClosed s). Qed.

Lemma checkDatabaseHealth_exited raw s :
  exited (checkDatabaseHealth raw s).2 = exited s.
Proof.
  unfold checkDatabaseHealth. destruct (negb (isPoolHealthy s)); [done|].
  by destruct (raw "SELECT 1").
Qed.

Lemma on_signal_exited name s :
  exited s = None →
  exited (on_signal name s) = if isPoolClosed s then Some 0%Z else None.
Proof. intros E. unfold on_signal. cbn. by destruct (isPoolClosed s). Qed.

Lemma on_signal_awaited name s :
  isPoolClosed s = false → awaited (on_signal name s) = true.
Proof. intros E. unfold on_signal. cbn. by rewrite E. Qed.

Lemma on_settled_exited d s :
  exited s = None →
  exited (on_settled d s) =
  if awaited s then Some (if d then 0%Z else 1%Z) else None.
Proof. intros E. unfold on_settled. destruct (awaited s); [|done]. by destruct d. Qed.

(** The turns in which the process ends. *)
Lemma step_exit s a c :
  exited s = None → exited (step s a) = Some c →
  (is_signal a = true ∧ isPoolClosed s = true ∧ c = 0%Z) ∨
  (∃ d, a = Settled d ∧ awaited s = true ∧ c = (if d then 0%Z else 1%Z)).
Proof.
  intros E. unfold step. rewrite E. destruct a; cbn;
    try (rewrite E; done).
  - unfold on_timeout. destruct (timers s); cbn; by rewrite E.
  - by rewrite checkDatabaseHealth_exited, E.
  - by rewrite closeDatabasePool_exited, E.
  - rewrite on_signal_exited by done.
    destruct (isPoolClosed s); [|done]. intros [= <-]. by left.
  - rewrite on_signal_exited by done.
    destruct (isPoolClosed s); [|done]. intros [= <-]. by left.
  - rewrite on_settled_exited by done.
    destruct (awaited s); [|done]. intros [= <-]. right. by eexists.
Qed.

(** A signal handler waits for [db.destroy()] only after the pool was
    marked closed, and waits until the process ends. *)
Lemma step_awaited_closed s a :
  (awaited s = true → isPoolClosed s = true) →
  awaited (step s a) = true → isPoolClosed (step s a) = true.
Proof.
  intros IH. unfold step. destruct (exited s); [done|]. destruct a; cbn; try done.
  - unfold on_timeout. by destruct (timers s).
  - unfold checkDatabaseHealth. destruct (negb (isPoolHealthy s)); [done|].
    by destruct (raw "SELECT 1").
  - unfold closeDatabasePool. by destruct (isPoolClosed s) eqn:E.
  - intros _. apply on_signal_closes.
  - intros _. apply on_signal_closes.
  - unfold on_settled. destruct (awaited s) eqn:W; [by destruct destroy_ok|].
    by rewrite W.
Qed.

Lemma process_awaited_closed acts :
  awaited (process acts init) = true → isPoolClosed (process acts init) = true.
Proof.
  induction acts as [|a acts IH] using rev_ind; [done|].
  rewrite process_snoc. by apply step_awaited_closed.
Qed.

Lemma step_awaited s a :
  awaited s = true → isPoolClosed s = true → exited (step s a) = None →
  awaited (step s a) = true.
Proof.
  intros Hw Hc. unfold step. destruct (exited s) eqn:E; [done|].
  destruct a; cbn; try done.
  - unfold on_timeout. by destruct (timers s).
  - unfold checkDatabaseHealth. destruct (negb (isPoolHealthy s)); [done|].
    by destruct (raw "SELECT 1").
  - unfold closeDatabasePool. by rewrite Hc.
  - unfold on_signal. cbn. by rewrite Hc.
  - unfold on_signal. cbn. by rewrite Hc.
  - unfold on_settled. rewrite Hw. by destruct destroy_ok.
Qed.

Lemma process_exited acts s c : exited s = Some c → process acts s = s.
Proof.
  intros E. induction acts as [|a acts IH] using rev_ind; [done|].
  rewrite process_snoc, IH. unfold step. by rewrite E.
Qed.

Lemma process_running acts a s :
  exited (process (acts ++ [a]) s) = None → exited (process acts s) = None.
Proof.
  rewrite process_snoc. destruct (exited (process acts s)) eqn:E; [|done].
  unfold step. by rewrite E, E.
Qed.

Lemma process_awaited acts s :
  awaited s = true → isPoolClosed s = true → exited (process acts s) = None →
  awaited (process acts s) = true.
Proof.
  intros Hw Hc. induction acts as [|a acts IH] using rev_ind; [done|].
  intros E. pose proof (process_running _ _ _ E) as E'.
  rewrite process_snoc in *. apply step_awaited; [by apply IH| |done].
  by apply process_closed.
Qed.

(** X16: the module ends the process in two kinds of turn only, both of a
    signal handler: a signal that finds the pool marked closed
    ([closeDatabasePool] returns at once, status 0), and the end of the
    [db.destroy()] that a handler waits for (status 0 when it resolved,
    1 when it rejected, the rejection being handled by nothing).  Before
    such a turn the pool was marked closed and [db.destroy()] had been
    called, once. *)
Theorem exit_only_after_close (acts : list action) (c : Z) :
  exited (process acts init) = Some c →
  isPoolClosed (process acts init) = true ∧
  destroy_calls (process acts init) = 1 ∧
  ∃ pre a post,
    acts = pre ++ a :: post ∧ exited (process pre init) = None ∧
    isPoolClosed (process pre init) = true ∧
    destroy_calls (process pre init) = 1 ∧
    ((is_signal a = true ∧ c = 0%Z) ∨
     (∃ d, a = Settled d ∧ awaited (process pre init) = true ∧
           c = (if d then 0%Z else 1%Z))).
Proof.
  intros Hc.
  assert (∃ pre a post,
            acts = pre ++ a :: post ∧ exited (process pre init) = None ∧
            isPoolClosed (process pre init) = true ∧
            ((is_signal a = true ∧ c = 0%Z) ∨
             (∃ d, a = Settled d ∧ awaited (process pre init) = true ∧
                   c = (if d then 0%Z else 1%Z))))
    as (pre & a & post & -> & Hpre & Hcl & Ha).
  { revert c Hc. induction acts as [|a acts IH] using rev_ind; [done|].
    intros c. rewrite process_snoc.
    destruct (exited (process acts init)) as [c'|] eqn:E.
    - unfold step. rewrite E. intros Hc. rewrite E in Hc.
      destruct (IH c Hc) as (pre & a0 & post & -> & ? & ? & ?).
      exists pre, a0, (post ++ [a]). by rewrite <-app_assoc.
    - intros Hx. exists acts, a, []. split_and!; [done..| |].
      + destruct (step_exit _ _ _ E Hx) as [(_ & ? & _)|(d & _ & Hw & _)]; [done|].
        by apply process_awaited_closed.
      + destruct (step_exit _ _ _ E Hx) as [(? & _ & ?)|(d & ? & ? & ?)];
          [by left|right; by exists d]. }
  assert (isPoolClosed (process (pre ++ a :: post) init) = true) as Hclosed.
  { assert (process (pre ++ a :: post) init =
            process post (step (process pre init) a)) as ->
      by (unfold process; by rewrite foldl_app).
    by apply process_closed, step_closed. }
  pose proof (process_guarded (pre ++ a :: post) init guarded_init) as G.
  pose proof (process_guarded pre init guarded_init) as G'.
  unfold guarded in G, G'. rewrite Hclosed in G. rewrite Hcl in G'.
  split_and!; [done..|]. by exists pre, a, post.
Qed.

Lemma exit_only_after_close_witness :
  isPoolClosed (process [CreateFail; Sigterm; Settled false; Sigint] init) = true ∧
  destroy_calls (process [CreateFail; Sigterm; Settled false; Sigint] init) = 1 ∧
  ∃ pre a post,
    [CreateFail; Sigterm; Settled false; Sigint] = pre ++ a :: post ∧
    exited (process pre init) = None ∧
    isPoolClosed (process pre init) = true ∧
    destroy_calls (process pre init) = 1 ∧
    ((is_signal a = true ∧ 1%Z = 0%Z) ∨
     (∃ d, a = Settled d ∧ awaited (process pre init) = true ∧
           1%Z = (if d then 0%Z else 1%Z))).
Proof.
  apply (exit_only_after_close [CreateFail; Sigterm; Settled false; Sigint] 1).
  reflexivity.
Defined.

(** X17: the pool is never left unhealthy for good: whenever it is marked
    unhealthy a timer of the recovery is pending, and the first timer to
    fire marks it healthy again, whatever failed since it was set. *)
Theorem unhealthy_pool_has_timer (acts : list action) :
  isPoolHealthy (process acts init) = false →
  0 < timers (process acts init) ∧
  (exited (process acts init) = None →
   isPoolHealthy (step (process acts init) Timeout) = true).
Proof.
  intros Hu.
  assert (0 < timers (process acts init)) as Ht.
  { revert Hu.
    apply (process_invariant (λ s, isPoolHealthy s = false → 0 < timers s));
      [done|]. intros s a IH E. unfold step. rewrite E. destruct a; cbn; try done.
    - lia.
    - unfold on_timeout. destruct (timers s) eqn:Et; [|done].
      intros H. specialize (IH H). lia.
    - unfold checkDatabaseHealth.
      destruct (isPoolHealthy s) eqn:Eh; cbn; [|by rewrite Eh].
      destruct (raw "SELECT 1"); cbn; by rewrite Eh.
    - unfold closeDatabasePool. by destruct (isPoolClosed s).
    - unfold on_signal. cbn. by destruct (isPoolClosed s).
    - unfold on_signal. cbn. by destruct (isPoolClosed s).
    - unfold on_settled. destruct (awaited s); [|done]. by destruct destroy_ok. }
  split; [done|]. intros E. unfold step. rewrite E. unfold on_timeout.
  destruct (timers (process acts init)); [lia|done].
Qed.

Lemma unhealthy_pool_has_timer_witness :
  0 < timers (process [CreateFail; CreateFail] init) ∧
  (exited (process [CreateFail; CreateFail] init) = None →
   isPoolHealthy (step (process [CreateFail; CreateFail] init) Timeout) = true).
Proof. apply (unhealthy_pool_has_timer [CreateFail; CreateFail]). reflexivity. Defined.

(** X18: a shutdown by signal.  The first signal that finds the pool
    open marks it closed, calls [db.destroy()] and waits for it: the
    process does not end in that turn.  It ends when [db.destroy()]
    settles, with status 0 when it resolved and 1 when it rejected
    ([process.exit(0)] is not reached); or at the next signal, with
    status 0 and at once, [db.destroy()] being still under way and not
    called again.  Nothing that comes later changes anything. *)
Theorem signal_ends_process (acts mid later : list action) (a b : action) (d : bool) :
  let s := process acts init in
  let s1 := step s a in
  let s2 := process mid s1 in
  exited s = None → isPoolClosed s = false →
  is_signal a = true → is_signal b = true → exited s2 = None →
  (exited s1 = None ∧ isPoolClosed s1 = true ∧ destroy_calls s1 = 1 ∧
   awaited s1 = true) ∧
  exited (step s2 (Settled d)) = Some (if d then 0%Z else 1%Z) ∧
  (exited (step s2 b) = Some 0%Z ∧ awaited (step s2 b) = true ∧
   destroy_calls (step s2 b) = 1) ∧
  process later (step s2 b) = step s2 b ∧
  process later (step s2 (Settled d)) = step s2 (Settled d).
Proof.
  intros s s1 s2 E Hopen Ha Hb E2.
  assert (s1 = on_signal (if a is Sigterm then "SIGTERM" else "SIGINT") s) as Hs1.
  { unfold s1, step. rewrite E. by destruct a. }
  assert (exited s1 = None) as E1.
  { rewrite Hs1, on_signal_exited by done. by rewrite Hopen. }
  assert (isPoolClosed s1 = true) as C1 by (rewrite Hs1; apply on_signal_closes).
  assert (awaited s1 = true) as W1 by (rewrite Hs1; by apply on_signal_awaited).
  assert (isPoolClosed s2 = true) as C2 by by apply process_closed.
  assert (awaited s2 = true) as W2 by by apply process_awaited.
  assert (guarded s1) as G1 by apply step_guarded, process_guarded, guarded_init.
  assert (guarded (step s2 b)) as G2 by by apply step_guarded, process_guarded.
  assert (exited (step s2 b) = Some 0%Z) as X2.
  { unfold step. rewrite E2.
    destruct b; try done; rewrite on_signal_exited by done; by rewrite C2. }
  assert (exited (step s2 (Settled d)) = Some (if d then 0%Z else 1%Z)) as X3.
  { unfold step. rewrite E2, on_settled_exited by done. by rewrite W2. }
  unfold guarded in G1, G2. rewrite C1 in G1. rewrite step_closed in G2 by done.
  split_and!; try done.
  - unfold step. rewrite E2. destruct b; try done; unfold on_signal; cbn;
      by rewrite C2.
  - by eapply process_exited.
  - by eapply process_exited.
Qed.

Lemma signal_ends_process_witness :
  let s1 := step (process [CreateFail] init) Sigterm in
  let s2 := process [CheckHealth answering; Timeout] s1 in
  (exited s1 = None ∧ isPoolClosed s1 = true ∧ destroy_calls s1 = 1 ∧
   awaited s1 = true) ∧
  exited (step s2 (Settled false)) = Some 1%Z ∧
  (exited (step s2 Sigint) = Some 0%Z ∧ awaited (step s2 Sigint) = true ∧
   destroy_calls (step s2 Sigint) = 1) ∧
  process [Settled true; Sigterm] (step s2 Sigint) = step s2 Sigint ∧
  process [Settled true; Sigterm] (step s2 (Settled false)) =
    step s2 (Settled false).
Proof.
  apply (signal_ends_process [CreateFail] [CheckHealth answering; Timeout]
           [Settled true; Sigterm] Sigterm Sigint false); reflexivity.
Defined.

End PoolFacts.

(** ** More facts about the Store *)

Module ClusterFacts.
Import Store StoreFacts Cluster.













(** The two cases of X19 on databases that have the extension already:
    one in which a table of another application uses it, where [down]
    fails, and one in which nothing does, where [down] takes the
    extension away. *)
Example sessions_rollback_shared :
  (∃ c', sessions_up shared_in_use = Done c' ∧
         sessions_down c' = Failed (DependentObjects "uuid-ossp")) ∧
  (∃ c', sessions_up shared = Done c' ∧
         sessions_down c' = Done (with_extensions ∅ shared)).
Proof.
  split; (eexists; split; [reflexivity | vm_compute; reflexivity]).
Qed.



Lemma required_column_not_null db name t0 c :
  reachable db → migrated !! name = Some t0 →
  c ∈ tbl_columns (def t0) → required c = true →
  ∃ t, db !! name = Some t ∧ ∀ r, r ∈ rows t → get r (col_name c) ≠ VNull.
Proof.
  intros Hdb Hm Hc Hr.
  destruct (reachable_table db name t0 Hdb Hm) as (t & Ht & Hdef & Hcons).
  exists t. split; [done|]. intros r Hin.
  rewrite <-Hdef in Hc. destruct (Hcons c Hc) as [Hnn _].
  specialize (Hnn Hr). rewrite Forall_forall in Hnn. by apply Hnn.
Qed.

Ltac required_column t c :=
  apply (required_column_not_null _ _ {| def := t; rows := [] |} c);
  [done|reflexivity|apply list_elem_of_In; cbn; tauto|reflexivity].

(** X21: no stored row has NULL in a column that is the primary key or
    declared [notNullable]: the identifier, the owner, the job name and
    the expiry of a session, and all three columns of a token record. *)
Theorem required_columns_never_null (db : database) (name col : string) :
  reachable db →
  (name = "sessions" ∧
   col ∈ ["session_id"; "owner_user_id"; "job_name"; "expires_at"]) ∨
  (name = "token_jti" ∧ col ∈ ["jti"; "session_id"; "expires_at"]) →
  ∃ t, db !! name = Some t ∧ ∀ r, r ∈ rows t → get r col ≠ VNull.
Proof.
  intros Hdb [[-> Hin]|[-> Hin]];
    rewrite !elem_of_cons, elem_of_nil in Hin.
  - destruct Hin as [->|[->|[->|[->|[]]]]].
    + required_column sessions (defaultTo UuidGenerateV4 (primary (text "session_id"))).
    + required_column sessions (notNullable (text "owner_user_id")).
    + required_column sessions (unique (notNullable (text "job_name"))).
    + required_column sessions (notNullable (timestamp "expires_at")).
  - destruct Hin as [->|[->|[->|[]]]].
    + required_column token_jti (primary (text "jti")).
    + required_column token_jti (notNullable (text "session_id")).
    + required_column token_jti (notNullable (timestamp "expires_at")).
Qed.

Lemma required_columns_never_null_witness :
  ∃ t, with_session !! "sessions" = Some t ∧
       ∀ r, r ∈ rows t → get r "expires_at" ≠ VNull.
Proof.
  apply (required_columns_never_null with_session "sessions" "expires_at").
  - apply with_session_reachable.
  - left. split; [reflexivity|]. do 3 apply list_elem_of_further.
    apply list_elem_of_here.
Defined.

Lemma fill_new_session ctx owner job expires :
  fill ctx (tbl_columns sessions) (new_session owner job expires) =
  stored_session ctx owner job expires.
Proof. vm_compute. reflexivity. Qed.

(** X22: an insert of a session that leaves [session_id] and
    [created_at] out stores the UUID that [uuid_generate_v4()] draws and
    the time of the insert, and NULL for the pod; it is accepted when
    neither that UUID nor the job name is in the table yet. An insert
    that gives NULL for [session_id] does not get the default: it is
    refused. *)
Theorem new_session_gets_defaults (ctx : context) (db : database) (t : table)
    (owner job : string) (expires : Z) :
  db !! "sessions" = Some t → def t = sessions →
  VText (uuid ctx) ∉ (λ r, get r "session_id") <$> rows t →
  VText job ∉ (λ r, get r "job_name") <$> rows t →
  insert ctx "sessions" (new_session owner job expires) db =
    Ok (<["sessions" :=
            {| def := sessions;
               rows := rows t ++ [stored_session ctx owner job expires] |}]> db) ∧
  insert ctx "sessions" (<["session_id" := VNull]> (new_session owner job expires)) db =
    Err (NotNullViolation "session_id").
Proof.
  intros Ht Hdef Hid Hjob. unfold insert. rewrite Ht, Hdef. split.
  - unfold insert_row. cbv zeta. rewrite fill_new_session.
    assert (known (tbl_columns sessions) (new_session owner job expires) = true)
      as -> by (by vm_compute).
    cbn [negb].
    assert (find (λ c, negb (well_typed c (stored_session ctx owner job expires)))
              (tbl_columns sessions) = None) as -> by (by vm_compute).
    assert (find (λ c, required c &&
                       is_null c (stored_session ctx owner job expires))
              (tbl_columns sessions) = None) as -> by (by vm_compute).
    assert (find (λ c, keyed c &&
                       clash c (stored_session ctx owner job expires) (rows t))
              (tbl_columns sessions) = None) as ->; [|done].
    assert (clash (defaultTo UuidGenerateV4 (primary (text "session_id")))
              (stored_session ctx owner job expires) (rows t) = false) as H1.
    { unfold clash. apply andb_false_intro2. by apply bool_decide_eq_false_2. }
    assert (clash (unique (notNullable (text "job_name")))
              (stored_session ctx owner job expires) (rows t) = false) as H2.
    { unfold clash. apply andb_false_intro2. by apply bool_decide_eq_false_2. }
    cbn [find tbl_columns sessions]. rewrite H1, H2. done.
  - by vm_compute.
Qed.

Lemma new_session_gets_defaults_witness :
  insert noon "sessions" (new_session "user-456" "job-789" 1600) migrated =
    Ok (<["sessions" :=
            {| def := sessions;
               rows := [] ++ [stored_session noon "user-456" "job-789" 1600] |}]>
          migrated) ∧
  insert noon "sessions"
    (<["session_id" := VNull]> (new_session "user-456" "job-789" 1600)) migrated =
    Err (NotNullViolation "session_id").
Proof.
  apply (new_session_gets_defaults noon migrated {| def := sessions; rows := [] |}
           "user-456" "job-789" 1600).
  - reflexivity.
  - reflexivity.
  - apply not_elem_of_nil.
  - apply not_elem_of_nil.
Defined.

End ClusterFacts.

(** ** Facts about the string constants of the Knex mock *)

Module MockFacts.
Import Mock.

Lemma append_assoc (a b c : string) : (a +:+ b) +:+ c = a +:+ (b +:+ c).
Proof.
  induction a as [|x a IH]; [done|].
  change (String x ((a +:+ b) +:+ c) = String x (a +:+ (b +:+ c))). by f_equal.
Qed.

Lemma read_body_escape v rest :
  closed rest →
  read_body (escape v +:+ String quote rest) = Some (v, rest).
Proof.
  intros Hrest. induction v as [|a v IH].
  - change (read_body (String quote rest) = Some (EmptyString, rest)).
    simpl read_body. destruct rest as [|b rest]; [done|].
    simpl in Hrest. by rewrite bool_decide_eq_false_2.
  - simpl escape. case_bool_decide as Ha.
    + subst a.
      change (read_body (String quote (String quote
                (escape v +:+ String quote rest))) = Some (String quote v, rest)).
      simpl read_body. by rewrite IH.
    + change (read_body (String a (escape v +:+ String quote rest)) =
              Some (String a v, rest)).
      simpl read_body. rewrite bool_decide_eq_false_2 by done. by rewrite IH.
Qed.

(** X23: the mock's quoting is sound: whatever the value, quotes
    included, the SQL engine reads the constant the mock writes back as
    that very value and goes on right after it; so no value of a
    [where], an [update] or an [insert] can end its constant early and
    add SQL of its own, and two values never give the same constant. *)
Theorem literal_round_trip (v rest : string) :
  closed rest →
  read_literal (literal v +:+ rest) = Some (v, rest) ∧
  ∀ v', literal v' = literal v → v' = v.
Proof.
  intros Hrest.
  assert (∀ u r, closed r → read_literal (literal u +:+ r) = Some (u, r)) as Hread.
  { intros u r Hr. unfold literal, read_literal.
    change (String quote (escape u +:+ String quote EmptyString) +:+ r)
      with (String quote ((escape u +:+ String quote EmptyString) +:+ r)).
    rewrite append_assoc. by apply read_body_escape. }
  split; [by apply Hread|].
  intros v' E. pose proof (Hread v' EmptyString Logic.I) as H1.
  pose proof (Hread v EmptyString Logic.I) as H2. rewrite E in H1. congruence.
Qed.

Lemma literal_round_trip_witness :
  read_literal (literal "x' OR '1'='1" +:+ " LIMIT 1") =
    Some ("x' OR '1'='1", " LIMIT 1") ∧
  ∀ v', literal v' = literal "x' OR '1'='1" → v' = "x' OR '1'='1".
Proof. apply (literal_round_trip "x' OR '1'='1" " LIMIT 1"). discriminate. Defined.

End MockFacts.

(** ** Facts about the smoke test *)

Module SmokeFacts.
Import Str Smoke.

Lemma happen_all_snoc env hs h t :
  happen_all env (hs ++ [h]) t = happen env (happen_all env hs t) h.
Proof. unfold happen_all. by rewrite foldl_app. Qed.

Lemma happen_all_cons env h hs t :
  happen_all env (h :: hs) t = happen_all env hs (happen env t h).
Proof. done. Qed.

Lemma happen_all_app env hs hs' t :
  happen_all env (hs ++ hs') t = happen_all env hs' (happen_all env hs t).
Proof. unfold happen_all. by rewrite foldl_app. Qed.

Lemma on_stderr_flags env text t :
  testPassed (on_stderr env text t) = testPassed t ∧
  awaits (on_stderr env text t) = awaits t ∧
  signals (on_stderr env text t) = signals t ∧
  killed (on_stderr env text t) = killed t ∧
  exitCode (on_stderr env text t) = exitCode t ∧
  ended (on_stderr env text t) = ended t ∧
  (testFailed t = true → testFailed (on_stderr env text t) = true).
Proof. unfold on_stderr. by repeat case_match. Qed.

Lemma wait_loop_spec probe rounds i :
  match wait_loop probe rounds i with
  | (true, n) =>
      i < n ∧ n ≤ i + rounds ∧ probe (n - 1) = true ∧
      ∀ j, i ≤ j → j < n - 1 → probe j = false
  | (false, n) => n = i + rounds ∧ ∀ j, i ≤ j → j < n → probe j = false
  end.
Proof.
  revert i. induction rounds as [|k IH]; intros i; cbn [wait_loop].
  - split; [lia|]. intros j ? ?. lia.
  - destruct (probe i) eqn:E.
    + replace (S i - 1) with i by lia. split_and!; [lia|lia|done|].
      intros j ? ?. lia.
    + specialize (IH (S i)). destruct (wait_loop probe k (S i)) as [[|] n].
      * destruct IH as (H1 & H2 & H3 & H4). split_and!; [lia|lia|done|].
        intros j Hj Hn. destruct (decide (j = i)) as [->|]; [done|].
        apply H4; lia.
      * destruct IH as [-> H]. split; [lia|]. intros j Hj Hn.
        destruct (decide (j = i)) as [->|]; [done|]. apply H; lia.
Qed.

Lemma missing_none env :
  missingEnvVars env = [] ↔
  ∀ v, v ∈ requiredEnvVars → ∃ x, env !! v = Some x ∧ x ≠ EmptyString.
Proof.
  unfold missingEnvVars. split.
  - intros H v Hv%list_elem_of_In.
    destruct (falsy env v) eqn:E.
    + assert (In v (List.filter (falsy env) requiredEnvVars)) as Hin
        by by apply filter_In.
      rewrite H in Hin. destruct Hin.
    + unfold falsy in E. destruct (env !! v) as [x|]; [|done]. exists x.
      split; [done|]. by apply bool_decide_eq_false_1 in E.
  - intros H. destruct (List.filter _ _) as [|v l] eqn:E; [done|].
    assert (In v (List.filter (falsy env) requiredEnvVars)) as Hin
      by (rewrite E; by left).
    apply filter_In in Hin as [Hin Hf]. apply list_elem_of_In, H in Hin.
    destruct Hin as (x & Hx & Hne). unfold falsy in Hf. rewrite Hx in Hf.
    by apply bool_decide_eq_true_1 in Hf.
Qed.

(** X24: the server is started exactly when each of the six variables
    is set to something and one of the first 30 probes of the database
    port succeeds; the script probes no more than that, and stops at the
    first success. In every other case it exits with status 1, without
    a probe when a variable is missing. *)
Theorem server_started_iff (env : gmap string string) (probe : nat → bool) :
  ((∃ n, start_up env probe = Spawned n) ↔
   (∀ v, v ∈ requiredEnvVars → ∃ x, env !! v = Some x ∧ x ≠ EmptyString) ∧
   ∃ i, i < 30 ∧ probe i = true) ∧
  (∀ n, start_up env probe = Spawned n →
        0 < n ∧ n ≤ 30 ∧ probe (n - 1) = true ∧ ∀ j, j < n - 1 → probe j = false) ∧
  (∀ code n, start_up env probe = ExitedEarly code n →
             code = 1%Z ∧ (n = 0 ∨ n = 30)).
Proof.
  unfold start_up, wait_for_database.
  change (N.to_nat (maxWaitTime / checkInterval)) with 30.
  pose proof (wait_loop_spec probe 30 0) as Hw.
  pose proof (missing_none env) as Hm.
  destruct (missingEnvVars env) as [|v l].
  - destruct (wait_loop probe 30 0) as [[|] n].
    + destruct Hw as (H1 & H2 & H3 & H4). split_and!.
      * split; [|by eauto]. intros _. split; [by apply Hm|].
        exists (n - 1). split; [lia|done].
      * intros ? [= <-]. split_and!; [lia|lia|done|]. intros j Hj. apply H4; lia.
      * done.
    + destruct Hw as [-> H]. split_and!.
      * split; [by intros [? ?]|]. intros [_ (i & Hi & Hp)].
        rewrite H in Hp; [done|lia|lia].
      * done.
      * intros ? ? [= <- <-]. split; [done|]. by right.
  - split_and!.
    + split; [by intros [? ?]|]. intros [H _]. by apply Hm in H.
    + done.
    + intros ? ? [= <- <-]. split; [done|]. by left.
Qed.

Lemma coherent_grows env hs h t t' :
  coherent env hs t → testPassed t' = testPassed t → ended t' = ended t →
  (awaits t' = Body → awaits t = Body) →
  coherent env (hs ++ [h]) t'.
Proof.
  intros (H1 & H2 & H3) Hp He Ha. split_and!.
  - intros Hb. apply elem_of_app. left. by apply H1, Ha.
  - rewrite Hp. intros (pre & post & -> & Hin & Hf)%H2.
    exists pre, (post ++ [h]). by rewrite <-app_assoc.
  - rewrite He, Hp. intros c [?|(? & ? & code & Hc)]%H3; [by left|right].
    split_and!; [done..|]. exists code. apply elem_of_app. by left.
Qed.

Lemma kill_flags sig t :
  testPassed (kill sig t) = testPassed t ∧ testFailed (kill sig t) = testFailed t ∧
  awaits (kill sig t) = awaits t ∧ ended (kill sig t) = ended t ∧
  exitCode (kill sig t) = exitCode t.
Proof. unfold kill. destruct (exitCode t) eqn:E; by split_and!. Qed.

Lemma happen_coherent env hs h :
  coherent env hs (happen_all env hs spawned) →
  coherent env (hs ++ [h]) (happen_all env (hs ++ [h]) spawned).
Proof.
  rewrite happen_all_snoc. set (t := happen_all env hs spawned).
  intros Hc. unfold happen. destruct (ended t) eqn:E.
  { by apply (coherent_grows _ _ _ t). }
  destruct h; cbn.
  - by apply (coherent_grows _ _ _ t).
  - destruct (on_stderr_flags env errorText t) as (Hp & Ha & _ & _ & _ & He & _).
    apply (coherent_grows _ _ _ t); [done..|by rewrite Ha].
  - pose proof Hc as (H1 & H2 & H3). unfold on_exit. cbn.
    destruct (testPassed t) eqn:Hp.
    + split_and!; cbn.
      * intros Hb. apply elem_of_app. left. by apply H1.
      * intros _. destruct (H2 eq_refl) as (pre & post & -> & Hin & Hf).
        exists pre, (post ++ [ServerExit code]). by rewrite <-app_assoc.
      * intros c [= <-]. right. split_and!; [done..|]. exists code.
        apply elem_of_app. right. by apply list_elem_of_singleton.
    + assert (coherent env (hs ++ [ServerExit code])
                (exit_with 1 (set_exitCode code t))) as Hgoal.
      { split_and!; cbn.
        - intros Hb. apply elem_of_app. left. by apply H1.
        - by rewrite Hp.
        - intros c [= <-]. by left. }
      by destruct (testFailed t).
  - pose proof Hc as (H1 & H2 & H3). unfold on_error. split_and!; cbn.
    + intros Hb. apply elem_of_app. left. by apply H1.
    + intros Hp. destruct (H2 Hp) as (pre & post & -> & Hin & Hf).
      exists pre, (post ++ [ServerError]). by rewrite <-app_assoc.
    + intros c [= <-]. by left.
  - unfold on_timer. destruct (awaits t) eqn:Ha; try by apply (coherent_grows _ _ _ t).
    + destruct (testFailed t); unfold bail_out;
        apply (coherent_grows _ _ _ t); try done; cbn;
        by destruct (kill_flags SIGTERM t) as (? & ? & ? & ? & ?).
    + pose proof Hc as (H1 & H2 & H3).
      destruct (negb (killed t) && bool_decide (exitCode t = None)).
      * split_and!; cbn.
        -- done.
        -- destruct (kill_flags SIGKILL (set_passed false (set_failed true t)))
             as (-> & _). done.
        -- destruct (kill_flags SIGKILL (set_passed false (set_failed true t)))
             as (_ & _ & _ & -> & _). cbn. by rewrite E.
      * apply (coherent_grows _ _ _ t); [done..|]. cbn. done.
  - unfold on_response. destruct (awaits t) eqn:Ha; try by apply (coherent_grows _ _ _ t).
    pose proof Hc as (H1 & H2 & H3). destruct ok.
    + split_and!; cbn.
      * intros _. apply elem_of_app. right. by apply list_elem_of_singleton.
      * intros Hp. destruct (H2 Hp) as (pre & post & -> & Hin & Hf).
        exists pre, (post ++ [ResponseArrives true]). by rewrite <-app_assoc.
      * by rewrite E.
    + unfold bail_out. apply (coherent_grows _ _ _ t); try done; cbn;
        by destruct (kill_flags SIGTERM (set_failed true t)) as (? & ? & ? & ? & ?).
  - unfold on_body. destruct (awaits t) eqn:Ha; try by apply (coherent_grows _ _ _ t).
    pose proof Hc as (H1 & H2 & H3). unfold shut_down.
    destruct (testFailed t) eqn:Hf; cbn [negb].
    + apply (coherent_grows _ _ _ t); try done; cbn;
        by destruct (kill_flags SIGTERM t) as (? & ? & ? & ? & ?).
    + split_and!; cbn.
      * done.
      * intros _. exists hs, []. split_and!; [done| |done]. by apply H1.
      * destruct (kill_flags SIGTERM (set_passed true t)) as (_ & _ & _ & -> & _).
        cbn. by rewrite E.
  - unfold on_fetch_failed.
    destruct (awaits t) eqn:Ha; try by apply (coherent_grows _ _ _ t).
    + unfold bail_out. apply (coherent_grows _ _ _ t); try done; cbn;
        by destruct (kill_flags SIGTERM (set_failed true t)) as (? & ? & ? & ? & ?).
    + unfold bail_out. apply (coherent_grows _ _ _ t); try done; cbn;
        by destruct (kill_flags SIGTERM (set_failed true t)) as (? & ? & ? & ? & ?).
Qed.

Lemma happen_all_coherent env hs : coherent env hs (happen_all env hs spawned).
Proof.
  induction hs as [|h hs IH] using rev_ind.
  - split_and!; done.
  - by apply happen_coherent.
Qed.

(** X25: the smoke test ends with status 0 only if [/healthz] answered
    with an OK status and its body arrived at a moment when no critical
    error had been seen on the server's stderr, and only on the exit of
    the server; every other end is status 1. *)
Theorem pass_needs_health (env : gmap string string) (hs : list happening) (c : Z) :
  ended (happen_all env hs spawned) = Some c →
  c = 1%Z ∨
  (c = 0%Z ∧
   (∃ code, ServerExit code ∈ hs) ∧
   ∃ pre post, hs = pre ++ BodyArrives :: post ∧
               ResponseArrives true ∈ pre ∧
               testFailed (happen_all env pre spawned) = false).
Proof.
  intros Hc. destruct (happen_all_coherent env hs) as (_ & H2 & H3).
  destruct (H3 c Hc) as [->|(-> & Hp & Hex)]; [by left|right].
  split_and!; [done..|]. by apply H2.
Qed.

Lemma pass_needs_health_witness :
  let hs := [TimerFires; ResponseArrives true; BodyArrives; ServerExit (Some 0%Z)] in
  0%Z = 1%Z ∨
  (0%Z = 0%Z ∧
   (∃ code, ServerExit code ∈ hs) ∧
   ∃ pre post, hs = pre ++ BodyArrives :: post ∧
               ResponseArrives true ∈ pre ∧
               testFailed (happen_all complete pre spawned) = false).
Proof.
  apply (pass_needs_health complete
           [TimerFires; ResponseArrives true; BodyArrives; ServerExit (Some 0%Z)] 0).
  reflexivity.
Defined.

Lemma stderr_keeps env texts t :
  testPassed (happen_all env (Stderr <$> texts) t) = testPassed t ∧
  ended (happen_all env (Stderr <$> texts) t) = ended t.
Proof.
  revert t. induction texts as [|x texts IH]; intros t; [done|].
  rewrite fmap_cons, happen_all_cons.
  destruct (IH (happen env t (Stderr x))) as [-> ->].
  unfold happen. destruct (ended t) eqn:E; [by rewrite E|]. cbn.
  by destruct (on_stderr_flags env x t) as (-> & _ & _ & _ & _ & -> & _).
Qed.

Lemma stderr_alive env x t :
  ended t = None → ended (happen env t (Stderr x)) = None.
Proof.
  intros He. unfold happen. rewrite He.
  by destruct (on_stderr_flags env x t) as (_ & _ & _ & _ & _ & -> & _).
Qed.

Lemma stderr_stays_failed env texts t :
  ended t = None → testFailed t = true →
  testFailed (happen_all env (Stderr <$> texts) t) = true.
Proof.
  revert t. induction texts as [|x texts IH]; intros t He Hf; [done|].
  rewrite fmap_cons, happen_all_cons. apply IH; [by apply stderr_alive|].
  unfold happen. rewrite He. by apply (on_stderr_flags env x t).
Qed.

Lemma stderr_fails env texts t :
  ended t = None →
  Exists (λ text, contains "Called end on pool more than once" text = true) texts →
  testFailed (happen_all env (Stderr <$> texts) t) = true.
Proof.
  intros He Hex. revert t He.
  induction Hex as [x texts Hx|x texts Hex IH]; intros t He;
    rewrite fmap_cons, happen_all_cons.
  - apply stderr_stays_failed; [by apply stderr_alive|].
    unfold happen. rewrite He. unfold on_stderr. rewrite Hx.
    by repeat case_match.
  - apply IH. by apply stderr_alive.
Qed.

(** X26: once the test is marked passed, which is before the server is
    told to stop, nothing the server writes to stderr while it shuts
    down changes the verdict: when the server then exits, with whatever
    code, the smoke test ends with status 0, even if it has just seen
    the error it is there to catch. *)
Theorem late_errors_still_pass (env : gmap string string) (pre : list happening)
    (texts : list string) (code : option Z) :
  testPassed (happen_all env pre spawned) = true →
  ended (happen_all env pre spawned) = None →
  ended (happen_all env (pre ++ (Stderr <$> texts) ++ [ServerExit code]) spawned) =
    Some 0%Z ∧
  (Exists (λ text, contains "Called end on pool more than once" text = true) texts →
   testFailed
     (happen_all env (pre ++ (Stderr <$> texts) ++ [ServerExit code]) spawned) = true).
Proof.
  intros Hp He. rewrite !happen_all_app.
  destruct (stderr_keeps env texts (happen_all env pre spawned)) as [Hp' He'].
  change (happen_all env [ServerExit code] ?t) with (happen env t (ServerExit code)).
  unfold happen. rewrite He', He. unfold on_exit. cbn. rewrite Hp', Hp. cbn.
  split; [done|]. intros Hex. by apply stderr_fails.
Qed.

Lemma late_errors_still_pass_witness :
  let hs := [TimerFires; ResponseArrives true; BodyArrives] ++
            (Stderr <$> ["Error: Called end on pool more than once"]) ++
            [ServerExit (Some 1%Z)] in
  ended (happen_all complete hs spawned) = Some 0%Z ∧
  (Exists (λ text, contains "Called end on pool more than once" text = true)
     ["Error: Called end on pool more than once"] →
   testFailed (happen_all complete hs spawned) = true).
Proof.
  apply (late_errors_still_pass complete [TimerFires; ResponseArrives true; BodyArrives]
           ["Error: Called end on pool more than once"] (Some 1%Z));
    reflexivity.
Defined.

Lemma happen_signalled env t h : signalled t → signalled (happen env t h).
Proof.
  intros Ht. pose proof Ht as (H1 & H2 & H3).
  unfold happen. destruct (ended t) eqn:E; [exact Ht|].
  specialize (H1 eq_refl).
  assert (∀ t0, exitCode t0 = None → awaits t0 = awaits t →
                signals t0 = signals t → ended t0 = None →
                signalled (set_awaits Returned (kill SIGTERM t0))) as Hgive.
  { intros t0 Hx Ha Hs He. unfold kill. rewrite Hx. split_and!; cbn; [done..|].
    rewrite Hs. intros [?|?%list_elem_of_singleton]%elem_of_app; done. }
  destruct h; cbn.
  - done.
  - destruct (on_stderr_flags env errorText t) as (_ & Ha & Hs & Hk & Hx & He & _).
    split_and!; [by rewrite Hx|by rewrite Ha, Hk|by rewrite Hs].
  - unfold on_exit. cbn. by repeat case_match.
  - by unfold on_error.
  - unfold on_timer. destruct (awaits t) eqn:Ha; try done.
    + destruct (testFailed t); [by apply Hgive|done].
    + rewrite (H2 eq_refl). cbn. done.
  - unfold on_response. destruct (awaits t) eqn:Ha; try done.
    destruct ok; [done|]. by apply Hgive.
  - unfold on_body. destruct (awaits t) eqn:Ha; try done.
    unfold shut_down, kill. destruct (testFailed t); cbn; rewrite H1; cbn;
      (split_and!; [done..|]);
      intros [?|?%list_elem_of_singleton]%elem_of_app; done.
  - unfold on_fetch_failed. destruct (awaits t) eqn:Ha; try done; by apply Hgive.
Qed.

Lemma happen_all_signalled env hs : signalled (happen_all env hs spawned).
Proof.
  induction hs as [|h hs IH] using rev_ind.
  - split_and!; [done..|]. apply not_elem_of_nil.
  - rewrite happen_all_snoc. by apply happen_signalled.
Qed.

Lemma happen_alive env t h : ¬ is_exit h → ended (happen env t h) = ended t.
Proof.
  intros Hh. unfold happen. destruct (ended t) eqn:E; [done|].
  destruct h; cbn; try done; try (by destruct Hh).
  - by destruct (on_stderr_flags env errorText t) as (_ & _ & _ & _ & _ & -> & _).
  - unfold on_timer, bail_out, kill. by repeat case_match.
  - unfold on_response, bail_out, kill. by repeat case_match.
  - unfold on_body, shut_down, kill. by repeat case_match.
  - unfold on_fetch_failed, bail_out, kill. by repeat case_match.
Qed.

(** X27: the script never sends SIGKILL: when the timer of the shutdown
    fires, [killed] is already true from the SIGTERM, so the branch that
    would force the kill is not taken. And the script ends only from a
    handler of the server's exit or start failure: with a server that
    does not exit, the smoke test does not end. *)
Theorem force_kill_never_sent (env : gmap string string) (hs : list happening) :
  (SIGKILL ∉ signals (happen_all env hs spawned)) ∧
  (Forall (λ h, ¬ is_exit h) hs → ended (happen_all env hs spawned) = None).
Proof.
  split; [apply happen_all_signalled|].
  induction hs as [|h hs IH] using rev_ind; [done|].
  intros [Hhs Hh]%Forall_app. apply Forall_inv in Hh.
  rewrite happen_all_snoc, (happen_alive env _ h Hh). by apply IH.
Qed.

End SmokeFacts.

(** ** Facts about the settings of the database connection *)

Module ConfigFacts.
Import Config.

Lemma same_but_lookup names env env' v :
  same_but names env env' → v ∉ names → env !! v = env' !! v.
Proof. intros H. apply H. Qed.

Ltac not_a_part := by apply (bool_decide_unpack _).

Lemma environments_production parseInt m env :
  connection <$> environments parseInt m env "production" =
  Some (remote parseInt env).
Proof. reflexivity. Qed.

Lemma environments_test parseInt m env :
  connection <$> environments parseInt m env "test" =
  Some (local parseInt env "PASSWORD" "cliscale_test").
Proof. reflexivity. Qed.

Lemma environments_local parseInt m env name :
  name = "development" ∨ name = "staging" →
  connection <$> environments parseInt m env name =
  Some (local parseInt env "DB_PASSWORD" "cliscale").
Proof. by intros [-> | ->]. Qed.

Lemma environments_migrate parseInt m env name e :
  environments parseInt m env name = Some e → migrate e = m.
Proof.
  unfold environments. repeat case_bool_decide; intros [= <-]; done.
Qed.

Lemma knexfile_production parseInt env :
  connection <$> knexfile parseInt env "production" = Some (remote parseInt env).
Proof. reflexivity. Qed.

Lemma password_set (env : gmap string string) var secret :
  secret ≠ EmptyString →
  or_default (<[var := secret]> env !! var) "postgres" = secret.
Proof.
  intros Hne. unfold or_default. rewrite lookup_insert_eq.
  by rewrite bool_decide_eq_false_2.
Qed.

(** X28: in production the application and the migrations do not read
    the same variables. The application connects with [DATABASE_URL]
    and certificate verification and ignores [DB_HOST], [DB_PORT],
    [DB_NAME], [DB_USER] and [DB_PASSWORD]; the migrations connect with
    those five and ignore [DATABASE_URL]. *)
Theorem production_reads_disjoint_variables (parseInt : string → option Z)
    (env env' : gmap string string) (url : string) :
  env !! "NODE_ENV" = Some "production" →
  same_but part_vars env env' →
  connect (db parseInt env) = Secure (env !! "DATABASE_URL") true ∧
  connect (db parseInt env') = connect (db parseInt env) ∧
  connection <$> knexfile parseInt (<["DATABASE_URL" := url]> env) "production" =
    connection <$> knexfile parseInt env "production".
Proof.
  intros Hprod Hsame.
  assert (env' !! "NODE_ENV" = Some "production") as Hprod'.
  { rewrite <-Hprod. symmetry. apply Hsame. not_a_part. }
  assert (env' !! "DATABASE_URL" = env !! "DATABASE_URL") as Hurl.
  { symmetry. apply Hsame. not_a_part. }
  unfold db. cbn [connect]. rewrite !bool_decide_eq_true_2 by done.
  split_and!; [done|by rewrite Hurl|].
  rewrite !knexfile_production. unfold remote. by rewrite !lookup_insert_ne.
Qed.

Lemma production_reads_disjoint_variables_witness :
  let env : gmap string string := <["NODE_ENV" := "production"]> ∅ in
  let env' : gmap string string := <["DB_HOST" := "10.0.0.5"]> env in
  connect (db decimal env) = Secure (env !! "DATABASE_URL") true ∧
  connect (db decimal env') = connect (db decimal env) ∧
  connection <$> knexfile decimal (<["DATABASE_URL" := "postgresql://h/d"]> env)
                   "production" =
    connection <$> knexfile decimal env "production".
Proof.
  apply (production_reads_disjoint_variables decimal
           (<["NODE_ENV" := "production"]> ∅)
           (<["DB_HOST" := "10.0.0.5"]> (<["NODE_ENV" := "production"]> ∅))
           "postgresql://h/d").
  - reflexivity.
  - intros v Hv. rewrite (lookup_insert_ne _ "DB_HOST"); [reflexivity|].
    intros <-. apply Hv. apply list_elem_of_here.
Defined.

(** X29: the test environment of the migrations does not take its
    password from [DB_PASSWORD] as the three other environments do, but
    from [PASSWORD], in [controller/knexfile.js] and in its variant
    alike.  In [knexfile.js] the migrations of all four environments
    are the TypeScript sources in [./src/migrations], whatever
    [NODE_ENV] and [CI] are; in the variant the directory and the
    extension go together in all four: the compiled migrations, in
    [./dist/migrations] with [js], in production, under test and in CI,
    the sources with [ts] otherwise. *)
Theorem test_password_variable (parseInt : string → option Z)
    (env : gmap string string) (secret name : string) (m : migrations) :
  secret ≠ EmptyString →
  name = "development" ∨ name = "staging" ∨ name = "production" →
  connection <$> environments parseInt m (<["DB_PASSWORD" := secret]> env) "test" =
    connection <$> environments parseInt m env "test" ∧
  (password ∘ connection) <$>
      environments parseInt m (<["DB_PASSWORD" := secret]> env) name =
    Some (Some secret) ∧
  (password ∘ connection) <$>
      environments parseInt m (<["PASSWORD" := secret]> env) "test" =
    Some (Some secret) ∧
  (∀ n, is_Some (knexfile parseInt env n) ↔
        n ∈ ["development"; "staging"; "production"; "test"]) ∧
  (∀ n e, knexfile parseInt env n = Some e →
     directory (migrate e) = "./src/migrations" ∧ extension (migrate e) = "ts") ∧
  (∀ n e, knexfile_compiled parseInt env n = Some e →
     (useCompiledMigrations env = true ∧
      directory (migrate e) = "./dist/migrations" ∧ extension (migrate e) = "js") ∨
     (useCompiledMigrations env = false ∧
      directory (migrate e) = "./src/migrations" ∧ extension (migrate e) = "ts")).
Proof.
  intros Hne Hname. split_and!.
  - rewrite !environments_test. unfold local. by rewrite !lookup_insert_ne.
  - rewrite option_fmap_compose.
    destruct Hname as [Hname|[Hname| ->]].
    + rewrite environments_local by auto. cbn. by rewrite password_set.
    + rewrite environments_local by auto. cbn. by rewrite password_set.
    + rewrite environments_production. cbn. by rewrite lookup_insert_eq.
  - rewrite option_fmap_compose, environments_test. cbn. by rewrite password_set.
  - intros n. rewrite !elem_of_cons, elem_of_nil.
    unfold knexfile, environments.
    repeat case_bool_decide; subst; split; intros Hn;
      first [ by eexists | tauto | by destruct Hn as [? [=]] | naive_solver ].
  - intros n e He. by rewrite (environments_migrate _ _ _ _ _ He).
  - intros n e He. rewrite (environments_migrate _ _ _ _ _ He). cbn.
    destruct (useCompiledMigrations env); auto.
Qed.

Lemma test_password_variable_witness :
  let env : gmap string string := <["CI" := "true"]> ∅ in
  connection <$> environments decimal sources (<["DB_PASSWORD" := "s3cret"]> env) "test" =
    connection <$> environments decimal sources env "test" ∧
  (password ∘ connection) <$>
      environments decimal sources (<["DB_PASSWORD" := "s3cret"]> env) "staging" =
    Some (Some "s3cret") ∧
  (password ∘ connection) <$>
      environments decimal sources (<["PASSWORD" := "s3cret"]> env) "test" =
    Some (Some "s3cret") ∧
  (∀ n, is_Some (knexfile decimal env n) ↔
        n ∈ ["development"; "staging"; "production"; "test"]) ∧
  (∀ n e, knexfile decimal env n = Some e →
     directory (migrate e) = "./src/migrations" ∧ extension (migrate e) = "ts") ∧
  (∀ n e, knexfile_compiled decimal env n = Some e →
     (useCompiledMigrations env = true ∧
      directory (migrate e) = "./dist/migrations" ∧ extension (migrate e) = "js") ∨
     (useCompiledMigrations env = false ∧
      directory (migrate e) = "./src/migrations" ∧ extension (migrate e) = "ts")).
Proof.
  apply (test_password_variable decimal (<["CI" := "true"]> ∅) "s3cret" "staging"
           sources).
  - discriminate.
  - right. left. reflexivity.
Defined.

End ConfigFacts.
